(* ===================================================================== *)
(*  GnamiAI gateway: the conversational turn pipeline, the agent action   *)
(*  protocol, the pairing store and the remote-debug session, embedded    *)
(*  from src/core/actions.ts, src/core/store.ts, src/gateway/server.ts,   *)
(*  src/commands/pairing.ts and src/integrations/adapters/browser.ts.     *)
(* ===================================================================== *)

From Stdlib Require Import ZArith NArith String Ascii List Bool Lia DecimalString.
From stdpp Require Import base option list gmap.

Set Default Proof Using "Type".
Set Warnings "-register-all".
Open Scope nat_scope.

(* ===================================================================== *)
(** * 1. JavaScript strings                                               *)
(* ===================================================================== *)

(** A JavaScript string is a sequence of UTF-16 code units. *)
Definition char := N.
Bind Scope N_scope with char.
Definition jstring := list char.

Fixpoint lit (s : string) : jstring :=
  match s with
  | EmptyString => []
  | String a s' => N_of_ascii a :: lit s'
  end.

Arguments lit : simpl never.

(** Source text that holds double quotes (JSON payloads) is written with
    apostrophes and converted: [dq "{'a':1}"] is the text [{"a":1}]. *)
Definition dq (s : string) : jstring :=
  map (fun c => if N.eqb c 39 then 34%N else c) (lit s).

Definition jstr_eqb (a b : jstring) : bool := bool_decide (a = b).

Module Js.

(** WhiteSpace and LineTerminator code points: what [String.prototype.trim]
    removes and what the pattern escape [\s] accepts. *)
Definition is_space (c : char) : bool :=
  (N.leb 9 c && N.leb c 13) || N.eqb c 32 || N.eqb c 160 || N.eqb c 5760
  || (N.leb 8192 c && N.leb c 8202) || N.eqb c 8232 || N.eqb c 8233
  || N.eqb c 8239 || N.eqb c 8287 || N.eqb c 12288 || N.eqb c 65279.

Definition is_line_terminator (c : char) : bool :=
  N.eqb c 10 || N.eqb c 13 || N.eqb c 8232 || N.eqb c 8233.

Definition is_digit (c : char) : bool := N.leb 48 c && N.leb c 57.
Definition is_upper (c : char) : bool := N.leb 65 c && N.leb c 90.
Definition is_lower (c : char) : bool := N.leb 97 c && N.leb c 122.

(** [\w] without the unicode flag. *)
Definition is_word (c : char) : bool :=
  is_lower c || is_upper c || is_digit c || N.eqb c 95.

Fixpoint trimStart (s : jstring) : jstring :=
  match s with
  | c :: s' => if is_space c then trimStart s' else s
  | [] => []
  end.

Definition trimEnd (s : jstring) : jstring := rev (trimStart (rev s)).
Definition trim (s : jstring) : jstring := trimEnd (trimStart s).

(** Truthiness of a string: non-empty. *)
Definition truthy (s : jstring) : bool :=
  match s with [] => false | _ => true end.

Fixpoint startsWith (s p : jstring) : bool :=
  match p, s with
  | [], _ => true
  | a :: p', b :: s' => N.eqb a b && startsWith s' p'
  | _ :: _, [] => false
  end.

(** [toLowerCase], written out where its result is ASCII: the ASCII
    capitals and the Kelvin sign.  Every other unit lower-cases to units
    outside ASCII, and the program compares lower-cased text with ASCII
    text only, so leaving those units as they are changes no comparison. *)
Definition lower_ascii (c : char) : char :=
  if is_upper c then (c + 32)%N else if N.eqb c 8490 then 107%N else c.
Definition toLowerCase (s : jstring) : jstring := map lower_ascii s.

(** [s.includes(p)] *)
Fixpoint includes (s p : jstring) : bool :=
  startsWith s p || match s with [] => false | _ :: s' => includes s' p end.

(** [parts.join(sep)] *)
Fixpoint join (sep : jstring) (parts : list jstring) : jstring :=
  match parts with
  | [] => []
  | [p] => p
  | p :: ps => p ++ sep ++ join sep ps
  end.

(** [s.split(sep)] for a non-empty literal separator. *)
Fixpoint split_lit_aux (sep : jstring) (cur : jstring) (s : jstring) (skip : nat)
  : list jstring :=
  match s with
  | [] => [rev cur]
  | c :: s' =>
      match skip with
      | S k => split_lit_aux sep cur s' k
      | O =>
          if startsWith s sep
          then rev cur :: split_lit_aux sep [] s' (length sep - 1)
          else split_lit_aux sep (c :: cur) s' 0
      end
  end.
Definition split_lit (sep s : jstring) : list jstring := split_lit_aux sep [] s 0.

(** [s.replace(p, "")] for a literal pattern: the first occurrence goes. *)
Fixpoint remove_first (p s : jstring) : jstring :=
  if startsWith s p then drop (length p) s
  else match s with
       | [] => []
       | c :: s' => c :: remove_first p s'
       end.

End Js.

(** Text that went through UTF-8 (a file, a TEXT column of the database):
    what is read back after [text] was written. *)
Module Utf8.

Definition is_high (c : char) : bool := N.leb 55296 c && N.leb c 56319.
Definition is_low (c : char) : bool := N.leb 56320 c && N.leb c 57343.

(** A surrogate outside a pair is encoded as U+FFFD. *)
Fixpoint stored (text : jstring) : jstring :=
  match text with
  | [] => []
  | c :: rest =>
      if is_high c then
        match rest with
        | d :: rest' =>
            if is_low d then c :: d :: stored rest' else 65533%N :: stored rest
        | [] => [65533%N]
        end
      else if is_low c then 65533%N :: stored rest
      else c :: stored rest
  end.

(** No surrogate in the text. *)
Definition plain_units (text : jstring) : bool :=
  forallb (fun c => negb (is_high c || is_low c)) text.

End Utf8.

(* ===================================================================== *)
(** * 2. Regular expressions                                              *)
(* ===================================================================== *)

(** The patterns of the program are transcribed to this syntax and run by
    a backtracking matcher that follows the ECMAScript semantics of the
    constructs they use: ordered alternation, greedy and lazy quantifiers,
    capture groups, [^], [$], [\b], and the flags [i] and [m]. *)
Module Re.

Inductive citem : Type :=
| CChr (c : char)           (* a literal member *)
| CRng (lo hi : char)       (* lo-hi *)
| CSpace                    (* \s *)
| CNotSpace                 (* \S *)
| CWord.                    (* \w *)

Inductive regex : Type :=
| Eps
| Chr (c : char)
| Dot                                   (* .  *)
| Cls (neg : bool) (items : list citem) (* [...] and [^...] *)
| Seq (a b : regex)
| Alt (a b : regex)
| Rep (greedy : bool) (lo : nat) (hi : option nat) (a : regex)
| Grp (i : nat) (a : regex)             (* i-th capturing group *)
| Bol                                   (* ^  *)
| Eol                                   (* $  *)
| WordB.                                (* \b *)

Record flags : Type := Flags { ignoreCase : bool; multiline : bool }.

Definition plain : flags := Flags false false.
Definition fl_i : flags := Flags true false.
Definition fl_im : flags := Flags true true.

(** Canonicalize of the [i] flag: the upper-case mapping when it is one
    code unit, and never from a non-ASCII unit to an ASCII one.  It is
    written out on Latin-1; the patterns of the program hold no character
    outside Latin-1 and no character outside Latin-1 canonicalizes to one
    of theirs, so the units left alone here compare as in the runtime. *)
Definition canon (c : char) : char :=
  if Js.is_lower c then (c - 32)%N
  else if N.leb 224 c && N.leb c 254 && negb (N.eqb c 247) then (c - 32)%N
  else c.

Definition chr_eq (fl : flags) (p c : char) : bool :=
  if ignoreCase fl then N.eqb (canon p) (canon c) else N.eqb p c.

Fixpoint range_from (lo : char) (n : nat) : list char :=
  match n with
  | O => []
  | S n' => lo :: range_from (lo + 1)%N n'
  end.

Definition citem_has (fl : flags) (it : citem) (c : char) : bool :=
  match it with
  | CChr p => chr_eq fl p c
  | CRng lo hi =>
      if ignoreCase fl
      then existsb (fun a => N.eqb (canon a) (canon c))
                   (range_from lo (N.to_nat (hi + 1 - lo)))
      else N.leb lo c && N.leb c hi
  | CSpace => Js.is_space c
  | CNotSpace => negb (Js.is_space c)
  | CWord => Js.is_word c
  end.

Definition cls_has (fl : flags) (neg : bool) (items : list citem) (c : char) : bool :=
  xorb neg (existsb (fun it => citem_has fl it c) items).

(** The matcher state: the unit before the current position (for [^] and
    [\b]), the text still ahead, and the captures made so far. *)
Record mstate : Type := MState {
  prev : option char;
  rest : jstring;
  caps : list (nat * jstring)
}.

Definition cont := mstate -> option mstate.

Definition eat (s : mstate) (c : char) (r : jstring) : mstate :=
  MState (Some c) r (caps s).

Definition consumed (s s' : mstate) : jstring :=
  take (length (rest s) - length (rest s')) (rest s).

Definition word_before (s : mstate) : bool :=
  match prev s with Some c => Js.is_word c | None => false end.
Definition word_after (s : mstate) : bool :=
  match rest s with c :: _ => Js.is_word c | [] => false end.

Definition or_else {A} (a b : option A) : option A :=
  match a with Some x => Some x | None => b end.

(** A quantifier: [step] matches the quantified term once and hands over
    to the continuation it is given.  An iteration that matches the empty
    text once the minimum is reached is refused, so [fuel] iterations, the
    minimum plus the length of the text ahead, are never exhausted.  (No
    pattern of the program has a capture group inside a quantifier.) *)
Fixpoint rep (step : cont -> cont) (k : cont) (greedy : bool)
  (fuel lo : nat) (hi : option nat) (s : mstate) {struct fuel} : option mstate :=
  match hi with
  | Some O => k s
  | _ =>
      match fuel with
      | O => match lo with O => k s | S _ => None end
      | S fuel' =>
          let again :=
            step
              (fun s' =>
                 match lo with
                 | O =>
                     if Nat.eqb (length (rest s')) (length (rest s))
                     then None
                     else rep step k greedy fuel' O (pred <$> hi) s'
                 | S lo' => rep step k greedy fuel' lo' (pred <$> hi) s'
                 end) s in
          match lo with
          | S _ => again
          | O => if greedy then or_else again (k s) else or_else (k s) again
          end
      end
  end.

(** The matcher, in continuation-passing style: [m fl r k s] matches [r]
    at [s] and continues with [k]; [None] makes the caller backtrack. *)
Fixpoint m (fl : flags) (r : regex) (k : cont) (s : mstate) {struct r} : option mstate :=
  match r with
  | Eps => k s
  | Chr p =>
      match rest s with
      | c :: t => if chr_eq fl p c then k (eat s c t) else None
      | [] => None
      end
  | Dot =>
      match rest s with
      | c :: t => if Js.is_line_terminator c then None else k (eat s c t)
      | [] => None
      end
  | Cls neg items =>
      match rest s with
      | c :: t => if cls_has fl neg items c then k (eat s c t) else None
      | [] => None
      end
  | Seq a b => m fl a (m fl b k) s
  | Alt a b => or_else (m fl a k s) (m fl b k s)
  | Rep greedy lo hi a => rep (m fl a) k greedy (lo + length (rest s) + 1) lo hi s
  | Grp i a =>
      m fl a (fun s' => k (MState (prev s') (rest s') ((i, consumed s s') :: caps s'))) s
  | Bol =>
      match prev s with
      | None => k s
      | Some c => if multiline fl && Js.is_line_terminator c then k s else None
      end
  | Eol =>
      match rest s with
      | [] => k s
      | c :: _ => if multiline fl && Js.is_line_terminator c then k s else None
      end
  | WordB => if xorb (word_before s) (word_after s) then k s else None
  end.

(** One match attempt at the current position. *)
Definition match_here (fl : flags) (r : regex) (p : option char) (s : jstring)
  : option mstate :=
  m fl r Some (MState p s []).

(** A found match: the text skipped before it, the matched text, the
    captures, and what follows (with the unit before it). *)
Record found : Type := Found {
  before : jstring;
  matched : jstring;
  groups : list (nat * jstring);
  after_prev : option char;
  after : jstring
}.

Fixpoint assoc (i : nat) (l : list (nat * jstring)) : option jstring :=
  match l with
  | [] => None
  | (j, v) :: l' => if Nat.eqb i j then Some v else assoc i l'
  end.

(** [match[i]]: the last capture made by group [i]. *)
Definition group (f : found) (i : nat) : option jstring := assoc i (groups f).

Definition mk_found (skipped : jstring) (s : jstring) (e : mstate) : found :=
  Found skipped (take (length s - length (rest e)) s) (caps e) (prev e) (rest e).

Definition push_before (c : char) (f : found) : found :=
  Found (c :: before f) (matched f) (groups f) (after_prev f) (after f).

(** Leftmost match at or after the current position. *)
Fixpoint search (fl : flags) (r : regex) (p : option char) (s : jstring) : option found :=
  match match_here fl r p s with
  | Some e => Some (mk_found [] s e)
  | None =>
      match s with
      | [] => None
      | c :: s' => push_before c <$> search fl r (Some c) s'
      end
  end.

(** [re.test(s)] and [s.match(re)] for a pattern without the [g] flag. *)
Definition test (fl : flags) (r : regex) (s : jstring) : bool :=
  match search fl r None s with Some _ => true | None => false end.

Definition match1 (fl : flags) (r : regex) (s : jstring) : option found :=
  search fl r None s.

(** The successive matches of a [g] pattern, as [while (re.exec(s))],
    [replace] and [split] visit them.  The patterns of the program match
    no empty text, so the scan resumes where the match ended. *)
Fixpoint scan (fuel : nat) (fl : flags) (r : regex) (p : option char) (s : jstring)
  : list found * jstring :=
  match fuel with
  | O => ([], s)
  | S fuel' =>
      match search fl r p s with
      | None => ([], s)
      | Some f =>
          match matched f with
          | [] => ([], s)
          | _ :: _ =>
              let '(fs, tail) := scan fuel' fl r (after_prev f) (after f) in
              (f :: fs, tail)
          end
      end
  end.

Definition exec_all (fl : flags) (r : regex) (s : jstring) : list found :=
  fst (scan (length s) fl r None s).

(** The pieces of the text that no match covers, in order. *)
Definition gaps (fl : flags) (r : regex) (s : jstring) : list jstring :=
  let '(fs, tail) := scan (length s) fl r None s in
  map before fs ++ [tail].

(** [s.split(re)] for a pattern without groups. *)
Definition split (fl : flags) (r : regex) (s : jstring) : list jstring :=
  match s with
  | [] => match match_here fl r None [] with Some _ => [] | None => [[]] end
  | _ => gaps fl r s
  end.

(** GetSubstitution: [$$], [$&], [$`], [$'] and [$1]..[$9] in a
    replacement string ([$n] stays as it is written when the pattern has
    no such group; the patterns replaced with computed text have none). *)
Fixpoint substitution (f : found) (whole : jstring) (pos : nat) (repl : jstring) : jstring :=
  match repl with
  | d :: ((x :: repl'') as repl') =>
      if N.eqb d 36 then
        if N.eqb x 36 then 36%N :: substitution f whole pos repl''
        else if N.eqb x 38 then matched f ++ substitution f whole pos repl''
        else if N.eqb x 96 then take pos whole ++ substitution f whole pos repl''
        else if N.eqb x 39 then after f ++ substitution f whole pos repl''
        else if N.leb 49 x && N.leb x 57 then
          match group f (N.to_nat (x - 48)) with
          | Some g => g ++ substitution f whole pos repl''
          | None => d :: substitution f whole pos repl'
          end
        else d :: substitution f whole pos repl'
      else d :: substitution f whole pos repl'
  | _ => repl
  end.

(** [s.replace(re, repl)] without the [g] flag: the first match only. *)
Definition replace1 (fl : flags) (r : regex) (repl : jstring) (s : jstring) : jstring :=
  match search fl r None s with
  | None => s
  | Some f => before f ++ substitution f s (length (before f)) repl ++ after f
  end.

(** [s.replace(re, "")] and [s.replace(re, sep)] with the [g] flag, for a
    replacement without [$]. *)
Definition replace_all (fl : flags) (r : regex) (repl : jstring) (s : jstring) : jstring :=
  Js.join repl (gaps fl r s).

(** Abbreviations for transcribing patterns. *)
Fixpoint str (s : jstring) : regex :=
  match s with
  | [] => Eps
  | [c] => Chr c
  | c :: s' => Seq (Chr c) (str s')
  end.
Definition txt (s : string) : regex := str (lit s).
Fixpoint seq (rs : list regex) : regex :=
  match rs with
  | [] => Eps
  | [r] => r
  | r :: rs' => Seq r (seq rs')
  end.
Fixpoint alt (rs : list regex) : regex :=
  match rs with
  | [] => Cls false []
  | [r] => r
  | r :: rs' => Alt r (alt rs')
  end.
Definition ws : regex := Cls false [CSpace].
Definition any : regex := Cls false [CSpace; CNotSpace].
Definition star (a : regex) : regex := Rep true 0 None a.
Definition plus (a : regex) : regex := Rep true 1 None a.
Definition opt (a : regex) : regex := Rep true 0 (Some 1) a.
Definition lazy_star (a : regex) : regex := Rep false 0 None a.
Definition between (lo hi : nat) (a : regex) : regex := Rep true lo (Some hi) a.
Definition one_of (s : string) : list citem := map CChr (lit s).

(** Reading the literal text [cs] from the current position. *)
Fixpoint eat_all (cs : jstring) (s : mstate) : option mstate :=
  match cs with
  | [] => Some s
  | c :: cs' =>
      match rest s with
      | x :: t => if N.eqb c x then eat_all cs' (eat s x t) else None
      | [] => None
      end
  end.

(** The state [n] characters further on. *)
Fixpoint skip (n : nat) (s : mstate) : mstate :=
  match n, rest s with
  | S n', c :: t => skip n' (eat s c t)
  | _, _ => s
  end.

(** Whatever a pattern matches, the continuation is entered further on in
    the same text. *)
Definition forwards (step : cont -> cont) : Prop :=
  forall k s e, step k s = Some e ->
    exists s', k s' = Some e /\ rest s' `suffix_of` rest s.

(** The continuation succeeds exactly on the texts of [Q], whatever the
    position before and the captures. *)
Definition decides (k : cont) (Q : jstring -> Prop) : Prop :=
  forall s, is_Some (k s) <-> Q (rest s).

End Re.

(* ===================================================================== *)
(** * 3. JSON values                                                      *)
(* ===================================================================== *)

(** A number is an IEEE 754 double, the value [JSON.parse] gives to a
    number literal: a zero, an infinity, or [m] times two to the [e]. *)
Inductive number : Type :=
| Zero (negative : bool)
| Finite (negative : bool) (m : positive) (e : Z)
| Infinity (negative : bool).

(** The double a decimal literal stands for (round to nearest, ties to
    even, 53 bits of precision, exponents from -1074 to 971). *)
Module Double.

(** [m] times two to the [e] with the factors of two moved to [e]. *)
Fixpoint odd_part (m : positive) (e : Z) : positive * Z :=
  match m with
  | xO m' => odd_part m' (e + 1)
  | _ => (m, e)
  end.

(** The floor of the binary logarithm of [a / b]. *)
Definition log2_ratio (a b : positive) : Z :=
  let t := (Z.log2 (Zpos a) - Z.log2 (Zpos b))%Z in
  if (0 <=? t)%Z
  then (if (Zpos b * 2 ^ t <=? Zpos a)%Z then t else t - 1)%Z
  else (if (Zpos b <=? Zpos a * 2 ^ (- t))%Z then t else t - 1)%Z.

(** [num / den] rounded to the nearest integer, a tie to the even one. *)
Definition round_even (num den : Z) : Z :=
  let q := (num / den)%Z in
  let r := (num mod den)%Z in
  match (2 * r ?= den)%Z with
  | Lt => q
  | Gt => (q + 1)%Z
  | Eq => if Z.even q then q else (q + 1)%Z
  end.

(** The double nearest to [a / b]. *)
Definition of_ratio (negative : bool) (a b : positive) : number :=
  let t := log2_ratio a b in
  let k := Z.max (t - 52) (-1074) in
  let q :=
    if (0 <=? k)%Z then round_even (Zpos a) (Zpos b * 2 ^ k)
    else round_even (Zpos a * 2 ^ (- k)) (Zpos b) in
  match q with
  | Zpos p =>
      if (1024 <=? Z.log2 q + k)%Z then Infinity negative
      else let '(m, e) := odd_part p k in Finite negative m e
  | _ => Zero negative
  end.

(** The double of the literal with the given sign, digits and decimal
    exponent. *)
Definition of_decimal (negative : bool) (digits exponent : Z) : number :=
  match digits with
  | Zpos d =>
      if (0 <=? exponent)%Z then
        match (Zpos d * 10 ^ exponent)%Z with
        | Zpos a => of_ratio negative a 1
        | _ => Zero negative
        end
      else
        match (10 ^ (- exponent))%Z with
        | Zpos b => of_ratio negative d b
        | _ => Zero negative
        end
  | _ => Zero negative
  end.

End Double.

(** The number written [mantissa]e[exponent]. *)
Definition Number (mantissa exponent : Z) : number :=
  Double.of_decimal (mantissa <? 0)%Z (Z.abs mantissa) exponent.

Inductive json : Type :=
| JNull
| JBool (b : bool)
| JNum (n : number)
| JStr (s : jstring)
| JArr (items : list json)
| JObj (members : list (jstring * json)).

Module Json.

(** [record.key] on a parsed value: the own property (the last member of
    that name wins in [JSON.parse]), [undefined] otherwise.  None of the
    names the program reads is found on a prototype. *)
Fixpoint lookup_last (key : jstring) (ms : list (jstring * json)) : option json :=
  match ms with
  | [] => None
  | (k, v) :: ms' =>
      match lookup_last key ms' with
      | Some w => Some w
      | None => if jstr_eqb k key then Some v else None
      end
  end.

Definition get (v : json) (key : string) : option json :=
  match v with
  | JObj ms => lookup_last (lit key) ms
  | _ => None
  end.

(** [!payload]: falsy values. *)
Definition falsy (v : json) : bool :=
  match v with
  | JNull => true
  | JBool b => negb b
  | JNum n => match n with Zero _ => true | _ => false end
  | JStr s => negb (Js.truthy s)
  | JArr _ | JObj _ => false
  end.

(** [typeof v === "object"] (null, arrays and objects). *)
Definition is_object (v : json) : bool :=
  match v with
  | JNull | JArr _ | JObj _ => true
  | _ => false
  end.

(** The JSON grammar (ECMA-404), as [JSON.parse] reads it. *)
Fixpoint skip_ws (s : jstring) : jstring :=
  match s with
  | c :: s' =>
      if N.eqb c 32 || N.eqb c 9 || N.eqb c 10 || N.eqb c 13 then skip_ws s' else s
  | [] => []
  end.

Definition hex_val (c : char) : option N :=
  if Js.is_digit c then Some (c - 48)%N
  else if N.leb 97 c && N.leb c 102 then Some (c - 87)%N
  else if N.leb 65 c && N.leb c 70 then Some (c - 55)%N
  else None.

(** The characters of a string literal after its opening quote. *)
Fixpoint string_body (s : jstring) (fuel : nat) (acc : jstring) : option (jstring * jstring) :=
  match fuel with
  | O => None
  | S fuel' =>
      match s with
      | [] => None
      | c :: s' =>
          if N.eqb c 34 then Some (rev acc, s')
          else if N.ltb c 32 then None
          else if N.eqb c 92 then
            match s' with
            | e :: s'' =>
                if N.eqb e 34 || N.eqb e 92 || N.eqb e 47 then string_body s'' fuel' (e :: acc)
                else if N.eqb e 98 then string_body s'' fuel' (8%N :: acc)
                else if N.eqb e 102 then string_body s'' fuel' (12%N :: acc)
                else if N.eqb e 110 then string_body s'' fuel' (10%N :: acc)
                else if N.eqb e 114 then string_body s'' fuel' (13%N :: acc)
                else if N.eqb e 116 then string_body s'' fuel' (9%N :: acc)
                else if N.eqb e 117 then
                  match s'' with
                  | a :: b :: c' :: d :: s3 =>
                      match hex_val a, hex_val b, hex_val c', hex_val d with
                      | Some x, Some y, Some z, Some w =>
                          string_body s3 fuel' ((x * 4096 + y * 256 + z * 16 + w)%N :: acc)
                      | _, _, _, _ => None
                      end
                  | _ => None
                  end
                else None
            | [] => None
            end
          else string_body s' fuel' (c :: acc)
      end
  end.

Fixpoint digits (s : jstring) (acc : Z) (n : nat) : Z * nat * jstring :=
  match s with
  | c :: s' =>
      if Js.is_digit c then digits s' (acc * 10 + Z.of_N (c - 48)%N)%Z (S n) else (acc, n, s)
  | [] => (acc, n, s)
  end.

(** A number literal: an optional minus, an integer part without leading
    zero, an optional fraction and an optional exponent. *)
Definition number_lit (s : jstring) : option (number * jstring) :=
  let '(neg, s1) :=
    match s with
    | c :: t => if N.eqb c 45 then (true, t) else (false, s)
    | [] => (false, s)
    end in
  let int_part :=
    match s1 with
    | c :: t =>
        if N.eqb c 48 then Some (0%Z, t)
        else if Js.is_digit c then
          let '(v, _, t') := digits s1 0 0 in Some (v, t')
        else None
    | [] => None
    end in
  match int_part with
  | None => None
  | Some (iv, s2) =>
      let frac :=
        match s2 with
        | c :: t =>
            if N.eqb c 46 then
              let '(v, n, t') := digits t iv 0 in
              match n with O => None | S _ => Some (v, Z.of_nat n, t') end
            else Some (iv, 0%Z, s2)
        | [] => Some (iv, 0%Z, s2)
        end in
      match frac with
      | None => None
      | Some (mv, scale, s3) =>
          let ex :=
            match s3 with
            | c :: t =>
                if N.eqb c 101 || N.eqb c 69 then
                  let '(eneg, t1) :=
                    match t with
                    | d :: t' =>
                        if N.eqb d 45 then (true, t')
                        else if N.eqb d 43 then (false, t') else (false, t)
                    | [] => (false, t)
                    end in
                  let '(v, n, t2) := digits t1 0 0 in
                  match n with
                  | O => None
                  | S _ => Some ((if eneg then - v else v)%Z, t2)
                  end
                else Some (0%Z, s3)
            | [] => Some (0%Z, s3)
            end in
          match ex with
          | None => None
          | Some (ev, s4) =>
              Some (Double.of_decimal neg mv (ev - scale)%Z, s4)
          end
      end
  end.

Fixpoint value (fuel : nat) (s : jstring) {struct fuel} : option (json * jstring) :=
  match fuel with
  | O => None
  | S fuel' =>
      match skip_ws s with
      | [] => None
      | c :: t =>
          if N.eqb c 123 then
            match skip_ws t with
            | d :: t' =>
                if N.eqb d 125 then Some (JObj [], t')
                else
                  (fix members (g : nat) (s : jstring) (acc : list (jstring * json))
                     {struct g} : option (json * jstring) :=
                     match g with
                     | O => None
                     | S g' =>
                         match skip_ws s with
                         | q :: s1 =>
                             if N.eqb q 34 then
                               match string_body s1 (S (length s1)) [] with
                               | Some (key, s2) =>
                                   match skip_ws s2 with
                                   | col :: s3 =>
                                       if N.eqb col 58 then
                                         match value fuel' s3 with
                                         | Some (v, s4) =>
                                             match skip_ws s4 with
                                             | e :: s5 =>
                                                 if N.eqb e 44
                                                 then members g' s5 ((key, v) :: acc)
                                                 else if N.eqb e 125
                                                 then Some (JObj (rev ((key, v) :: acc)), s5)
                                                 else None
                                             | [] => None
                                             end
                                         | None => None
                                         end
                                       else None
                                   | [] => None
                                   end
                               | None => None
                               end
                             else None
                         | [] => None
                         end
                     end) fuel' (d :: t') []
            | [] => None
            end
          else if N.eqb c 91 then
            match skip_ws t with
            | d :: t' =>
                if N.eqb d 93 then Some (JArr [], t')
                else
                  (fix elements (g : nat) (s : jstring) (acc : list json)
                     {struct g} : option (json * jstring) :=
                     match g with
                     | O => None
                     | S g' =>
                         match value fuel' s with
                         | Some (v, s1) =>
                             match skip_ws s1 with
                             | e :: s2 =>
                                 if N.eqb e 44 then elements g' s2 (v :: acc)
                                 else if N.eqb e 93 then Some (JArr (rev (v :: acc)), s2)
                                 else None
                             | [] => None
                             end
                         | None => None
                         end
                     end) fuel' (d :: t') []
            | [] => None
            end
          else if N.eqb c 34 then
            match string_body t (S (length t)) [] with
            | Some (str, t') => Some (JStr str, t')
            | None => None
            end
          else if Js.startsWith (c :: t) (lit "null") then Some (JNull, drop 4 (c :: t))
          else if Js.startsWith (c :: t) (lit "true") then Some (JBool true, drop 4 (c :: t))
          else if Js.startsWith (c :: t) (lit "false") then Some (JBool false, drop 5 (c :: t))
          else
            match number_lit (c :: t) with
            | Some (n, t') => Some (JNum n, t')
            | None => None
            end
      end
  end.

(** [JSON.parse(text)]; [None] stands for the SyntaxError it throws. *)
Definition parse (s : jstring) : option json :=
  match value (S (length s)) s with
  | Some (v, tail) => match skip_ws tail with [] => Some v | _ => None end
  | None => None
  end.

End Json.

(* ===================================================================== *)
(** * 4. Effects                                                          *)
(* ===================================================================== *)

(** What a [throw] carries: [error instanceof Error], [error.message] and
    [String(error)]. *)
Record thrown : Type := Thrown {
  is_Error : bool;
  message : jstring;
  as_string : jstring
}.

Definition Error (msg : string) : thrown :=
  Thrown true (lit msg) (lit "Error: " ++ lit msg).

(** [error instanceof Error ? error.message : fallback] *)
Definition message_or (error : thrown) (fallback : jstring) : jstring :=
  if is_Error error then message error else fallback.

(** [error instanceof Error ? error.message : String(error)] *)
Definition describe (error : thrown) : jstring :=
  message_or error (as_string error).

Inductive result (A : Type) : Type :=
| Ok (a : A)
| Throw (e : thrown).
Arguments Ok {A} a.
Arguments Throw {A} e.

(** Asynchronous code that may throw, over a state [S]. *)
Definition M (S A : Type) : Type := S -> result A * S.

Definition ret {S A} (a : A) : M S A := fun s => (Ok a, s).
Definition throw {S A} (e : thrown) : M S A := fun s => (Throw e, s).
Definition bind {S A B} (c : M S A) (k : A -> M S B) : M S B :=
  fun s =>
    match c s with
    | (Ok a, s') => k a s'
    | (Throw e, s') => (Throw e, s')
    end.
Definition try_catch {S A} (c : M S A) (h : thrown -> M S A) : M S A :=
  fun s =>
    match c s with
    | (Ok a, s') => (Ok a, s')
    | (Throw e, s') => h e s'
    end.
Definition get_state {S} : M S S := fun s => (Ok s, s).
Definition modify {S} (f : S -> S) : M S unit := fun s => (Ok tt, f s).

Notation "'let!' x ':=' c 'in' k" := (bind c (fun x => k))
  (at level 10, x name, c at level 100, k at level 200).
Notation "c ;;; k" := (bind c (fun _ => k))
  (at level 100, k at level 200, right associativity).

(* ===================================================================== *)
(** * 5. The agent action protocol (src/core/actions.ts)                  *)
(* ===================================================================== *)

Inductive AgentAction : Type :=
| Shell (command : jstring) (timeoutMs : option number)
| InstallSkill (name content : jstring)
| Integration (app action : jstring) (params : option (list (jstring * json))).

Definition action_type (a : AgentAction) : jstring :=
  match a with
  | Shell _ _ => lit "shell"
  | InstallSkill _ _ => lit "install_skill"
  | Integration _ _ _ => lit "integration"
  end.

Record ActionResult : Type := mkResult {
  ar_action : AgentAction;
  ok : bool;
  output : jstring
}.

Definition safeJsonParse (value : jstring) : json :=
  match Json.parse value with
  | Some v => v
  | None => JNull
  end.

(** The extraction pattern: the marker, [\s*], a lazy capture of anything,
    the closing fence. *)
Definition action_pattern : Re.regex :=
  Re.seq [Re.txt "```gnami-action"; Re.star Re.ws;
          Re.Grp 1 (Re.lazy_star Re.any); Re.txt "```"].

(** The strip pattern: the marker, anything (lazy), the closing fence. *)
Definition strip_pattern : Re.regex :=
  Re.seq [Re.txt "```gnami-action"; Re.lazy_star Re.any; Re.txt "```"].

Definition is_str (v : option json) (s : string) : bool :=
  match v with
  | Some (JStr x) => jstr_eqb x (lit s)
  | _ => false
  end.

(** [match[1]] of a match of the extraction pattern: the body of the block. *)
Definition block_body (f : Re.found) : jstring := default [] (Re.group f 1).

(** The body of the [while] loop: what one match pushes. *)
Definition block_pushes (f : Re.found) : list AgentAction :=
  let payload := safeJsonParse (Js.trim (block_body f)) in
  if Json.falsy payload || negb (Json.is_object payload) then []
  else
    let record := payload in
    (if is_str (Json.get record "type") "shell" then
       match Json.get record "command" with
       | Some (JStr command) =>
           [Shell command
              match Json.get record "timeoutMs" with
              | Some (JNum n) => Some n
              | _ => None
              end]
       | _ => []
       end
     else [])
    ++
    (if is_str (Json.get record "type") "install_skill" then
       match Json.get record "name", Json.get record "content" with
       | Some (JStr name), Some (JStr content) => [InstallSkill name content]
       | _, _ => []
       end
     else [])
    ++
    (if is_str (Json.get record "type") "integration" then
       match Json.get record "app", Json.get record "action" with
       | Some (JStr app), Some (JStr action) =>
           [Integration app action
              match Json.get record "params" with
              | Some (JObj ms) => Some ms
              | _ => None
              end]
       | _, _ => []
       end
     else []).

Fixpoint parse_loop (actions : list AgentAction) (matches : list Re.found)
  : list AgentAction :=
  match matches with
  | [] => actions
  | f :: rest => parse_loop (actions ++ block_pushes f) rest
  end.

Definition parseAgentActions (text : jstring) : list AgentAction :=
  parse_loop [] (Re.exec_all Re.plain action_pattern text).

(** The well-formed blocks in the words of the specification: the body
    parses as a JSON object of a known variant, shell with a string
    command, install_skill with a string name and a string content, or
    integration with a string app and a string action.  The result is the
    action the block asks for. *)
Definition well_formed_block (body : jstring) : option AgentAction :=
  match Json.parse (Js.trim body) with
  | Some (JObj ms) =>
      match Json.lookup_last (lit "type") ms with
      | Some (JStr t) =>
          if jstr_eqb t (lit "shell") then
            match Json.lookup_last (lit "command") ms with
            | Some (JStr command) =>
                Some (Shell command
                        match Json.lookup_last (lit "timeoutMs") ms with
                        | Some (JNum n) => Some n
                        | _ => None
                        end)
            | _ => None
            end
          else if jstr_eqb t (lit "install_skill") then
            match Json.lookup_last (lit "name") ms, Json.lookup_last (lit "content") ms with
            | Some (JStr name), Some (JStr content) => Some (InstallSkill name content)
            | _, _ => None
            end
          else if jstr_eqb t (lit "integration") then
            match Json.lookup_last (lit "app") ms, Json.lookup_last (lit "action") ms with
            | Some (JStr app), Some (JStr action) =>
                Some (Integration app action
                        match Json.lookup_last (lit "params") ms with
                        | Some (JObj ps) => Some ps
                        | _ => None
                        end)
            | _, _ => None
            end
          else None
      | _ => None
      end
  | _ => None
  end.

Definition stripAgentActions (text : jstring) : jstring :=
  Js.trim (Re.replace_all Re.plain strip_pattern [] text).

(** The opening marker and the fence of an action block. *)
Definition opener : jstring := lit "```gnami-action".
Definition fence : jstring := lit "```".

(** The text holds a block: the marker, and a closing fence after it. *)
Definition has_block (s : jstring) : Prop :=
  exists pre body post, s = pre ++ opener ++ body ++ fence ++ post.

(** The text starts with a block. *)
Definition block_here (s : jstring) : Prop :=
  exists body post, s = opener ++ body ++ fence ++ post.

(** Text without a backtick. *)
Definition plain_text (s : jstring) : bool := forallb (fun c => negb (N.eqb c 96)) s.

(** A model answer written block by block: each block after some text,
    with [tail] at the end. *)
Fixpoint render (segs : list (jstring * jstring)) (tail : jstring) : jstring :=
  match segs with
  | [] => tail
  | (sep, body) :: rest => sep ++ opener ++ body ++ fence ++ render rest tail
  end.

(** The answer is written from text and bodies without backticks. *)
Definition well_fenced (segs : list (jstring * jstring)) (tail : jstring) : bool :=
  forallb (fun sb => plain_text sb.1 && plain_text sb.2) segs && plain_text tail.

(** The pieces of text that [stripAgentActions] keeps in front of the
    blocks it removes, in order. *)
Definition kept_before (text : jstring) : list jstring :=
  map Re.before (Re.scan (length text) Re.plain strip_pattern None text).1.

(** The piece ends with a beginning of the marker: one to fourteen of its
    fifteen characters. *)
Definition ends_with (s p : jstring) : bool := Js.startsWith (rev s) (rev p).
Definition ends_with_partial_marker (g : jstring) : bool :=
  existsb (fun n => ends_with g (take n opener)) (seq 1 14).

(** No kept piece in front of a removed block ends inside a marker. *)
Definition clean_joins (text : jstring) : bool :=
  forallb (fun g => negb (ends_with_partial_marker g)) (kept_before text).

(** The capabilities the action executors and the turn handler consume,
    over the state [E] of everything outside the process memory: files,
    child processes, the network, the clock. *)
Class Collaborators (E : Type) : Type := {
  (** [new Date().toISOString()] *)
  now : E -> jstring;
  (** [randomInt(min, max)] of node:crypto *)
  randomInt : N -> N -> E -> N * E;
  (** [execShell(command, timeoutMs)]: spawn, collect, kill on expiry *)
  execShell : jstring -> number -> M E jstring;
  (** skills.ts *)
  installSkill : jstring -> jstring -> M E jstring;
  hasSkill : jstring -> M E bool;
  (** [integrations.exec({app, action, params})] *)
  integrations_exec : jstring -> jstring -> option (list (jstring * json)) -> M E json;
  (** [JSON.stringify] *)
  JSON_stringify : json -> jstring;
  (** memory.ts; the writes return [write.backend] *)
  memory_getContext : jstring -> jstring -> jstring -> M E jstring;
  memory_addConversationMemory : jstring -> jstring -> jstring -> M E jstring;
  memory_addSkillMemory : jstring -> jstring -> jstring -> M E jstring;
  memory_findSkill : jstring -> jstring -> M E (option jstring);
  (** workspace.ts *)
  readWorkspaceDoc : jstring -> M E jstring;
  writeWorkspaceDoc : jstring -> jstring -> M E unit;
  resolveAssistantName : option jstring -> M E jstring;
  buildWorkspaceContext : M E jstring;
  (** [saveConfig(config)], given the assistant name it now holds *)
  saveConfig : option jstring -> M E unit;
}.

Section Execute.
Context {E : Type} `{Collaborators E}.

(** The [try] block for one action. *)
Definition attempt (integrations : bool) (action : AgentAction) : M E ActionResult :=
  match action with
  | Shell command timeoutMs =>
      let! output := execShell command (default (Number 60000 0) timeoutMs) in
      ret (mkResult action true output)
  | InstallSkill name content =>
      let! skillId := installSkill name content in
      ret (mkResult action true (lit "Installed skill: " ++ skillId))
  | Integration app act params =>
      if negb integrations
      then throw (Error "Integration runtime is not available.")
      else
        let! r := integrations_exec app act params in
        ret (mkResult action true (JSON_stringify r))
  end.

(** One iteration: the [try] block and its [catch]. *)
Definition run_action (integrations : bool) (action : AgentAction) : M E ActionResult :=
  try_catch (attempt integrations action)
    (fun error =>
       ret (mkResult action false (describe error))).

Fixpoint execute_loop (integrations : bool) (results : list ActionResult)
  (actions : list AgentAction) : M E (list ActionResult) :=
  match actions with
  | [] => ret results
  | action :: rest =>
      let! r := run_action integrations action in
      execute_loop integrations (results ++ [r]) rest
  end.

Definition executeAgentActions (actions : list AgentAction) (integrations : bool)
  : M E (list ActionResult) :=
  execute_loop integrations [] actions.

End Execute.

(* ===================================================================== *)
(** * 6. The store (src/core/store.ts)                                    *)
(* ===================================================================== *)

Inductive ChannelName : Type := webchat | telegram.

#[global] Instance ChannelName_eq_dec : EqDecision ChannelName.
Proof. solve_decision. Defined.

#[global] Instance ChannelName_countable : Countable ChannelName.
Proof.
  refine (inj_countable' (fun c => match c with webchat => false | telegram => true end)
            (fun b => if b then telegram else webchat) _).
  intros []; reflexivity.
Defined.

Definition channel_name (c : ChannelName) : jstring :=
  match c with
  | webchat => lit "webchat"
  | telegram => lit "telegram"
  end.

Inductive Direction : Type := inbound | outbound.

(** A row of [pairings], without its key columns (channel, sender_id). *)
Record PairingRow : Type := mkPairing {
  approved : bool;
  code : jstring;
  p_createdAt : jstring
}.

Record SessionRecord : Type := mkSession {
  s_id : N;
  s_channel : ChannelName;
  s_senderId : jstring;
  createdAt : jstring;
  updatedAt : jstring
}.

Record MessageRecord : Type := mkMessage {
  m_id : N;
  sessionId : N;
  direction : Direction;
  content : jstring;
  m_createdAt : jstring
}.

Inductive MemoryStatus : Type := saved | failed.

Record MemoryEvent : Type := mkEvent {
  session_key : jstring;
  status : MemoryStatus;
  detail : option jstring;
  e_createdAt : jstring
}.

(** The database: [pairings] by its primary key, the other tables as their
    rows in rowid order with the AUTOINCREMENT counters. *)
Record Store : Type := mkStore {
  pairings : gmap (ChannelName * jstring) PairingRow;
  sessions : list SessionRecord;
  sessions_seq : N;
  messages : list MessageRecord;
  messages_seq : N;
  memory_events : list MemoryEvent
}.

Module StoreOps.

Definition set_pairings (f : gmap (ChannelName * jstring) PairingRow ->
                             gmap (ChannelName * jstring) PairingRow) (st : Store) : Store :=
  mkStore (f (pairings st)) (sessions st) (sessions_seq st) (messages st)
          (messages_seq st) (memory_events st).

(** [upsertPairing]: [fresh] is the code [generatePairingCode] drew and
    [ts] the time, both used only when the row is new. *)
Definition upsertPairing (channel : ChannelName) (senderId : jstring)
  (fresh ts : jstring) (st : Store) : (bool * jstring) * Store :=
  match pairings st !! (channel, senderId) with
  | Some existing => ((approved existing, code existing), st)
  | None =>
      ((false, fresh),
       set_pairings (insert (channel, senderId) (mkPairing false fresh ts)) st)
  end.

(** The WHERE clause of [approvePairing]. *)
Definition approve_matches (channel : ChannelName) (c : jstring)
  (key : ChannelName * jstring) (row : PairingRow) : bool :=
  bool_decide (key.1 = channel) && jstr_eqb (code row) c.

Definition approve_row (channel : ChannelName) (c : jstring)
  (key : ChannelName * jstring) (row : PairingRow) : PairingRow :=
  if approve_matches channel c key row
  then mkPairing true (code row) (p_createdAt row)
  else row.

(** [result.changes]: the number of rows the UPDATE matched. *)
Definition approve_changes (channel : ChannelName) (c : jstring) (st : Store) : nat :=
  length (filter (fun kv => approve_matches channel c kv.1 kv.2 = true)
            (map_to_list (pairings st))).

Definition approvePairing (channel : ChannelName) (c : jstring) (st : Store)
  : bool * Store :=
  (bool_decide (0 < approve_changes channel c st),
   set_pairings (map_imap (fun k row => Some (approve_row channel c k row))) st).

Definition session_is (channel : ChannelName) (senderId : jstring)
  (r : SessionRecord) : bool :=
  bool_decide (s_channel r = channel) && jstr_eqb (s_senderId r) senderId.

Definition find_session (channel : ChannelName) (senderId : jstring) (st : Store)
  : option SessionRecord :=
  snd <$> list_find (fun r => session_is channel senderId r = true) (sessions st).

Definition touch (channel : ChannelName) (senderId : jstring) (ts : jstring)
  (r : SessionRecord) : SessionRecord :=
  if session_is channel senderId r
  then mkSession (s_id r) (s_channel r) (s_senderId r) (createdAt r) ts
  else r.

(** [getOrCreateSession]: INSERT OR IGNORE, else UPDATE updated_at and
    SELECT id.  The INSERT draws the next rowid from the AUTOINCREMENT
    counter before the UNIQUE constraint is checked, so the counter
    advances also when the row is ignored. *)
Definition getOrCreateSession (channel : ChannelName) (senderId : jstring)
  (ts : jstring) (st : Store) : result N * Store :=
  let id := (sessions_seq st + 1)%N in
  match find_session channel senderId st with
  | None =>
      (Ok id,
       mkStore (pairings st)
         (sessions st ++ [mkSession id channel senderId ts ts]) id
         (messages st) (messages_seq st) (memory_events st))
  | Some _ =>
      let st' :=
        mkStore (pairings st) (map (touch channel senderId ts) (sessions st))
          id (messages st) (messages_seq st) (memory_events st) in
      match find_session channel senderId st' with
      | Some row => (Ok (s_id row), st')
      | None => (Throw (Error "Failed to resolve session"), st')
      end
  end.

(** FOREIGN KEY (session_id) REFERENCES sessions(id). *)
Definition has_session (sid : N) (st : Store) : bool :=
  existsb (fun r => N.eqb (s_id r) sid) (sessions st).

(** What the driver throws when the INSERT breaks the constraint. *)
Definition foreign_key_failed : thrown :=
  Thrown true (lit "FOREIGN KEY constraint failed")
    (lit "SqliteError: FOREIGN KEY constraint failed").

(** [addMessage]: the content is kept as the TEXT column stores it; an
    INSERT for a session id without a row fails and changes nothing. *)
Definition addMessage (sid : N) (d : Direction) (text ts : jstring) (st : Store)
  : result N * Store :=
  if has_session sid st then
    let id := (messages_seq st + 1)%N in
    (Ok id,
     mkStore (pairings st) (sessions st) (sessions_seq st)
       (messages st ++ [mkMessage id sid d (Utf8.stored text) ts]) id (memory_events st))
  else (Throw foreign_key_failed, st).

(** ORDER BY id DESC LIMIT ?, reversed. *)
Definition getRecentMessages (sid : N) (limit : nat) (st : Store) : list MessageRecord :=
  rev (take limit (rev (filter (fun r => sessionId r = sid) (messages st)))).

Definition addMemoryEvent (key : jstring) (stt : MemoryStatus) (d : option jstring)
  (ts : jstring) (st : Store) : Store :=
  mkStore (pairings st) (sessions st) (sessions_seq st) (messages st)
    (messages_seq st)
    (memory_events st ++ [mkEvent (Utf8.stored key) stt (Utf8.stored <$> d) ts]).

End StoreOps.

(** [runPairingApprove] (src/commands/pairing.ts): what it writes to the
    standard output, or the error it throws. *)
Definition runPairingApprove (channel : ChannelName) (c : jstring) : M Store jstring :=
  fun st =>
    let '(ok, st') := StoreOps.approvePairing channel c st in
    if negb ok
    then (Throw (Error "No pending pairing found for that channel/code."), st')
    else (Ok (lit "Pairing approved." ++ [10%N]), st').

(* ===================================================================== *)
(** * 7. Persona bootstrap (src/gateway/server.ts)                        *)
(* ===================================================================== *)

Module Persona.
Import Re.

Definition nl : char := 10%N.
Definition cr : char := 13%N.

(** [a-z0-9 _-] *)
Definition name_chars : regex :=
  Cls false [CRng 97 122; CRng 48 57; CChr 32; CChr 95; CChr 45].

Definition sp1 : regex := plus ws.
Definition sp0 : regex := star ws.

(** [c'?est], [m'?appelle], ... : an optional apostrophe. *)
Definition apos : regex := opt (Chr 39).

Definition isIdentityQuestion (text : jstring) : bool :=
  test fl_i
    (seq [WordB;
          Grp 1 (alt [txt "who are you"; txt "what are you"; txt "your name";
                      txt "who am i talking to"]);
          WordB]) text.

Definition generic_identity (assistantName : jstring) : jstring :=
  lit "I am " ++ assistantName
  ++ lit ", your local-first personal assistant running on this computer.".

Definition soulToIdentityReply (soulDoc assistantName : jstring) : jstring :=
  let cleaned :=
    Js.trim (replace1 fl_im (seq [Bol; Chr 35; sp0; txt "SOUL"; sp0; Eol]) [] soulDoc) in
  if negb (Js.truthy cleaned) then generic_identity assistantName
  else
    let firstParagraph :=
      Js.trim <$> head (split plain (seq [Chr nl; sp0; Chr nl]) cleaned) in
    match firstParagraph with
    | Some (c :: p) => c :: p
    | _ => generic_identity assistantName
    end.

Record PersonaFields : Type := mkPersona {
  assistantName : option jstring;
  userName : option jstring;
  language : option jstring
}.

(** Truthiness of an optional string field: set and not empty. *)
Definition has (f : option jstring) : bool :=
  match f with Some (_ :: _) => true | _ => false end.

(** [a || b] on optional strings. *)
Definition or_str (a b : option jstring) : option jstring :=
  if has a then a else b.

(** [text.match(re)?.[1]?.trim()] *)
Definition match_trim (fl : flags) (r : regex) (text : jstring) : option jstring :=
  match match1 fl r text with
  | Some f => Js.trim <$> group f 1
  | None => None
  end.

Definition not_eol : regex := Cls true [CChr nl; CChr cr].

Section WithCollaborators.
Context {E : Type} `{Collaborators E}.

(** [Required<PersonaFields>]: userName and language are the empty string
    when MEMORY.md does not give them. *)
Definition readPersona (defaultAssistantName : jstring) : M E PersonaFields :=
  let! memoryDoc := readWorkspaceDoc (lit "MEMORY.md") in
  let! soulDoc := readWorkspaceDoc (lit "SOUL.md") in
  let assistantFromMemory :=
    match_trim fl_i
      (seq [txt "assistant"; sp0; txt "name"; sp0; Chr 58; sp0; Grp 1 (plus not_eol)])
      memoryDoc in
  let assistantFromSoul :=
    match_trim fl_i
      (seq [txt "you are"; sp1; Grp 1 (plus (Cls true [CChr nl; CChr cr; CChr 46]))])
      soulDoc in
  let user :=
    match_trim fl_i
      (seq [txt "user"; sp0; txt "name"; sp0; Chr 58; sp0; Grp 1 (plus not_eol)])
      memoryDoc in
  let lang :=
    match_trim fl_i
      (seq [txt "preferred"; sp0; txt "language"; sp0; Chr 58; sp0; Grp 1 (plus not_eol)])
      memoryDoc in
  ret (mkPersona
         (or_str assistantFromMemory (or_str assistantFromSoul (Some defaultAssistantName)))
         (or_str user (Some []))
         (or_str lang (Some []))).

End WithCollaborators.

(** The key/value pattern of [parsePersonaInput]. *)
Definition pairRegex : regex :=
  seq [alt [Bol; Cls false [CChr 59; CChr 44; CChr nl]]; sp0;
       Grp 1 (alt [txt "assistant"; txt "assistant_name"; txt "bot"; txt "bot_name";
                   txt "language"; txt "lang"; txt "user"; txt "user_name"]);
       sp0; Cls false [CChr 58; CChr 61]; sp0;
       Grp 2 (plus (Cls true [CChr 59; CChr 44; CChr nl]))].

Fixpoint pair_loop (parsed : PersonaFields) (matches : list found) : PersonaFields :=
  match matches with
  | [] => parsed
  | f :: rest =>
      let key := Js.toLowerCase (default [] (group f 1)) in
      let value := Js.trim (default [] (group f 2)) in
      if negb (Js.truthy value) then pair_loop parsed rest
      else if Js.includes key (lit "assistant") || Js.includes key (lit "bot")
      then pair_loop (mkPersona (Some value) (userName parsed) (language parsed)) rest
      else if Js.includes key (lit "lang")
      then pair_loop (mkPersona (assistantName parsed) (userName parsed) (Some value)) rest
      else if Js.includes key (lit "user")
      then pair_loop (mkPersona (assistantName parsed) (Some value) (language parsed)) rest
      else pair_loop parsed rest
  end.

Definition looksLikeUser (value : jstring) : bool :=
  test fl_i
    (seq [alt [seq [txt "my"; sp1; txt "name"]; seq [txt "i"; sp1; txt "am"];
               seq [txt "mon"; sp1; txt "nom"]; seq [txt "m"; apos; txt "appelle"];
               seq [txt "c"; apos; txt "est"]];
          WordB]) value.

Definition looksLikeLang (value : jstring) : bool :=
  test fl_i
    (alt [seq [txt "fran"; Cls false [CChr 99; CChr 231]; txt "ais"];
          txt "english"; txt "spanish";
          seq [txt "qu"; Cls false [CChr 101; CChr 233]; txt "b";
               Cls false [CChr 101; CChr 233]; txt "cois"];
          seq [txt "lang"; opt (txt "uage")];
          seq [txt "je"; sp1; txt "parle"]]) value.

(** [chunk.replace(/[^\w _-]/g, "")] *)
Definition keep_name_chars (chunk : jstring) : jstring :=
  replace_all plain (Cls true [CWord; CChr 32; CChr 95; CChr 45]) [] chunk.

(** [if (!parsed.x && phrase) parsed.x = phrase] *)
Definition fill (current phrase : option jstring) : option jstring :=
  if negb (has current) && has phrase then phrase else current.

Definition parsePersonaInput (text : jstring) : PersonaFields :=
  let parsed := pair_loop (mkPersona None None None) (exec_all fl_i pairRegex text) in
  let grab lead lo hi :=
    match_trim fl_i (seq [lead; sp1; Grp 1 (between lo hi name_chars)]) text in
  let assistantPhrase :=
    grab (alt [seq [txt "call"; sp1; txt "you"];
               seq [txt "your"; sp1; txt "name"; sp1; txt "is"]]) 2 40 in
  let parsed := mkPersona (fill (assistantName parsed) assistantPhrase)
                  (userName parsed) (language parsed) in
  let userPhrase :=
    grab (alt [seq [txt "my"; sp1; txt "name"; sp1; txt "is"];
               seq [txt "i"; sp1; txt "am"]]) 2 40 in
  let parsed := mkPersona (assistantName parsed) (fill (userName parsed) userPhrase)
                  (language parsed) in
  let langPhrase :=
    grab (alt [seq [txt "language"; sp0; opt (txt "is")];
               seq [txt "i"; sp0; txt "speak"]]) 2 40 in
  let parsed := mkPersona (assistantName parsed) (userName parsed)
                  (fill (language parsed) langPhrase) in
  (* French natural phrasing support. *)
  let assistantFr :=
    grab (alt [seq [txt "tu"; sp1; txt "t"; apos; txt "appelles"];
               seq [txt "appelle"; opt (Cls false [CChr 45; CSpace]); txt "toi"];
               seq [txt "ton"; sp1; txt "nom"; sp1; txt "est"]]) 2 40 in
  let parsed := mkPersona (fill (assistantName parsed) assistantFr)
                  (userName parsed) (language parsed) in
  let userFr :=
    grab (alt [seq [txt "mon"; sp1; txt "nom"; sp1; txt "c"; apos; txt "est"];
               seq [txt "je"; sp1; txt "m"; apos; txt "appelle"]]) 2 40 in
  let parsed := mkPersona (assistantName parsed) (fill (userName parsed) userFr)
                  (language parsed) in
  let langFr :=
    match_trim fl_i
      (seq [alt [txt "langue"; seq [txt "je"; sp1; txt "parle"]]; sp0;
            opt (alt [txt "est"; Chr 58]); sp0; Grp 1 (between 2 60 name_chars)]) text in
  let parsed := mkPersona (assistantName parsed) (userName parsed)
                  (fill (language parsed) langFr) in
  (* Free speech patterns: comma or newline separated chunks. *)
  if negb (has (assistantName parsed)) || negb (has (language parsed))
     || negb (has (userName parsed))
  then
    let chunks :=
      filter (fun part => Js.truthy part = true)
        (map Js.trim (split plain (plus (Cls false [CChr 44; CChr nl])) text)) in
    if bool_decide (2 <= length chunks) then
      let parsed :=
        if negb (has (userName parsed)) then
          match snd <$> list_find (fun chunk => looksLikeUser chunk = true) chunks with
          | Some rawUser =>
              let stripped :=
                Js.trim
                  (replace1 fl_i
                     (seq [Bol;
                           alt [seq [txt "my"; sp1; txt "name"; sp1; txt "is"];
                                seq [txt "i"; sp1; txt "am"];
                                seq [txt "mon"; sp1; txt "nom"; sp1; txt "c"; apos; txt "est"];
                                seq [txt "je"; sp1; txt "m"; apos; txt "appelle"]];
                           sp1]) [] rawUser) in
              mkPersona (assistantName parsed) (or_str (Some stripped) (userName parsed))
                (language parsed)
          | None => parsed
          end
        else parsed in
      let parsed :=
        if negb (has (language parsed)) then
          match snd <$> list_find (fun chunk => looksLikeLang chunk = true) chunks with
          | Some rawLang =>
              mkPersona (assistantName parsed) (userName parsed)
                (Some (Js.trim
                         (replace1 fl_i
                            (seq [Bol;
                                  alt [seq [txt "language"; sp0; opt (txt "is")];
                                       seq [txt "lang"; opt (txt "ue"); sp0; opt (txt "est")];
                                       seq [txt "je"; sp1; txt "parle"]];
                                  sp1]) [] rawLang)))
          | None => parsed
          end
        else parsed in
      let parsed :=
        if negb (has (assistantName parsed)) then
          match snd <$> list_find
                  (fun chunk => negb (looksLikeUser chunk) && negb (looksLikeLang chunk) = true)
                  chunks with
          | Some candidate =>
              if bool_decide (length candidate <= 40)
              then mkPersona (Some (Js.trim (keep_name_chars candidate)))
                     (userName parsed) (language parsed)
              else parsed
          | None => parsed
          end
        else parsed in
      if negb (has (userName parsed)) then
        let remaining :=
          filter
            (fun chunk =>
               let normalized := Js.trim (keep_name_chars chunk) in
               (if negb (Js.truthy normalized) then false
                else if has (assistantName parsed)
                        && jstr_eqb (Js.toLowerCase normalized)
                             (Js.toLowerCase (default [] (assistantName parsed)))
                then false
                else if looksLikeLang chunk then false
                else true) = true) chunks in
        match last remaining with
        | Some (c :: fallbackUser) =>
            mkPersona (assistantName parsed)
              (Some (Js.trim (keep_name_chars (c :: fallbackUser)))) (language parsed)
        | _ => parsed
        end
      else parsed
    else parsed
  else parsed.

End Persona.

(* ===================================================================== *)
(** * 8. The turn handler (src/gateway/server.ts)                         *)
(* ===================================================================== *)

(** [`${n}`] for a non-negative integer. *)
Definition decimal (n : N) : jstring := lit (NilZero.string_of_uint (N.to_uint n)).

Inductive Thinking : Type := low | medium | high.

Record AgentRequest : Type := mkRequest {
  input : jstring;
  history : list MessageRecord;
  thinking : Thinking;
  memoryContext : option jstring
}.

Record InboundMessage : Type := mkInbound {
  channel : ChannelName;
  senderId : jstring;
  msg_content : jstring
}.

(** What a turn can change: the database, the assistant name held by the
    loaded configuration, the texts the turn handed to [message.reply],
    and everything outside the process. *)
Record World (E : Type) : Type := mkWorld {
  store : Store;
  config_assistantName : option jstring;
  replies : list jstring;
  ext : E
}.
Arguments mkWorld {E}.
Arguments store {E}.
Arguments config_assistantName {E}.
Arguments replies {E}.
Arguments ext {E}.

Section Gateway.
Context {E : Type} `{Collaborators E}.

(** The model provider, [agent.respond]. *)
Variable respond : AgentRequest -> M E jstring.

Definition outside {A} (c : M E A) : M (World E) A :=
  fun w =>
    let '(r, e) := c (ext w) in
    (r, mkWorld (store w) (config_assistantName w) (replies w) e).

Definition with_store {A} (f : jstring -> Store -> A * Store) : M (World E) A :=
  fun w =>
    let '(a, st) := f (now (ext w)) (store w) in
    (Ok a, mkWorld st (config_assistantName w) (replies w) (ext w)).

(** [message.reply(text)] on a channel that takes the text: what the turn
    says is recorded; a channel that refuses a reply is not modelled. *)
Definition reply (text : jstring) : M (World E) unit :=
  modify (fun w => mkWorld (store w) (config_assistantName w) (replies w ++ [text]) (ext w)).

Definition generatePairingCode : M (World E) jstring :=
  let! n := outside (fun e => let '(n, e') := randomInt 100000 999999 e in (Ok n, e')) in
  ret (decimal n).

Definition upsertPairing (ch : ChannelName) (sender : jstring) : M (World E) (bool * jstring) :=
  let! w := get_state in
  match pairings (store w) !! (ch, sender) with
  | Some existing => ret (approved existing, code existing)
  | None =>
      let! fresh := generatePairingCode in
      with_store (StoreOps.upsertPairing ch sender fresh)
  end.

Definition getOrCreateSession (ch : ChannelName) (sender : jstring) : M (World E) N :=
  fun w =>
    let '(r, st) := StoreOps.getOrCreateSession ch sender (now (ext w)) (store w) in
    (r, mkWorld st (config_assistantName w) (replies w) (ext w)).

Definition addMessage (sid : N) (d : Direction) (text : jstring) : M (World E) N :=
  fun w =>
    let '(r, st) := StoreOps.addMessage sid d text (now (ext w)) (store w) in
    (r, mkWorld st (config_assistantName w) (replies w) (ext w)).

Definition getRecentMessages (sid : N) (limit : nat) : M (World E) (list MessageRecord) :=
  let! w := get_state in ret (StoreOps.getRecentMessages sid limit (store w)).

Definition addMemoryEvent (key : jstring) (st : MemoryStatus) (d : jstring)
  : M (World E) unit :=
  with_store (fun ts s => (tt, StoreOps.addMemoryEvent key st (Some d) ts s)).

Definition config_name : M (World E) (option jstring) :=
  let! w := get_state in ret (config_assistantName w).

Definition set_config_name (n : jstring) : M (World E) unit :=
  modify (fun w => mkWorld (store w) (Some n) (replies w) (ext w)).

(** [upsertLine(doc, key, value)] *)
Definition upsertLine (doc : jstring) (key : string) (value : jstring) : jstring :=
  let re := Re.seq [Re.Bol; Re.txt key; Re.Chr 58; Re.star Re.ws; Re.star Re.Dot; Re.Eol] in
  if Re.test Re.fl_im re doc
  then Re.replace1 Re.fl_im re (lit key ++ lit ": " ++ value) doc
  else Js.trimEnd doc ++ [Persona.nl] ++ lit "- " ++ lit key ++ lit ": " ++ value
       ++ [Persona.nl].

(** [x?.trim() || y] *)
Definition trimmed_or (x : option jstring) (y : option jstring) : option jstring :=
  Persona.or_str (Js.trim <$> x) y.

Definition applyPersonaSetup (updates : Persona.PersonaFields)
  : M (World E) Persona.PersonaFields :=
  let! memoryDoc := outside (readWorkspaceDoc (lit "MEMORY.md")) in
  let! soulDoc := outside (readWorkspaceDoc (lit "SOUL.md")) in
  let! cfg := config_name in
  let! current := outside (Persona.readPersona (default (lit "GnamiBot") cfg)) in
  let next :=
    Persona.mkPersona
      (trimmed_or (Persona.assistantName updates) (Persona.assistantName current))
      (trimmed_or (Persona.userName updates) (Persona.userName current))
      (trimmed_or (Persona.language updates) (Persona.language current)) in
  let next_name := default [] (Persona.assistantName next) in
  let memoryDoc := upsertLine memoryDoc "Assistant name" next_name in
  let memoryDoc :=
    if Persona.has (Persona.userName next)
    then upsertLine memoryDoc "User name" (default [] (Persona.userName next))
    else memoryDoc in
  let memoryDoc :=
    if Persona.has (Persona.language next)
    then upsertLine memoryDoc "Preferred language" (default [] (Persona.language next))
    else memoryDoc in
  let soulDoc :=
    Re.replace1 Re.fl_i
      (Re.seq [Re.txt "You are "; Re.plus (Re.Cls true [Re.CChr 10; Re.CChr 13; Re.CChr 46]);
               Re.opt (Re.Chr 46)])
      (lit "You are " ++ next_name ++ lit ".") soulDoc in
  outside (writeWorkspaceDoc (lit "MEMORY.md") memoryDoc) ;;;
  outside (writeWorkspaceDoc (lit "SOUL.md") soulDoc) ;;;
  (if bool_decide (cfg = Some next_name) then ret tt
   else set_config_name next_name ;;; outside (saveConfig (Some next_name))) ;;;
  ret next.

Definition personaPrompt (persona : Persona.PersonaFields) : jstring :=
  let missing :=
    (if Persona.has (Persona.assistantName persona) then [] else [lit "assistant name"])
    ++ (if Persona.has (Persona.language persona) then [] else [lit "language"])
    ++ (if Persona.has (Persona.userName persona) then [] else [lit "your name"]) in
  match missing with
  | [] => []
  | _ =>
      lit "Before we start: what should I call myself, what language do you want, and what is your name?"
  end.

(** The best-effort memory write after a reply is known. *)
Definition remember (userScopedId user_text reply_text prefix : jstring) : M (World E) unit :=
  try_catch
    (let! backend := outside (memory_addConversationMemory userScopedId user_text reply_text) in
     addMemoryEvent userScopedId saved (prefix ++ lit "backend:" ++ backend))
    (fun error => addMemoryEvent userScopedId failed (prefix ++ describe error)).

(** The actions a turn runs: the first three extracted. *)
Definition turn_actions (firstPass : jstring) : list AgentAction :=
  take 3 (parseAgentActions firstPass).

Fixpoint summary_lines (index : N) (results : list ActionResult) : list jstring :=
  match results with
  | [] => []
  | r :: rest =>
      Js.join [Persona.nl]
        [lit "Action " ++ decimal (index + 1) ++ lit ": " ++ action_type (ar_action r);
         lit "Success: " ++ (if ok r then lit "yes" else lit "no");
         lit "Output: " ++ output r]
      :: summary_lines (index + 1) rest
  end.

Definition actionSummary (results : list ActionResult) : jstring :=
  Js.join [Persona.nl; Persona.nl] (summary_lines 0 results).

(** [a || b || c] on strings. *)
Definition first_truthy (a b c : jstring) : jstring :=
  if Js.truthy a then a else if Js.truthy b then b else c.

(** [history.slice(-8)], each entry as a line, joined by newlines. *)
Definition historyHint (hist : list MessageRecord) : jstring :=
  Js.join [Persona.nl]
    (map (fun entry =>
            (match direction entry with
             | inbound => lit "User"
             | outbound => lit "Assistant"
             end) ++ lit ": " ++ content entry)
       (drop (length hist - 8) hist)).

(** The two requests of the round trip. *)
Definition first_request (message : InboundMessage) (hist : list MessageRecord)
  (memoryCtx workspaceContext : jstring) : AgentRequest :=
  mkRequest
    (msg_content message ++ [Persona.nl; Persona.nl] ++ lit "Workspace context:"
     ++ [Persona.nl] ++ workspaceContext)
    hist medium (Some memoryCtx).

Definition second_request (message : InboundMessage) (hist : list MessageRecord)
  (memoryCtx workspaceContext : jstring) (actionResults : list ActionResult)
  : AgentRequest :=
  mkRequest
    (Js.join [Persona.nl]
       [lit "Original user request: " ++ msg_content message;
        lit "Actions were executed. Summarize outcome clearly and keep concise.";
        lit "Do not emit new gnami-action blocks in this answer.";
        [];
        actionSummary actionResults])
    hist medium
    (Some (Js.join [Persona.nl; Persona.nl]
             (filter (fun part => Js.truthy part = true) [memoryCtx; workspaceContext]))).

(** The default path: first pass, actions, second pass. *)
Definition round_trip (message : InboundMessage) (sid : N) (hist : list MessageRecord)
  (memoryCtx userScopedId : jstring) : M (World E) unit :=
  let! workspaceContext := outside buildWorkspaceContext in
  let! firstPass :=
    outside (respond (first_request message hist memoryCtx workspaceContext)) in
  let actions := turn_actions firstPass in
  let assistant := stripAgentActions firstPass in
  let! assistant :=
    match actions with
    | [] => ret assistant
    | _ :: _ =>
        let! actionResults := outside (executeAgentActions actions true) in
        let! secondPass :=
          outside (respond (second_request message hist memoryCtx workspaceContext
                              actionResults)) in
        ret (first_truthy (stripAgentActions secondPass) assistant (lit "Action completed."))
    end in
  addMessage sid outbound assistant ;;;
  remember userScopedId (msg_content message) assistant [] ;;;
  reply assistant.

(** The skill install command. *)
Definition skill_install (message : InboundMessage) (userScopedId : jstring)
  : M (World E) unit :=
  let lines := Js.split_lit [Persona.nl] (msg_content message) in
  let firstLine := default [] (head lines) in
  let skillName := Js.trim (Js.remove_first (lit "/skill install ") firstLine) in
  let skillContent := Js.trim (Js.join [Persona.nl] (tail lines)) in
  if negb (Js.truthy skillName) || negb (Js.truthy skillContent) then
    reply (lit "Usage: /skill install <name> followed by SKILL.md content on next lines.")
  else
    let! skillId := outside (installSkill skillName skillContent) in
    try_catch
      (let! backend :=
         outside (memory_addSkillMemory userScopedId skillName skillContent) in
       addMemoryEvent userScopedId saved
         (lit "skill:" ++ skillName ++ lit " backend:" ++ backend))
      (fun error =>
         addMemoryEvent userScopedId failed
           (lit "skill:" ++ skillName ++ lit " " ++ describe error)) ;;;
    reply (lit "Skill installed: " ++ skillId).

(** The skill restore command. *)
Definition skill_restore (message : InboundMessage) (userScopedId : jstring)
  : M (World E) unit :=
  let skillName := Js.trim (Js.remove_first (lit "/skill restore ") (msg_content message)) in
  if negb (Js.truthy skillName) then reply (lit "Usage: /skill restore <name>")
  else
    let! present := outside (hasSkill skillName) in
    if present then reply (lit "Skill already installed: " ++ skillName)
    else
      let! remembered := outside (memory_findSkill userScopedId skillName) in
      match remembered with
      | Some (c :: text) =>
          let! skillId := outside (installSkill skillName (c :: text)) in
          reply (lit "Skill restored from memory: " ++ skillId)
      | _ =>
          reply (lit "No remembered skill found for " ++ [34%N] ++ skillName
                 ++ [34%N] ++ lit ".")
      end.

(** The persona gate, entered when the user name or the language is
    missing. *)
Definition persona_gate (sid : N) (persona parsedPersona : Persona.PersonaFields)
  : M (World E) unit :=
  if negb (Persona.has (Persona.assistantName parsedPersona))
     && negb (Persona.has (Persona.userName parsedPersona))
     && negb (Persona.has (Persona.language parsedPersona)) then
    let prompt := personaPrompt persona in
    addMessage sid outbound prompt ;;; reply prompt
  else
    let! updated := applyPersonaSetup parsedPersona in
    if negb (Persona.has (Persona.userName updated))
       || negb (Persona.has (Persona.language updated)) then
      let prompt := personaPrompt updated in
      addMessage sid outbound prompt ;;; reply prompt
    else
      let intro :=
        lit "Setup complete. I am " ++ default [] (Persona.assistantName updated)
        ++ lit ". I will speak " ++ default [] (Persona.language updated)
        ++ lit ". Nice to meet you, " ++ default [] (Persona.userName updated)
        ++ lit "." in
      addMessage sid outbound intro ;;; reply intro.

(** The answer to an identity question. *)
Definition identity_reply (message : InboundMessage) (sid : N) (userScopedId : jstring)
  : M (World E) unit :=
  let! soulDoc := outside (readWorkspaceDoc (lit "SOUL.md")) in
  let! cfg := config_name in
  let! name := outside (resolveAssistantName cfg) in
  let identityReply := Persona.soulToIdentityReply soulDoc name in
  addMessage sid outbound identityReply ;;;
  remember userScopedId (msg_content message) identityReply (lit "identity-reply ") ;;;
  reply identityReply.

(** The turn once the session is known. *)
Definition in_session (message : InboundMessage) (userScopedId : jstring) (sid : N)
  : M (World E) unit :=
  addMessage sid inbound (msg_content message) ;;;
  let! hist := getRecentMessages sid 30 in
  let! memoryCtx :=
    outside (memory_getContext userScopedId (msg_content message) (historyHint hist)) in
  let! cfg := config_name in
  let! persona := outside (Persona.readPersona (default (lit "GnamiBot") cfg)) in
  let parsedPersona := Persona.parsePersonaInput (msg_content message) in
  if negb (Persona.has (Persona.userName persona))
     || negb (Persona.has (Persona.language persona))
  then persona_gate sid persona parsedPersona
  else if Persona.isIdentityQuestion (msg_content message)
  then identity_reply message sid userScopedId
  else round_trip message sid hist memoryCtx userScopedId.

(** The body of the [try] block of [handleInbound]. *)
Definition handle_body (message : InboundMessage) : M (World E) unit :=
  let! pairing := upsertPairing (channel message) (senderId message) in
  if negb pairing.1 then
    reply (lit "Pairing required. Approve with: gnamiai pairing approve "
           ++ channel_name (channel message) ++ lit " " ++ pairing.2)
  else
    let userScopedId := channel_name (channel message) ++ lit ":" ++ senderId message in
    if Js.startsWith (msg_content message) (lit "/skill install ")
    then skill_install message userScopedId
    else if Js.startsWith (msg_content message) (lit "/skill restore ")
    then skill_restore message userScopedId
    else
      let! sid := getOrCreateSession (channel message) (senderId message) in
      in_session message userScopedId sid.

Definition handleInbound (message : InboundMessage) : M (World E) unit :=
  try_catch (handle_body message)
    (fun error =>
       reply (lit "GnamiAI error: " ++ message_or error (lit "unknown runtime failure"))).

End Gateway.

(** The turn of an approved sender with a complete persona whose message
    is no skill command: the session is obtained, the inbound message is
    persisted, the memory context and the persona are read, and the
    persona gives a user name and a language.  [sid] is the session,
    [hist] and [memoryCtx] what the turn read, [w3] the world at that
    point. *)
Definition conversing {E : Type} `{Collaborators E} (message : InboundMessage)
  (w : World E) (sid : N) (hist : list MessageRecord) (memoryCtx : jstring)
  (w3 : World E) : Prop :=
  exists row st1 mid st2 e1 persona e2,
    pairings (store w) !! (channel message, senderId message) = Some row
    /\ approved row = true
    /\ Js.startsWith (msg_content message) (lit "/skill install ") = false
    /\ Js.startsWith (msg_content message) (lit "/skill restore ") = false
    /\ StoreOps.getOrCreateSession (channel message) (senderId message)
         (now (ext w)) (store w) = (Ok sid, st1)
    /\ StoreOps.addMessage sid inbound (msg_content message) (now (ext w)) st1
       = (Ok mid, st2)
    /\ hist = StoreOps.getRecentMessages sid 30 st2
    /\ memory_getContext
         (channel_name (channel message) ++ lit ":" ++ senderId message)
         (msg_content message) (historyHint hist) (ext w) = (Ok memoryCtx, e1)
    /\ Persona.readPersona (default (lit "GnamiBot") (config_assistantName w)) e1
       = (Ok persona, e2)
    /\ Persona.has (Persona.userName persona) = true
    /\ Persona.has (Persona.language persona) = true
    /\ w3 = mkWorld st2 (config_assistantName w) (replies w) e2.

(** A computation that leaves the [sessions] table as it found it. *)
Definition keeps_sessions {E A} (c : M (World E) A) : Prop :=
  forall w, sessions (store (c w).2) = sessions (store w).

(** What [getOrCreateSession] leaves in the table: a row of the sender,
    and every row of the sender stamped with the time given. *)
Definition refreshed (ch : ChannelName) (sender ts : jstring) (rows : list SessionRecord)
  : Prop :=
  (exists r, r ∈ rows /\ StoreOps.session_is ch sender r = true)
  /\ (forall r, r ∈ rows -> StoreOps.session_is ch sender r = true -> updatedAt r = ts).

(* ===================================================================== *)
(** * 9. The remote-debug session (src/integrations/adapters/browser.ts)  *)
(* ===================================================================== *)

Module Cdp.

(** How the promise of a command ended. *)
Inductive Outcome : Type :=
| Resolved (value : option json)
| Rejected (error : thrown).

Record Timer : Type := mkTimer {
  deadline : N;
  t_id : N;
  t_method : jstring
}.

(** The session object together with the event loop around it: the clock
    in milliseconds, the timers set and not yet run, and the promises
    already settled.  [pending] maps a command id to the promise its
    [resolve] and [reject] belong to. *)
Record CdpSession : Type := mkSession {
  ws : bool;
  id : N;
  pending : gmap N N;
  clock : N;
  timers : list Timer;
  promises : gmap N Outcome;
  sent : list jstring
}.

Definition create : CdpSession := mkSession false 0 ∅ 0 [] ∅ [].

(** The socket opened: [connect] resolved. *)
Definition connect (s : CdpSession) : CdpSession :=
  mkSession true (id s) (pending s) (clock s) (timers s) (promises s) (sent s).

(** Settling a promise a second time does nothing. *)
Definition settle (p : N) (o : Outcome) (ps : gmap N Outcome) : gmap N Outcome :=
  match ps !! p with
  | Some _ => ps
  | None => <[p := o]> ps
  end.

(** The key of [pending] a number is equal to: the integer it stands
    for, when it is a positive one. *)
Definition as_id (n : number) : option N :=
  match n with
  | Finite false m e =>
      if (0 <=? e)%Z then Some (Z.to_N (Zpos m * 2 ^ e))
      else if (Zpos m mod 2 ^ (- e) =? 0)%Z then Some (Z.to_N (Zpos m / 2 ^ (- e)))
      else None
  | _ => None
  end.

Section Session.
(** [String(value)] and [JSON.stringify(value)] of the runtime. *)
Variable to_String : json -> jstring.
Variable JSON_stringify : N -> jstring -> json -> jstring.

(** [new Error(payload.error.message ?? "CDP command failed.")] *)
Definition protocol_error (error : json) : thrown :=
  match Json.get error "message" with
  | None | Some JNull => Error "CDP command failed."
  | Some (JStr s) => Thrown true s (lit "Error: " ++ s)
  | Some v => Thrown true (to_String v) (lit "Error: " ++ to_String v)
  end.

(** The [message] listener installed by [connect]. *)
Definition on_message (raw : jstring) (s : CdpSession) : result unit * CdpSession :=
  match Json.parse raw with
  | None => (Throw (Thrown true (lit "Unexpected token") (lit "SyntaxError: Unexpected token")), s)
  | Some JNull =>
      (Throw (Thrown true (lit "Cannot read properties of null (reading 'id')")
                (lit "TypeError: Cannot read properties of null (reading 'id')")), s)
  | Some payload =>
      match Json.get payload "id" with
      | None => (Ok tt, s)
      | Some pid =>
          if Json.falsy pid then (Ok tt, s)
          else
            match (match pid with JNum n => as_id n | _ => None end) with
            | None => (Ok tt, s)
            | Some key =>
                match pending s !! key with
                | None => (Ok tt, s)
                | Some p =>
                    let outcome :=
                      match Json.get payload "error" with
                      | Some e =>
                          if Json.falsy e then Resolved (Json.get payload "result")
                          else Rejected (protocol_error e)
                      | None => Resolved (Json.get payload "result")
                      end in
                    (Ok tt,
                     mkSession (ws s) (id s) (delete key (pending s)) (clock s)
                       (timers s) (settle p outcome (promises s)) (sent s))
                end
            end
      end
  end.

(** [command(method, params)] up to its [await]: the id it took. *)
Definition command (method : jstring) (params : json) (s : CdpSession)
  : result N * CdpSession :=
  if negb (ws s) then (Throw (Error "CDP session not connected."), s)
  else
    let i := (id s + 1)%N in
    (Ok i,
     mkSession (ws s) i (<[i := i]> (pending s)) (clock s)
       (timers s ++ [mkTimer (clock s + 15000) i method])
       (promises s) (sent s ++ [JSON_stringify i method params])).

(** [new Error(`CDP command timed out: ${method}`)] *)
Definition timed_out (method : jstring) : thrown :=
  Thrown true (lit "CDP command timed out: " ++ method)
    (lit "Error: CDP command timed out: " ++ method).

(** The callback given to [setTimeout]. *)
Definition on_timeout (t : Timer) (s : CdpSession) : CdpSession :=
  match pending s !! t_id t with
  | Some p =>
      mkSession (ws s) (id s) (delete (t_id t) (pending s)) (clock s) (timers s)
        (settle p (Rejected (timed_out (t_method t))) (promises s))
        (sent s)
  | None => s
  end.

Definition due (now : N) (t : Timer) : bool := (deadline t <=? now)%N.

(** Time passes: the clock moves and the timers that came due run, in the
    order they were set. *)
Definition advance (dt : N) (s : CdpSession) : CdpSession :=
  let now := (clock s + dt)%N in
  let s' :=
    mkSession (ws s) (id s) (pending s) now
      (filter (fun t => due now t = false) (timers s)) (promises s) (sent s) in
  fold_left (fun acc t => on_timeout t acc)
    (filter (fun t => due now t = true) (timers s)) s'.

(** [close()] *)
Definition close (s : CdpSession) : CdpSession :=
  mkSession false (id s) ∅ (clock s) (timers s) (promises s) (sent s).

(** What can happen to a session between two of its own steps. *)
Inductive Event : Type :=
| EFrame (raw : jstring)
| ECommand (method : jstring) (params : json)
| EAdvance (dt : N)
| EClose.

Definition step (ev : Event) (s : CdpSession) : CdpSession :=
  match ev with
  | EFrame raw => snd (on_message raw s)
  | ECommand method params => snd (command method params s)
  | EAdvance dt => advance dt s
  | EClose => close s
  end.

Definition run (evs : list Event) (s : CdpSession) : CdpSession :=
  fold_left (fun acc ev => step ev acc) evs s.

End Session.

(** A frame carries the id [i]: it parses to a value whose [id] is the
    number [i]. *)
Definition carries (raw : jstring) (i : N) : Prop :=
  exists payload n,
    Json.parse raw = Some payload
    /\ Json.get payload "id" = Some (JNum n)
    /\ as_id n = Some i.

(** The time that passes during a sequence of events. *)
Definition elapsed (evs : list Event) : N :=
  foldr (fun ev acc => match ev with EAdvance dt => (dt + acc)%N | _ => acc end) 0%N evs.

(** No response for [i] arrives and the session is not closed. *)
Definition unanswered (i : N) (evs : list Event) : Prop :=
  forall ev, ev ∈ evs ->
    ev <> EClose /\ (forall raw, ev = EFrame raw -> ~ carries raw i).

(** What holds of every session the events can produce: ids in use are
    at most the counter, and an entry of [pending] leads to the promise
    of its own id. *)
Definition well_formed (s : CdpSession) : Prop :=
  (forall k p, pending s !! k = Some p -> p = k /\ (k <= id s)%N)
  /\ (forall k o, promises s !! k = Some o -> (k <= id s)%N)
  /\ (forall t, t ∈ timers s -> (t_id t <= id s)%N).

(** An entry of [pending] leads to the promise of its own id. *)
Definition linked (s : CdpSession) : Prop :=
  forall k p, pending s !! k = Some p -> p = k.

(** The call [i] of [method], due at [d], is still waiting. *)
Definition awaiting (i : N) (method : jstring) (d : N) (s : CdpSession) : Prop :=
  pending s !! i = Some i
  /\ promises s !! i = None
  /\ mkTimer d i method ∈ timers s
  /\ (clock s < d)%N.

(** The call [i] of [method] was rejected by its timer. *)
Definition expired (i : N) (method : jstring) (s : CdpSession) : Prop :=
  pending s !! i = None
  /\ promises s !! i = Some (Rejected (timed_out method)).

(** The call [i] of [method], due at [d], is followed through the events:
    its id is spent, its timer is the only one of that id, and it is
    waiting or expired. *)
Definition tracked (i : N) (method : jstring) (d : N) (s : CdpSession) : Prop :=
  (i <= id s)%N
  /\ linked s
  /\ (forall t, t ∈ timers s -> t_id t = i -> t = mkTimer d i method)
  /\ (awaiting i method d s \/ expired i method s).
End Cdp.

(* ===================================================================== *)
(*  Further parts of the gateway, embedded from src/core/skills.ts,      *)
(*  src/core/workspace.ts, src/core/memory.ts, src/providers/agent.ts,   *)
(*  and the functions of the files above that the turn pipeline calls.   *)
(* ===================================================================== *)

(* ===================================================================== *)
(** * The store: one session per sender                                   *)
(* ===================================================================== *)

(** The columns of UNIQUE(channel, sender_id). *)
Definition sender_key (r : SessionRecord) : ChannelName * jstring :=
  (s_channel r, s_senderId r).

(** What the schema keeps of the [sessions] table: one row per channel
    and sender, ids that differ, none above the AUTOINCREMENT counter. *)
Definition sessions_ok (st : Store) : Prop :=
  NoDup (map sender_key (sessions st))
  /\ NoDup (map s_id (sessions st))
  /\ Forall (fun r => (s_id r <= sessions_seq st)%N) (sessions st).

(* ===================================================================== *)
(** * The turn handler: replies and pairings                              *)
(* ===================================================================== *)

(** A computation that delivers no reply. *)
Definition quiet {E A} (c : M (World E) A) : Prop :=
  forall w, replies (c w).2 = replies w.

(** A computation that delivers exactly one reply when it returns and
    none when it throws. *)
Definition answers {E A} (c : M (World E) A) : Prop :=
  forall w,
    match c w with
    | (Ok _, w') => exists text, replies w' = replies w ++ [text]
    | (Throw _, w') => replies w' = replies w
    end.

(** A computation that leaves the [pairings] table as it found it. *)
Definition keeps_pairings {E A} (c : M (World E) A) : Prop :=
  forall w, pairings (store (c w).2) = pairings (store w).

Section WebChat.
Context {E : Type} `{Collaborators E}.
Variable respond : AgentRequest -> M E jstring.

(** The [message] listener of a webchat socket (src/gateway/server.ts):
    the frame is parsed, a payload that is not a message or has a blank
    content is dropped, and the trimmed content is handed to
    [handleInbound].  What the listener catches (a frame that is not
    JSON, a [null] payload, a content without [trim]) is logged and
    dropped. *)
Definition ws_on_message (sender raw : jstring) : M (World E) unit :=
  match Json.parse raw with
  | None => ret tt
  | Some JNull => ret tt
  | Some payload =>
      if negb (is_str (Json.get payload "type") "message") then ret tt
      else
        match Json.get payload "content" with
        | None | Some JNull => ret tt
        | Some (JStr text) =>
            if negb (Js.truthy (Js.trim text)) then ret tt
            else handleInbound respond (mkInbound webchat sender (Js.trim text))
        | Some _ => ret tt
        end
  end.

End WebChat.

(* ===================================================================== *)
(** * The remote-debug session: answers and close                         *)
(* ===================================================================== *)

Module CdpMore.
Import Cdp.

(** The call [i] was dropped by [close]: its id is spent, it is neither
    pending nor settled. *)
Definition abandoned (i : N) (s : CdpSession) : Prop :=
  (i <= id s)%N /\ linked s /\ pending s !! i = None /\ promises s !! i = None.

(** What a response frame settles its call with. *)
Definition response_outcome (to_String : json -> jstring) (payload : json) : Outcome :=
  match Json.get payload "error" with
  | Some e =>
      if Json.falsy e then Resolved (Json.get payload "result")
      else Rejected (protocol_error to_String e)
  | None => Resolved (Json.get payload "result")
  end.

End CdpMore.

(* ===================================================================== *)
(** * The shell executor (src/core/actions.ts)                            *)
(* ===================================================================== *)

(** [`${n}`] for an integer. *)
Definition decimal_Z (z : Z) : jstring :=
  if (z <? 0)%Z then lit "-" ++ decimal (Z.to_N (- z)) else decimal (Z.to_N z).

Definition is_integration (a : AgentAction) : bool :=
  match a with Integration _ _ _ => true | _ => false end.

(** [execShell]: the promise around a spawned child, as the listeners
    and the timer drive it. *)
Module ShellProcess.

Record Child : Type := mkChild {
  stdout : jstring;
  stderr : jstring;
  timer : bool;                       (* set and not cleared *)
  killed : bool;                      (* SIGKILL sent *)
  settled : option (result jstring)   (* how the promise ended *)
}.

Definition spawn : Child := mkChild [] [] true false None.

(** What the child and the timer can do. *)
Inductive Event : Type :=
| Stdout (chunk : jstring)
| Stderr (chunk : jstring)
| Failed (error : thrown)
| Exit (code : option Z)
| Expire.

(** [resolve] and [reject] act on a pending promise only. *)
Definition settle (o : result jstring) (s : option (result jstring))
  : option (result jstring) :=
  match s with Some _ => s | None => Some o end.

Section Exec.
(** [`${timeoutMs}`] *)
Variable number_to_string : number -> jstring.
Variable timeoutMs : number.

(** The [exit] listener's verdict. *)
Definition on_exit (code : option Z) (out err : jstring) : result jstring :=
  let output :=
    Js.join [10%N] (filter (fun part => Js.truthy part = true) [Js.trim out; Js.trim err]) in
  if bool_decide (code = Some 0%Z)
  then Ok (if Js.truthy output then output else lit "(no output)")
  else Throw
         (let msg :=
            if Js.truthy output then output
            else lit "Command failed with exit code "
                 ++ match code with Some c => decimal_Z c | None => lit "unknown" end in
          Thrown true msg (lit "Error: " ++ msg)).

Definition timed_out : thrown :=
  let msg := lit "Shell command timed out after " ++ number_to_string timeoutMs ++ lit "ms" in
  Thrown true msg (lit "Error: " ++ msg).

Definition step (ev : Event) (c : Child) : Child :=
  match ev with
  | Stdout chunk => mkChild (stdout c ++ chunk) (stderr c) (timer c) (killed c) (settled c)
  | Stderr chunk => mkChild (stdout c) (stderr c ++ chunk) (timer c) (killed c) (settled c)
  | Failed error =>
      mkChild (stdout c) (stderr c) false (killed c) (settle (Throw error) (settled c))
  | Exit code =>
      mkChild (stdout c) (stderr c) false (killed c)
        (settle (on_exit code (stdout c) (stderr c)) (settled c))
  | Expire =>
      if timer c
      then mkChild (stdout c) (stderr c) false true (settle (Throw timed_out) (settled c))
      else c
  end.

Definition run (evs : list Event) (c : Child) : Child :=
  fold_left (fun acc ev => step ev acc) evs c.

End Exec.

(** Output events: they settle nothing. *)
Definition is_data (ev : Event) : bool :=
  match ev with Stdout _ | Stderr _ => true | _ => false end.

(** What the output events wrote to a stream. *)
Definition written (to_stdout : bool) (evs : list Event) : jstring :=
  concat (omap (fun ev =>
                  match ev with
                  | Stdout chunk => if to_stdout then Some chunk else None
                  | Stderr chunk => if to_stdout then None else Some chunk
                  | _ => None
                  end) evs).

End ShellProcess.

(* ===================================================================== *)
(** * Text rewritten by patterns                                          *)
(* ===================================================================== *)

Module Text.

(** Every maximal run of characters of [P] replaced by [sep]; [in_run]
    tells that the character before belongs to a run. *)
Fixpoint squeeze (P : char -> bool) (sep : jstring) (in_run : bool) (s : jstring) : jstring :=
  match s with
  | [] => []
  | c :: s' =>
      if P c then (if in_run then [] else sep) ++ squeeze P sep true s'
      else c :: squeeze P sep false s'
  end.

(** The text does not go on with a character of [P]. *)
Definition stops (P : char -> bool) (r : jstring) : Prop :=
  match r with c :: _ => P c = false | [] => True end.

(** The text without its last character, when that is [d]. *)
Fixpoint cut_last (d : char) (s : jstring) : option jstring :=
  match s with
  | [] => None
  | c :: s' =>
      match s' with
      | [] => if N.eqb d c then Some [] else None
      | _ => cons c <$> cut_last d s'
      end
  end.

(** A first [d] removed, and then a last one. *)
Definition strip_edges (d : char) (s : jstring) : jstring :=
  let s1 := match s with c :: t => if N.eqb d c then t else s | [] => [] end in
  default s1 (cut_last d s1).

(** No two neighbours are both in [P]. *)
Fixpoint no_double (P : char -> bool) (s : jstring) : bool :=
  match s with
  | a :: ((b :: _) as s') => negb (P a && P b) && no_double P s'
  | _ => true
  end.

End Text.

(* ===================================================================== *)
(** * Skills (src/core/skills.ts)                                         *)
(* ===================================================================== *)

(** The skills directory on a file system that does not fail: the
    SKILL.md of each skill directory, by directory name. *)
Module Skills.

Definition SkillsDir : Type := gmap jstring jstring.

(** [a-z0-9], negated in the pattern. *)
Definition not_slug_char : list Re.citem := [Re.CRng 97 122; Re.CRng 48 57].

(** A dash at the start or at the end of the text. *)
Definition edges : Re.regex :=
  Re.Grp 1 (Re.Alt (Re.Seq Re.Bol (Re.Chr 45)) (Re.Seq (Re.Chr 45) Re.Eol)).

Section Slug.
(** [String.prototype.toLowerCase] of the runtime. *)
Variable toLowerCase : jstring -> jstring.

Definition slugify (input : jstring) : jstring :=
  take 80
    (Re.replace_all Re.plain edges []
       (Re.replace_all Re.plain (Re.plus (Re.Cls true not_slug_char)) (lit "-")
          (toLowerCase input))).

Definition installSkill (name content : jstring) : M SkillsDir jstring :=
  fun dir =>
    let skillSlug := slugify name in
    if negb (Js.truthy skillSlug)
    then (Throw (Error "Skill name must include letters or numbers."), dir)
    else (Ok skillSlug, <[skillSlug := Utf8.stored content]> dir).

Definition hasSkill (name : jstring) : M SkillsDir bool :=
  fun dir =>
    match dir !! slugify name with
    | Some _ => (Ok true, dir)
    | None => (Ok false, dir)
    end.

End Slug.

(** A character a slug is made of. *)
Definition slug_char (c : char) : bool := Js.is_lower c || Js.is_digit c || N.eqb c 45.

End Skills.

(* ===================================================================== *)
(** * Page text (src/integrations/adapters/browser.ts)                    *)
(* ===================================================================== *)

Definition stripHtml (html : jstring) : jstring :=
  let without_scripts :=
    Re.replace_all Re.fl_i
      (Re.seq [Re.txt "<script"; Re.lazy_star Re.any; Re.txt "</script>"]) (lit " ") html in
  let without_styles :=
    Re.replace_all Re.fl_i
      (Re.seq [Re.txt "<style"; Re.lazy_star Re.any; Re.txt "</style>"]) (lit " ")
      without_scripts in
  let without_tags :=
    Re.replace_all Re.plain
      (Re.seq [Re.Chr 60; Re.plus (Re.Cls true [Re.CChr 62]); Re.Chr 62]) (lit " ")
      without_styles in
  Js.trim (Re.replace_all Re.plain (Re.plus Re.ws) (lit " ") without_tags).

(* ===================================================================== *)
(** * Workspace documents (src/core/workspace.ts)                       *)
(* ===================================================================== *)

(** The workspace documents (src/core/workspace.ts), on a file system
    that does not fail: the files of the workspace directory, by name. *)
Module Workspace.
Import Utf8.

(** A line of text with its line feed, and an empty line. *)
Definition line (l : string) : jstring := lit l ++ [10%N].
Definition blank : jstring := [10%N].

Definition DOC_TEMPLATES : list (jstring * jstring) :=
  [(lit "AGENTS.md",
    line "# AGENTS" ++ blank
    ++ line "Primary objective: be a reliable, practical personal assistant.");
   (lit "SOUL.md",
    line "# SOUL" ++ blank ++ line "You are GnamiBot."
    ++ line "You are the user's personal, local-first assistant."
    ++ line "Your identity is stable: concise, pragmatic, action-oriented, and technically rigorous."
    ++ line "Never claim to be generic or anonymous.");
   (lit "MEMORY.md",
    line "# MEMORY" ++ blank ++ line "Core persistent facts:"
    ++ line "- Assistant name: GnamiBot"
    ++ line "- Role: personal local-first AI assistant" ++ blank
    ++ line "Add user preferences and durable facts below.");
   (lit "TOOLS.md",
    line "# TOOLS" ++ blank
    ++ line "Document preferred tools and operating procedures.")].

Definition LEGACY_DOC_TEMPLATES : list (jstring * jstring) :=
  [(lit "AGENTS.md",
    line "# AGENTS" ++ blank
    ++ line "Define assistant behavior, goals, and boundaries.");
   (lit "SOUL.md",
    line "# SOUL" ++ blank
    ++ line "Define identity, tone, and long-term personality.");
   (lit "MEMORY.md",
    line "# MEMORY" ++ blank
    ++ line "Store durable user preferences and recurring facts.");
   (lit "TOOLS.md",
    line "# TOOLS" ++ blank
    ++ line "Document preferred tools and operating procedures.")].

(** [object[key]] on an object literal. *)
Fixpoint entry (key : jstring) (entries : list (jstring * jstring)) : option jstring :=
  match entries with
  | [] => None
  | (k, v) :: rest => if jstr_eqb k key then Some v else entry key rest
  end.

(** The files of the workspace directory by name, each with the text
    [readFile] decodes from it as UTF-8. *)
Definition Docs : Type := gmap jstring jstring.

(** [writeFile] with the UTF-8 encoding. *)
Definition writeFile (name text : jstring) (docs : Docs) : Docs :=
  <[name := stored text]> docs.

(** One turn of the loop of [ensureWorkspaceDocs]: what the file holds
    afterwards. *)
Definition settle_doc (name template : jstring) (existing : option jstring) : jstring :=
  match existing with
  | Some text =>
      match entry name LEGACY_DOC_TEMPLATES with
      | Some legacy =>
          if Js.truthy legacy && jstr_eqb (Js.trim text) (Js.trim legacy)
          then template else text
      | None => text
      end
  | None => template
  end.

Definition ensure_one (docs : Docs) (doc : jstring * jstring) : Docs :=
  match docs !! doc.1 with
  | Some text =>
      match entry doc.1 LEGACY_DOC_TEMPLATES with
      | Some legacy =>
          if Js.truthy legacy && jstr_eqb (Js.trim text) (Js.trim legacy)
          then writeFile doc.1 doc.2 docs
          else docs
      | None => docs
      end
  | None => writeFile doc.1 doc.2 docs
  end.

Definition ensureWorkspaceDocs (docs : Docs) : Docs :=
  fold_left ensure_one DOC_TEMPLATES docs.

Section Names.
(** [String.prototype.toUpperCase] of the runtime, and what [readFile]
    throws for a file that does not exist. *)
Variable toUpperCase : jstring -> jstring.
Variable enoent : jstring -> thrown.

(** The entries the [Map] is built from; a later entry replaces an
    earlier one of the same key. *)
Definition DOC_NAME_MAP : list (jstring * jstring) :=
  map (fun doc => (toUpperCase doc.1, doc.1)) DOC_TEMPLATES.

Definition normalizeDocName (name : jstring) : result jstring :=
  let normalized := toUpperCase (Js.trim name) in
  match entry normalized (rev DOC_NAME_MAP) with
  | Some (c :: canonical) => Ok (c :: canonical)
  | _ =>
      Throw (Thrown true (lit "Unsupported workspace doc: " ++ name)
               (lit "Error: Unsupported workspace doc: " ++ name))
  end.

Definition readWorkspaceDoc (name : jstring) : M Docs jstring :=
  fun docs =>
    let docs := ensureWorkspaceDocs docs in
    match normalizeDocName name with
    | Throw error => (Throw error, docs)
    | Ok normalized =>
        match docs !! normalized with
        | Some text => (Ok text, docs)
        | None => (Throw (enoent normalized), docs)
        end
    end.

Definition writeWorkspaceDoc (name content : jstring) : M Docs unit :=
  fun docs =>
    let docs := ensureWorkspaceDocs docs in
    match normalizeDocName name with
    | Throw error => (Throw error, docs)
    | Ok normalized => (Ok tt, writeFile normalized content docs)
    end.

End Names.

(** The names of the four documents. *)
Definition doc_names : list jstring := map fst DOC_TEMPLATES.

End Workspace.

(* ===================================================================== *)
(** * Provider dispatch (src/providers/agent.ts)                        *)
(* ===================================================================== *)

(** The provider dispatch of the agent runtime (src/providers/agent.ts). *)
Module Agent.

Definition slash : jstring := lit "/".

Definition failure (msg : jstring) : thrown :=
  Thrown true msg (lit "Error: " ++ msg).

Definition resolveProviderModel (modelString : jstring) : result (jstring * jstring) :=
  let invalid :=
    Throw (failure (dq "Invalid model '" ++ modelString
                    ++ dq "'. Expected provider/model (example: openai/gpt-5.3-codex).")) in
  match Js.split_lit slash modelString with
  | provider :: rest =>
      let model := Js.join slash rest in
      if negb (Js.truthy provider) || negb (Js.truthy model)
      then invalid
      else Ok (provider, model)
  | [] => invalid
  end.

Section Respond.
Context {S : Type}.
Variables respondOpenAI respondLocal : jstring -> AgentRequest -> M S jstring.

Definition respond (configured : jstring) (request : AgentRequest) : M S jstring :=
  match resolveProviderModel configured with
  | Throw error => throw error
  | Ok (provider, model) =>
      if jstr_eqb provider (lit "openai") then respondOpenAI model request
      else if jstr_eqb provider (lit "local") then respondLocal model request
      else throw (failure (dq "Unsupported provider '" ++ provider
                           ++ dq "'. Use openai/<model> or local/<model>."))
  end.

End Respond.
End Agent.

(* ===================================================================== *)
(** * Memory entities (src/core/memory.ts)                              *)
(* ===================================================================== *)

(** The memory entity of a session (src/core/memory.ts): the id under
    which notes and skills are kept, and the lock file that pins it. *)
Module Memory.

(** What [userId] reads besides the lock file: the two environment
    variables as [resolveRuntimeEnvVar] returns them, and two settings
    of the configuration. *)
Record Settings : Type := mkSettings {
  MEM0_ENTITY : option jstring;
  MEM0_ENTITY_NAME : option jstring;
  entityName : option jstring;
  userIdPrefix : option jstring
}.

(** [a ?? b] *)
Definition nullish (a b : option jstring) : option jstring :=
  match a with Some _ => a | None => b end.

Definition configuredEntity (c : Settings) : option jstring :=
  match nullish (MEM0_ENTITY c) (nullish (MEM0_ENTITY_NAME c) (entityName c)) with
  | Some fixedEntity =>
      if Js.truthy fixedEntity && negb (length (Js.trim fixedEntity) =? 0)
      then Some (Js.trim fixedEntity)
      else None
  | None => None
  end.

(** The state is the lock file: absent, or the text read from it. *)
Definition userId (c : Settings) (sessionUserId : jstring) : M (option jstring) jstring :=
  fun lock =>
    let configured := configuredEntity c in
    let write_and_return (id : jstring) := (Ok id, Some (Utf8.stored id)) in
    let unlocked :=
      match configured with
      | Some (ch :: rest) => write_and_return (ch :: rest)
      | _ =>
          let prefix := default (lit "gnamiai") (userIdPrefix c) in
          write_and_return (prefix ++ lit ":" ++ sessionUserId)
      end in
    match lock with
    | Some text =>
        let locked := Js.trim text in
        if negb (length locked =? 0) then (Ok locked, lock) else unlocked
    | None => unlocked
    end.

(** A record of the Mem0 service. *)
Record Mem0Record : Type := mkRecord {
  r_memory : option jstring;
  r_text : option jstring;
  r_content : option jstring
}.

(** [(record.memory ?? record.text ?? record.content ?? <empty>).trim()] *)
Definition record_text (record : Mem0Record) : jstring :=
  Js.trim (default [] (nullish (r_memory record) (nullish (r_text record) (r_content record)))).

(** The loop of [recordsToText], with the set [seen] and the list [out]
    it fills. *)
Fixpoint records_loop (limit : nat) (records : list Mem0Record)
  (seen : gset jstring) (out : list jstring) : list jstring :=
  match records with
  | [] => out
  | record :: rest =>
      let text := record_text record in
      if negb (Js.truthy text) then records_loop limit rest seen out
      else if bool_decide (text ∈ seen) then records_loop limit rest seen out
      else
        let out' := out ++ [text] in
        if limit <=? length out' then out'
        else records_loop limit rest ({[text]} ∪ seen) out'
  end.

Definition recordsToText (records : list Mem0Record) (limit : nat) : list jstring :=
  records_loop limit records ∅ [].

End Memory.

(* ===================================================================== *)
(** * 10. Sample data                                                     *)
(* ===================================================================== *)

Module PairingDemo.

Definition alice : jstring := lit "alice".
Definition bob : jstring := lit "bob".
Definition carol : jstring := lit "carol".

(** Two senders on telegram drew the same code; a third holds another. *)
Definition collided : Store :=
  mkStore
    (<[(telegram, alice) := mkPairing false (lit "424242") (lit "t0")]>
       (<[(telegram, bob) := mkPairing false (lit "424242") (lit "t1")]>
          (<[(telegram, carol) := mkPairing false (lit "777777") (lit "t2")]> ∅)))
    [] 0 [] 0 [].

End PairingDemo.

(** A small outside world for running the handler: two workspace
    documents, a clock, the answers the model will give, and a record of
    the shell commands that were run. *)
Module Demo.

Record Env : Type := mkEnv {
  d_now : jstring;
  memory_md : jstring;
  soul_md : jstring;
  answers : list jstring;
  shell_log : list jstring
}.

Definition is_memory_doc (name : jstring) : bool := jstr_eqb name (lit "MEMORY.md").

#[global] Instance collaborators : Collaborators Env := {
  now := d_now;
  randomInt := fun lo _ e => ((lo + 324242)%N, e);
  execShell := fun command _ e =>
    let e' := mkEnv (d_now e) (memory_md e) (soul_md e) (answers e)
                (shell_log e ++ [command]) in
    if jstr_eqb command (lit "exit 1")
    then (Throw (Error "Command failed with exit code 1"), e')
    else (Ok (lit "(no output)"), e');
  installSkill := fun name _ e => (Ok name, e);
  hasSkill := fun _ e => (Ok false, e);
  integrations_exec := fun _ _ _ e => (Ok JNull, e);
  JSON_stringify := fun _ => lit "null";
  memory_getContext := fun _ _ _ e => (Ok [], e);
  memory_addConversationMemory := fun _ _ _ e => (Ok (lit "basic"), e);
  memory_addSkillMemory := fun _ _ _ e => (Ok (lit "basic"), e);
  memory_findSkill := fun _ _ e => (Ok None, e);
  readWorkspaceDoc := fun name e =>
    (Ok (if is_memory_doc name then memory_md e else soul_md e), e);
  writeWorkspaceDoc := fun name text e =>
    (Ok tt,
     if is_memory_doc name
     then mkEnv (d_now e) text (soul_md e) (answers e) (shell_log e)
     else mkEnv (d_now e) (memory_md e) text (answers e) (shell_log e));
  resolveAssistantName := fun fallback e => (Ok (default (lit "GnamiBot") fallback), e);
  buildWorkspaceContext := fun e => (Ok (lit "(workspace)"), e);
  saveConfig := fun _ e => (Ok tt, e);
}.

(** A model provider that reads its answers from the script. *)
Definition scripted (_ : AgentRequest) : M Env jstring :=
  fun e =>
    match answers e with
    | a :: rest =>
        (Ok a, mkEnv (d_now e) (memory_md e) (soul_md e) rest (shell_log e))
    | [] => (Throw (Error "OpenAI returned an empty response."), e)
    end.

Definition nl : jstring := [10%N].

Definition soul : jstring :=
  lit "# SOUL" ++ nl ++ nl ++ lit "You are GnamiBot." ++ nl
  ++ lit "You are the user's personal, local-first assistant." ++ nl.

(** MEMORY.md of a sender whose persona is complete. *)
Definition memory_complete : jstring :=
  lit "# MEMORY" ++ nl ++ nl ++ lit "- Assistant name: GnamiBot" ++ nl
  ++ lit "- User name: Gabriel" ++ nl ++ lit "- Preferred language: francais" ++ nl.

Definition env (script : list jstring) : Env :=
  mkEnv (lit "2026-01-02T00:00:00.000Z") memory_complete soul script [].

(** The outside world after the shell ran [commands]. *)
Definition ran (commands : list jstring) : Env :=
  mkEnv (lit "2026-01-02T00:00:00.000Z") memory_complete soul [] commands.

Definition gabriel : jstring := lit "gabriel".

Definition store_with (row : PairingRow) (ss : list SessionRecord) : Store :=
  mkStore (<[(webchat, gabriel) := row]> ∅) ss (N.of_nat (length ss)) [] 0 [].

Definition approved_row : PairingRow :=
  mkPairing true (lit "424242") (lit "2026-01-01T00:00:00.000Z").
Definition pending_row : PairingRow :=
  mkPairing false (lit "424242") (lit "2026-01-01T00:00:00.000Z").

Definition old_session : SessionRecord :=
  mkSession 1 webchat gabriel (lit "2026-01-01T00:00:00.000Z")
    (lit "2026-01-01T00:00:00.000Z").

Definition world (row : PairingRow) (ss : list SessionRecord) (script : list jstring)
  : World Env :=
  mkWorld (store_with row ss) (Some (lit "GnamiBot")) [] (env script).

Definition says (text : jstring) : InboundMessage := mkInbound webchat gabriel text.

Definition failing : AgentAction := Shell (lit "exit 1") None.
Definition succeeding : AgentAction := Shell (lit "ls") None.

End Demo.

Module Turns.

Definition ls_block : jstring :=
  lit "```gnami-action " ++ dq "{'type':'shell','command':'ls'}" ++ lit "```".

(** A first pass that says something and asks for one action, and a
    second pass that holds nothing but action markup. *)
Definition first_pass : jstring := lit "Listing. " ++ ls_block.
Definition second_pass : jstring := ls_block.

Definition list_files : InboundMessage := Demo.says (lit "list files").
Definition who : InboundMessage := Demo.says (lit "who are you?").
Definition restore_notes : InboundMessage := Demo.says (lit "/skill restore notes").

(** A first pass that asks for four shell commands. *)
Definition block_of (command : string) : jstring :=
  lit "```gnami-action" ++ Demo.nl ++ dq "{'type':'shell','command':'"
  ++ lit command ++ dq "'}" ++ Demo.nl ++ lit "```" ++ Demo.nl.

Definition four_asked : jstring :=
  block_of "pwd" ++ block_of "ls" ++ block_of "whoami" ++ block_of "date".

Definition four_world : World Demo.Env :=
  Demo.world Demo.approved_row [Demo.old_session] [four_asked; lit "Done."].

(** MEMORY.md as the template leaves it: no user name, no language. *)
Definition memory_template : jstring :=
  lit "# MEMORY" ++ Demo.nl ++ Demo.nl ++ lit "Core persistent facts:" ++ Demo.nl
  ++ lit "- Assistant name: GnamiBot" ++ Demo.nl
  ++ lit "- Role: personal local-first AI assistant" ++ Demo.nl.

Definition newcomer_world : World Demo.Env :=
  mkWorld (Demo.store_with Demo.approved_row []) (Some (lit "GnamiBot")) []
    (Demo.mkEnv (lit "2026-01-02T00:00:00.000Z") memory_template Demo.soul [] []).

Definition french : InboundMessage :=
  Demo.says (lit "Mon nom c'est Gabriel, je parle francais").

Definition round_trip_world : World Demo.Env :=
  Demo.world Demo.approved_row [Demo.old_session] [first_pass; second_pass].

Definition identity_world : World Demo.Env :=
  Demo.world Demo.approved_row [Demo.old_session] [].

(** The world once the inbound message of session 1 is persisted, and
    the history read back then. *)
Definition after_inbound (m : InboundMessage) (w : World Demo.Env) : World Demo.Env :=
  let st1 :=
    (StoreOps.getOrCreateSession (channel m) (senderId m) (now (ext w)) (store w)).2 in
  let st2 := (StoreOps.addMessage 1 inbound (msg_content m) (now (ext w)) st1).2 in
  mkWorld st2 (config_assistantName w) (replies w) (ext w).

Definition heard (m : InboundMessage) (w : World Demo.Env) : list MessageRecord :=
  StoreOps.getRecentMessages 1 30 (store (after_inbound m w)).

End Turns.

Module CdpDemo.

Definition to_String (_ : json) : jstring := lit "[object Object]".
Definition stringify (i : N) (method : jstring) (_ : json) : jstring :=
  dq "{'id':" ++ decimal i ++ dq ",'method':'" ++ method ++ dq "','params':{}}".

Definition navigate : jstring := lit "Page.navigate".

(** A response for another call, and the late response for call 1. *)
Definition frame_for_2 : jstring := dq "{'id':2,'result':{}}".
Definition late_frame : jstring := dq "{'id':1,'result':{'frameId':'A'}}".

Definition waiting : list Cdp.Event :=
  [Cdp.EFrame frame_for_2; Cdp.EAdvance 9000; Cdp.EAdvance 6000].

Definition issued : Cdp.CdpSession :=
  (Cdp.command stringify navigate (JObj []) (Cdp.connect Cdp.create)).2.

End CdpDemo.

Module Texts.

(** Three blocks, the middle one malformed, with plain text around. *)
Definition three_blocks : jstring :=
  lit "hi ```gnami-action " ++ dq "{'type':'shell','command':'ls'}"
  ++ lit "``` mid ```gnami-action oops``` ```gnami-action"
  ++ dq "{'type':'integration','app':'browser','action':'fetch_html','params':{'url':'x'}}"
  ++ lit "``` end ".

(** The same answer, piece by piece. *)
Definition three_segments : list (jstring * jstring) :=
  [(lit "hi ", lit " " ++ dq "{'type':'shell','command':'ls'}");
   (lit " mid ", lit " oops");
   (lit " ",
    dq "{'type':'integration','app':'browser','action':'fetch_html','params':{'url':'x'}}")].

(** A marker cut in two by a block: removing the inner block joins the
    halves into a block of their own. *)
Definition nested : jstring :=
  lit "```gnami-```gnami-action x```action "
  ++ dq "{'type':'shell','command':'id'}" ++ lit "```".

Definition joined : jstring :=
  lit "```gnami-action " ++ dq "{'type':'shell','command':'id'}" ++ lit "```".

End Texts.

(* ===================================================================== *)
(** * More sample data                                                  *)
(* ===================================================================== *)

Module Cases.

Definition later_on : jstring := lit "2026-01-03T00:00:00.000Z".

(** A world whose model answers in plain words. *)
Definition plain_world : World Demo.Env :=
  Demo.world Demo.approved_row [Demo.old_session] [lit "Done."].

Definition install_notes : InboundMessage := Demo.says (lit "/skill install notes").

(** A response for another call and nine seconds of waiting. *)
Definition still_waiting : list Cdp.Event :=
  [Cdp.EFrame CdpDemo.frame_for_2; Cdp.EAdvance 9000].

Definition answer_1 : json :=
  JObj [(lit "id", JNum (Number 1 0));
        (lit "result", JObj [(lit "frameId", JStr (lit "A"))])].

(** A child that writes to both streams and exits with 0; the timer
    fires afterwards. *)
Definition thirty_seconds (_ : number) : jstring := lit "30000".
Definition chatty : list ShellProcess.Event :=
  [ShellProcess.Stdout (lit "a" ++ Demo.nl); ShellProcess.Stderr (lit "warn")].

(** An upper-casing that is exact on ASCII text, and the error of a
    missing file. *)
Definition upper (s : jstring) : jstring :=
  map (fun c => if Js.is_lower c then (c - 32)%N else c) s.
Definition missing (name : jstring) : thrown :=
  Thrown true (lit "ENOENT: no such file or directory, open " ++ name)
    (lit "Error: ENOENT: no such file or directory, open " ++ name).

Definition soul_text : jstring :=
  lit "# SOUL" ++ Demo.nl ++ Demo.nl ++ lit "You are Jarvis." ++ Demo.nl.

End Cases.

(* ===================================================================== *)
(** * 11. Properties of the store                                         *)
(* ===================================================================== *)

Module StoreFacts.
Import StoreOps.

Lemma jstr_eqb_eq (a b : jstring) : jstr_eqb a b = true <-> a = b.
Proof. unfold jstr_eqb. rewrite bool_decide_eq_true. reflexivity. Qed.

Lemma approve_matches_iff ch c key row :
  approve_matches ch c key row = true <-> key.1 = ch /\ code row = c.
Proof.
  unfold approve_matches.
  rewrite andb_true_iff, bool_decide_eq_true, jstr_eqb_eq. reflexivity.
Qed.

Lemma filter_nonempty {A} (P : A -> Prop) `{forall x, Decision (P x)} (l : list A) :
  0 < length (filter P l) <-> exists x, x ∈ l /\ P x.
Proof.
  split.
  - intros Hlen. destruct (filter P l) as [|x xs] eqn:Hf; [simpl in Hlen; lia|].
    exists x. apply and_comm, (list_elem_of_filter P). rewrite Hf. left.
  - intros (x & Hin & HP).
    assert (x ∈ filter P l) as Hx by (apply list_elem_of_filter; auto).
    destruct (filter P l); [inversion Hx | simpl; lia].
Qed.

Lemma approve_changes_pos ch c st :
  0 < approve_changes ch c st <->
  exists key row, pairings st !! key = Some row /\ key.1 = ch /\ code row = c.
Proof.
  unfold approve_changes. rewrite filter_nonempty. split.
  - intros ([key row] & Hin & Hm). apply elem_of_map_to_list in Hin.
    apply approve_matches_iff in Hm. eauto.
  - intros (key & row & Hl & Hm). exists (key, row). split.
    + by apply elem_of_map_to_list.
    + by apply approve_matches_iff.
Qed.

Lemma approve_lookup ch c st key :
  pairings (approvePairing ch c st).2 !! key = approve_row ch c key <$> pairings st !! key.
Proof.
  unfold approvePairing, set_pairings. simpl. rewrite map_lookup_imap.
  destruct (pairings st !! key); reflexivity.
Qed.

End StoreFacts.

Section ApprovePairing.
Import StoreOps StoreFacts.

(** C10. [approvePairing] selects rows by channel and code alone: every
    pairing of that channel carrying that code ends approved, whoever its
    sender and whether or not it was approved before; every other row and
    every other table is untouched; the result is [true] exactly when
    such a row exists.  With codes distinct per sender on a channel one
    row is selected; two senders sharing a code are both approved. *)
Theorem approvePairing_by_channel_and_code (ch : ChannelName) (c : jstring) (st : Store) :
  let ok := (approvePairing ch c st).1 in
  let st' := (approvePairing ch c st).2 in
  (forall key row, pairings st !! key = Some row ->
     pairings st' !! key =
       Some (if decide (key.1 = ch /\ code row = c)
             then mkPairing true (code row) (p_createdAt row) else row))
  /\ (forall key, pairings st !! key = None -> pairings st' !! key = None)
  /\ (ok = true <->
      exists key row, pairings st !! key = Some row /\ key.1 = ch /\ code row = c)
  /\ ((forall k1 k2 r1 r2,
         pairings st !! k1 = Some r1 -> pairings st !! k2 = Some r2 ->
         k1.1 = k2.1 -> code r1 = code r2 -> k1 = k2) ->
      ok = true ->
      exists sender, forall key row,
        pairings st !! key = Some row ->
        (key.1 = ch /\ code row = c) <-> key = (ch, sender))
  /\ (forall s1 s2 r1 r2,
        s1 <> s2 ->
        pairings st !! (ch, s1) = Some r1 -> pairings st !! (ch, s2) = Some r2 ->
        code r1 = c -> code r2 = c ->
        approved <$> pairings st' !! (ch, s1) = Some true
        /\ approved <$> pairings st' !! (ch, s2) = Some true)
  /\ sessions st' = sessions st /\ messages st' = messages st
  /\ memory_events st' = memory_events st.
Proof.
  intros ok st'.
  assert (Hrow : forall key row, pairings st !! key = Some row ->
            pairings st' !! key =
              Some (if decide (key.1 = ch /\ code row = c)
                    then mkPairing true (code row) (p_createdAt row) else row)).
  { intros key row Hl. subst st'. rewrite approve_lookup, Hl. simpl. f_equal.
    unfold approve_row.
    destruct (approve_matches ch c key row) eqn:Hm.
    - apply approve_matches_iff in Hm. rewrite (decide_True _ _ Hm). reflexivity.
    - rewrite decide_False; [reflexivity|].
      intros Hm'. apply approve_matches_iff in Hm'. congruence. }
  assert (Hok : ok = true <->
            exists key row, pairings st !! key = Some row /\ key.1 = ch /\ code row = c).
  { subst ok. unfold approvePairing. simpl.
    rewrite bool_decide_eq_true. apply approve_changes_pos. }
  split; [exact Hrow|].
  split. { intros key Hl. subst st'. rewrite approve_lookup, Hl. reflexivity. }
  split; [exact Hok|].
  split.
  { intros Hdistinct Htrue. apply Hok in Htrue as ([ch0 sender] & row & Hl & Hch & Hc).
    simpl in Hch. subst ch0. exists sender. intros key row' Hl'. split.
    - intros [Hch' Hc']. apply (Hdistinct key (ch, sender) row' row); auto. congruence.
    - intros ->. split; [reflexivity|]. congruence. }
  split.
  { intros s1 s2 r1 r2 _ H1 H2 Hc1 Hc2.
    rewrite (Hrow _ _ H1), (Hrow _ _ H2). simpl.
    rewrite !decide_True by auto. auto. }
  subst st'. unfold approvePairing, set_pairings. simpl. auto.
Qed.

End ApprovePairing.


Lemma approvePairing_collision_witness :
  let st' := (StoreOps.approvePairing telegram (lit "424242") PairingDemo.collided).2 in
  approved <$> pairings st' !! (telegram, PairingDemo.alice) = Some true
  /\ approved <$> pairings st' !! (telegram, PairingDemo.bob) = Some true.
Proof.
  destruct (approvePairing_by_channel_and_code telegram (lit "424242") PairingDemo.collided)
    as (_ & _ & _ & _ & Hboth & _).
  apply (Hboth PairingDemo.alice PairingDemo.bob
           (mkPairing false (lit "424242") (lit "t0"))
           (mkPairing false (lit "424242") (lit "t1"))).
  - intros Heq. discriminate Heq.
  - vm_compute. reflexivity.
  - vm_compute. reflexivity.
  - reflexivity.
  - reflexivity.
Defined.

(* ===================================================================== *)
(** * 12. Properties of action execution                                  *)
(* ===================================================================== *)

Section ExecuteFacts.
Context {E : Type} `{Collaborators E}.

Lemma attempt_ok integrations a e r e' :
  attempt integrations a e = (Ok r, e') -> ar_action r = a /\ ok r = true.
Proof.
  destruct a as [command t | name text | app act params]; simpl; unfold bind, ret, throw.
  - destruct (execShell _ _ e) as [[out|err] e1]; intros [= <- <-]; auto.
  - destruct (installSkill _ _ e) as [[out|err] e1]; intros [= <- <-]; auto.
  - destruct integrations; simpl; [|discriminate].
    destruct (integrations_exec _ _ _ e) as [[out|err] e1]; intros [= <- <-]; auto.
Qed.

Lemma run_action_cases integrations a e :
  match attempt integrations a e with
  | (Ok r, e') => run_action integrations a e = (Ok r, e')
  | (Throw err, e') =>
      run_action integrations a e = (Ok (mkResult a false (describe err)), e')
  end.
Proof.
  unfold run_action, try_catch. destruct (attempt integrations a e) as [[r|err] e']; reflexivity.
Qed.

Lemma run_action_total integrations a e :
  exists r e', run_action integrations a e = (Ok r, e') /\ ar_action r = a.
Proof.
  pose proof (run_action_cases integrations a e) as Hc.
  destruct (attempt integrations a e) as [[r|err] e'] eqn:Ha.
  - exists r, e'. split; [exact Hc|]. by apply attempt_ok in Ha as [? _].
  - eexists _, e'. split; [exact Hc|]. reflexivity.
Qed.

Lemma execute_loop_acc integrations actions :
  forall acc e, exists rs e',
    execute_loop integrations acc actions e = (Ok (acc ++ rs), e')
    /\ map ar_action rs = actions.
Proof.
  induction actions as [|a rest IH]; intros acc e; simpl.
  - exists [], e. unfold ret. rewrite app_nil_r. auto.
  - destruct (run_action_total integrations a e) as (r & e1 & Hr & Ha).
    destruct (IH (acc ++ [r]) e1) as (rs & e2 & Hrs & Hmap).
    exists (r :: rs), e2. unfold bind. rewrite Hr, Hrs, <- app_assoc. simpl.
    split; [reflexivity|]. by rewrite Ha, Hmap.
Qed.

Lemma execute_loop_shift integrations actions acc e rs e' :
  execute_loop integrations [] actions e = (Ok rs, e') ->
  execute_loop integrations acc actions e = (Ok (acc ++ rs), e').
Proof.
  intros H0.
  destruct (execute_loop_acc integrations actions acc e) as (rs1 & e1 & H1 & _).
  destruct (execute_loop_acc integrations actions [] e) as (rs2 & e2 & H2 & _).
  revert actions acc e rs e' rs1 e1 rs2 e2 H0 H1 H2.
  induction actions as [|a rest IH]; intros acc e rs e' rs1 e1 rs2 e2 H0 H1 H2.
  - simpl in *. unfold ret in *. injection H0 as <- <-. by rewrite app_nil_r.
  - simpl in *. unfold bind in *.
    destruct (run_action integrations a e) as [[r|err] ea]; [|discriminate].
    simpl in H0.
    destruct (execute_loop_acc integrations rest [] ea) as (rs0 & e0 & Hrs0 & _).
    pose proof (execute_loop_acc integrations rest [r] ea) as (rsa & e_a & Hrsa & _).
    pose proof (execute_loop_acc integrations rest (acc ++ [r]) ea) as (rsb & e_b & Hrsb & _).
    pose proof (IH [r] ea rs0 e0 _ _ _ _ Hrs0 Hrsa Hrs0) as Hone.
    pose proof (IH (acc ++ [r]) ea rs0 e0 _ _ _ _ Hrs0 Hrsb Hrs0) as Hmany.
    rewrite Hone in H0. injection H0 as <- <-.
    rewrite Hmany. by rewrite <- app_assoc.
Qed.

Lemma executeAgentActions_cons integrations a rest e r e1 rs e2 :
  run_action integrations a e = (Ok r, e1) ->
  executeAgentActions rest integrations e1 = (Ok rs, e2) ->
  executeAgentActions (a :: rest) integrations e = (Ok (r :: rs), e2).
Proof.
  unfold executeAgentActions. intros Hr Hrs. simpl. unfold bind. rewrite Hr.
  by rewrite (execute_loop_shift _ _ [r] _ _ _ Hrs).
Qed.

Lemma executeAgentActions_total integrations actions e :
  exists rs e', executeAgentActions actions integrations e = (Ok rs, e')
    /\ map ar_action rs = actions.
Proof.
  destruct (execute_loop_acc integrations actions [] e) as (rs & e' & Hrs & Hmap).
  exists rs, e'. auto.
Qed.

Lemma executeAgentActions_app integrations l1 l2 e rs1 e1 rs2 e2 :
  executeAgentActions l1 integrations e = (Ok rs1, e1) ->
  executeAgentActions l2 integrations e1 = (Ok rs2, e2) ->
  executeAgentActions (l1 ++ l2) integrations e = (Ok (rs1 ++ rs2), e2).
Proof.
  revert e rs1 e1. induction l1 as [|a l1 IH]; intros e rs1 e1 H1 H2.
  - unfold executeAgentActions in H1. simpl in H1. unfold ret in H1.
    injection H1 as <- <-. exact H2.
  - destruct (run_action_total integrations a e) as (r & ea & Hr & _).
    destruct (executeAgentActions_total integrations l1 ea) as (rsa & eb & Hrsa & _).
    rewrite (executeAgentActions_cons _ _ _ _ _ _ _ _ Hr Hrsa) in H1.
    injection H1 as <- <-. simpl.
    apply (executeAgentActions_cons _ _ _ _ _ _ _ _ Hr). by apply (IH ea rsa eb).
Qed.

(** C2. [executeAgentActions] returns one result per action, in the order
    of the actions, and never throws.  Each action is run in the state
    its predecessors left, whatever their results were, and the actions
    after it are run in the state it left: a thrown error becomes that
    action's result with [ok = false] and the error's message as output,
    a normal return a result with [ok = true].  A failing action followed
    by a succeeding one gives two results, [ok = false] then [ok = true]. *)
Theorem executeAgentActions_one_result_per_action
  (actions : list AgentAction) (integrations : bool) (e : E) :
  (exists results e',
     executeAgentActions actions integrations e = (Ok results, e')
     /\ map ar_action results = actions
     /\ length results = length actions)
  /\ (forall l1 a l2, actions = l1 ++ a :: l2 ->
      exists rs1 e1 r e2 rs2 e3,
        executeAgentActions l1 integrations e = (Ok rs1, e1)
        /\ run_action integrations a e1 = (Ok r, e2)
        /\ executeAgentActions l2 integrations e2 = (Ok rs2, e3)
        /\ executeAgentActions actions integrations e = (Ok (rs1 ++ r :: rs2), e3)
        /\ length rs1 = length l1
        /\ (forall err e', attempt integrations a e1 = (Throw err, e') ->
              r = mkResult a false (describe err) /\ e2 = e'
              /\ (is_Error err = true -> output r = message err))
        /\ (forall r' e', attempt integrations a e1 = (Ok r', e') ->
              r = r' /\ e2 = e' /\ ok r = true))
  /\ (forall a b err e1 rb e2,
        actions = [a; b] ->
        attempt integrations a e = (Throw err, e1) ->
        attempt integrations b e1 = (Ok rb, e2) ->
        executeAgentActions actions integrations e
          = (Ok [mkResult a false (describe err); rb], e2)
        /\ ok rb = true).
Proof.
  split; [|split].
  - destruct (executeAgentActions_total integrations actions e) as (rs & e' & Hrs & Hmap).
    exists rs, e'. repeat split; auto.
    by rewrite <- Hmap, length_map.
  - intros l1 a l2 ->.
    destruct (executeAgentActions_total integrations l1 e) as (rs1 & e1 & H1 & Hm1).
    destruct (run_action_total integrations a e1) as (r & e2 & Hr & Ha).
    destruct (executeAgentActions_total integrations l2 e2) as (rs2 & e3 & H2 & Hm2).
    exists rs1, e1, r, e2, rs2, e3.
    pose proof (run_action_cases integrations a e1) as Hc.
    split; [exact H1|]. split; [exact Hr|]. split; [exact H2|].
    split.
    { apply (executeAgentActions_app _ _ _ _ _ _ _ _ H1).
      by apply (executeAgentActions_cons _ _ _ _ _ _ _ _ Hr). }
    split. { by rewrite <- Hm1, length_map. }
    split.
    + intros err e' Hatt. rewrite Hatt, Hr in Hc. injection Hc as -> ->.
      split; [reflexivity|]. split; [reflexivity|].
      intros Herr. simpl. unfold describe, message_or. by rewrite Herr.
    + intros r' e' Hatt. rewrite Hatt, Hr in Hc. injection Hc as -> ->.
      split; [reflexivity|]. split; [reflexivity|].
      by apply attempt_ok in Hatt as [_ ?].
  - intros a b err e1 rb e2 -> Ha Hb.
    pose proof (run_action_cases integrations a e) as Hca. rewrite Ha in Hca.
    pose proof (run_action_cases integrations b e1) as Hcb. rewrite Hb in Hcb.
    split; [|by apply attempt_ok in Hb as [_ ?]].
    apply (executeAgentActions_cons _ _ _ _ _ _ _ _ Hca).
    apply (executeAgentActions_cons _ _ _ _ _ _ _ _ Hcb).
    reflexivity.
Qed.

End ExecuteFacts.

Lemma executeAgentActions_failure_then_success_witness :
  executeAgentActions [Demo.failing; Demo.succeeding] true (Demo.env [])
  = (Ok [mkResult Demo.failing false (describe (Error "Command failed with exit code 1"));
         mkResult Demo.succeeding true (lit "(no output)")],
     Demo.ran [lit "exit 1"; lit "ls"])
  /\ ok (mkResult Demo.succeeding true (lit "(no output)")) = true.
Proof.
  destruct (executeAgentActions_one_result_per_action
              [Demo.failing; Demo.succeeding] true (Demo.env [])) as (_ & _ & Htwo).
  apply (Htwo Demo.failing Demo.succeeding (Error "Command failed with exit code 1")
           (Demo.ran [lit "exit 1"])); reflexivity.
Defined.

(* ===================================================================== *)
(** * 13. Properties of action extraction                                 *)
(* ===================================================================== *)

Section ParseFacts.

Lemma is_str_true v s : is_str v s = true -> v = Some (JStr (lit s)).
Proof.
  destruct v as [[| | |x| |]|]; simpl; try discriminate.
  intros Hx. apply StoreFacts.jstr_eqb_eq in Hx. by subst.
Qed.

Lemma block_pushes_well_formed f :
  block_pushes f =
  match well_formed_block (block_body f) with
  | Some a => [a]
  | None => []
  end.
Proof.
  unfold block_pushes, well_formed_block, safeJsonParse.
  destruct (Json.parse (Js.trim (block_body f))) as [[|b|n|s|items|ms]|];
    try reflexivity.
  - destruct b; reflexivity.
  - simpl. destruct n; reflexivity.
  - simpl. destruct (negb (Js.truthy s)); reflexivity.
  - simpl.
    destruct (Json.lookup_last (lit "type") ms) as [[| | |t| |]|]; try reflexivity.
    unfold is_str.
    destruct (jstr_eqb t (lit "shell")) eqn:Hshell.
    { apply StoreFacts.jstr_eqb_eq in Hshell. subst t.
      change (jstr_eqb (lit "shell") (lit "install_skill")) with false.
      change (jstr_eqb (lit "shell") (lit "integration")) with false.
      destruct (Json.lookup_last (lit "command") ms) as [[| | |c| |]|]; reflexivity. }
    destruct (jstr_eqb t (lit "install_skill")) eqn:Hinst.
    { apply StoreFacts.jstr_eqb_eq in Hinst. subst t.
      change (jstr_eqb (lit "install_skill") (lit "integration")) with false.
      destruct (Json.lookup_last (lit "name") ms) as [[| | |c| |]|]; try reflexivity.
      destruct (Json.lookup_last (lit "content") ms) as [[| | |d| |]|]; reflexivity. }
    destruct (jstr_eqb t (lit "integration")) eqn:Hint; [|reflexivity].
    destruct (Json.lookup_last (lit "app") ms) as [[| | |c| |]|]; try reflexivity.
    destruct (Json.lookup_last (lit "action") ms) as [[| | |d| |]|]; reflexivity.
Qed.

Lemma parse_loop_omap matches :
  forall acc,
    parse_loop acc matches = acc ++ omap well_formed_block (map block_body matches).
Proof.
  induction matches as [|f rest IH]; intros acc; simpl.
  - by rewrite app_nil_r.
  - rewrite IH, block_pushes_well_formed, <- app_assoc.
    destruct (well_formed_block (block_body f)); reflexivity.
Qed.

Lemma omap_length_filter {A B} (f : A -> option B) (l : list A) :
  length (omap f l) = length (filter (fun x => is_Some (f x)) l).
Proof.
  induction l as [|x l IH]; [reflexivity|]. simpl.
  rewrite filter_cons. case_decide as Hd.
  - destruct Hd as [y Hy]. rewrite Hy. simpl. f_equal. exact IH.
  - destruct (f x) eqn:Hfx; [exfalso; apply Hd; eauto | exact IH].
Qed.

End ParseFacts.

(** Four blocks in one answer: four actions are extracted, the turn runs
    the first three, in order. *)
Example four_asked_three_run :
  let w' := (handleInbound Demo.scripted Turns.list_files Turns.four_world).2 in
  parseAgentActions Turns.four_asked
  = [Shell (lit "pwd") None; Shell (lit "ls") None; Shell (lit "whoami") None;
     Shell (lit "date") None]
  /\ Demo.shell_log (ext w') = [lit "pwd"; lit "ls"; lit "whoami"]
  /\ replies w' = [lit "Done."].
Proof. repeat split; vm_compute; reflexivity. Qed.

(* ===================================================================== *)
(** * 14. Properties of persona parsing                                   *)
(* ===================================================================== *)

Example parsePersonaInput_free_speech :
  Persona.parsePersonaInput (lit "GnamiBot, Francais Quebecois, Mon nom c'est Gabriel")
  = Persona.mkPersona (Some (lit "GnamiBot")) (Some (lit "Gabriel"))
      (Some (lit "Francais Quebecois")).
Proof. vm_compute. reflexivity. Qed.

Example parsePersonaInput_pairs :
  Persona.parsePersonaInput (lit "assistant: Bob; lang=English, user_name : Al")
  = Persona.mkPersona (Some (lit "Bob")) (Some (lit "Al")) (Some (lit "English")).
Proof. vm_compute. reflexivity. Qed.

Example isIdentityQuestion_samples :
  Persona.isIdentityQuestion (lit "hey, Who are YOU?") = true
  /\ Persona.isIdentityQuestion (lit "what is your name") = true
  /\ Persona.isIdentityQuestion (lit "whoare you") = false
  /\ Persona.isIdentityQuestion (lit "in your names") = false.
Proof. repeat split; vm_compute; reflexivity. Qed.

(** The sentence sent by a sender whose persona is incomplete completes
    it: the assistant keeps the name it had. *)
Example french_sentence_completes_setup :
  let w' := (handleInbound Demo.scripted Turns.french Turns.newcomer_world).2 in
  replies w'
  = [lit "Setup complete. I am GnamiBot. I will speak francais. Nice to meet you, Gabriel."]
  /\ map direction (messages (store w')) = [inbound; outbound].
Proof. split; vm_compute; reflexivity. Qed.

(** C8. The French sentence gives the user name Gabriel and a language
    holding francais, and leaves the assistant name unset. *)
Theorem parsePersonaInput_french_sentence :
  let parsed := Persona.parsePersonaInput (lit "Mon nom c'est Gabriel, je parle francais") in
  Persona.userName parsed = Some (lit "Gabriel")
  /\ (exists l, Persona.language parsed = Some l /\ Js.includes l (lit "francais") = true)
  /\ Persona.assistantName parsed = None.
Proof.
  split; [vm_compute; reflexivity|].
  split; [|vm_compute; reflexivity].
  exists (lit "francais"). split; vm_compute; reflexivity.
Qed.

(* ===================================================================== *)
(** * 15. Properties of the turn handler                                  *)
(* ===================================================================== *)

Section HandlerFacts.
Context {E : Type} `{Collaborators E}.

Lemma bind_ext {S A B} (c : M S A) (k1 k2 : A -> M S B) (s : S) :
  (forall a s', k1 a s' = k2 a s') -> bind c k1 s = bind c k2 s.
Proof. intros Hk. unfold bind. destruct (c s) as [[a|err] s']; auto. Qed.

Lemma bind_ok {S A B} (c : M S A) (k : A -> M S B) (s s' : S) (a : A) :
  c s = (Ok a, s') -> bind c k s = k a s'.
Proof. intros Hc. unfold bind. by rewrite Hc. Qed.

Lemma outside_ok {A} (c : M E A) (w : World E) (a : A) (e : E) :
  c (ext w) = (Ok a, e) ->
  outside c w = (Ok a, mkWorld (store w) (config_assistantName w) (replies w) e).
Proof. intros Hc. unfold outside. by rewrite Hc. Qed.

Lemma upsertPairing_existing ch sender (w : World E) row :
  pairings (store w) !! (ch, sender) = Some row ->
  upsertPairing ch sender w = (Ok (approved row, code row), w).
Proof.
  intros Hrow. unfold upsertPairing, bind, get_state, ret. by rewrite Hrow.
Qed.

Lemma upsertPairing_new ch sender (w : World E) :
  pairings (store w) !! (ch, sender) = None ->
  let drawn := randomInt 100000 999999 (ext w) in
  upsertPairing ch sender w
  = (Ok (false, decimal drawn.1),
     mkWorld
       (StoreOps.set_pairings
          (insert (ch, sender) (mkPairing false (decimal drawn.1) (now drawn.2)))
          (store w))
       (config_assistantName w) (replies w) drawn.2).
Proof.
  intros Hnone drawn. unfold upsertPairing, bind, get_state, ret. rewrite Hnone.
  unfold generatePairingCode, bind, outside, ret, with_store. simpl.
  subst drawn. destruct (randomInt 100000 999999 (ext w)) as [n e'] eqn:Hdraw. simpl.
  unfold StoreOps.upsertPairing. simpl. rewrite Hnone. reflexivity.
Qed.

End HandlerFacts.

Section PairingGate.
Context {E : Type} `{Collaborators E}.
Variable respond : AgentRequest -> M E jstring.

(** C4. When the sender's pairing is not approved, the turn ends with one
    reply, the approval instruction naming the channel and the code of the
    sender's pairing row; no session and no message is written, no memory
    event either, every other pairing row is as before, and a pairing row
    that existed keeps its code. *)
Theorem unapproved_sender_gets_pairing_instruction
  (message : InboundMessage) (w : World E) :
  (forall row,
     pairings (store w) !! (channel message, senderId message) = Some row ->
     approved row = false) ->
  exists w' row,
    handleInbound respond message w = (Ok tt, w')
    /\ pairings (store w') !! (channel message, senderId message) = Some row
    /\ approved row = false
    /\ replies w'
       = replies w
         ++ [lit "Pairing required. Approve with: gnamiai pairing approve "
             ++ channel_name (channel message) ++ lit " " ++ code row]
    /\ sessions (store w') = sessions (store w)
    /\ sessions_seq (store w') = sessions_seq (store w)
    /\ messages (store w') = messages (store w)
    /\ messages_seq (store w') = messages_seq (store w)
    /\ memory_events (store w') = memory_events (store w)
    /\ config_assistantName w' = config_assistantName w
    /\ (forall key, key <> (channel message, senderId message) ->
          pairings (store w') !! key = pairings (store w) !! key)
    /\ (forall row0,
          pairings (store w) !! (channel message, senderId message) = Some row0 ->
          row = row0 /\ store w' = store w /\ ext w' = ext w).
Proof.
  intros Hpending.
  destruct (pairings (store w) !! (channel message, senderId message)) as [row0|] eqn:Hrow.
  - pose proof (Hpending row0 eq_refl) as Hfalse.
    eexists _, row0.
    split.
    { unfold handleInbound, try_catch, handle_body.
      rewrite (bind_ok _ _ _ _ _ (upsertPairing_existing _ _ _ _ Hrow)).
      simpl. rewrite Hfalse. simpl. unfold reply, modify. reflexivity. }
    simpl. repeat split; auto.
    congruence.
  - eexists _, _.
    split.
    { unfold handleInbound, try_catch, handle_body.
      rewrite (bind_ok _ _ _ _ _ (upsertPairing_new _ _ _ Hrow)).
      simpl. unfold reply, modify. reflexivity. }
    simpl. split; [apply lookup_insert_eq|].
    repeat split; auto.
    + intros key Hkey. by apply lookup_insert_ne.
    + discriminate.
    + discriminate.
    + discriminate.
Qed.

End PairingGate.

Lemma unapproved_sender_witness :
  exists w' row,
    handleInbound Demo.scripted (Demo.says (lit "hello"))
      (Demo.world Demo.pending_row [] []) = (Ok tt, w')
    /\ pairings (store w') !! (webchat, Demo.gabriel) = Some row
    /\ replies w'
       = [lit "Pairing required. Approve with: gnamiai pairing approve webchat 424242"]
    /\ sessions (store w') = [] /\ messages (store w') = [].
Proof.
  destruct (unapproved_sender_gets_pairing_instruction Demo.scripted
              (Demo.says (lit "hello")) (Demo.world Demo.pending_row [] []))
    as (w' & row & Hrun & Hrow & _ & Hreply & Hs & _ & Hm & _ & _ & _ & _ & Hsame).
  - intros row Hrow. vm_compute in Hrow. injection Hrow as <-. reflexivity.
  - exists w', row. split; [exact Hrun|]. split; [exact Hrow|].
    destruct (Hsame Demo.pending_row) as [-> _]; [vm_compute; reflexivity|].
    split; [exact Hreply|]. split; [exact Hs | exact Hm].
Defined.

Section Conversation.
Context {E : Type} `{Collaborators E}.

Lemma with_store_run {A} (f : jstring -> Store -> A * Store) (w : World E) :
  with_store f w
  = (Ok (f (now (ext w)) (store w)).1,
     mkWorld (f (now (ext w)) (store w)).2 (config_assistantName w) (replies w) (ext w)).
Proof. unfold with_store. destruct (f (now (ext w)) (store w)). reflexivity. Qed.

Lemma addMessage_run sid d text (w : World E) :
  addMessage sid d text w
  = ((StoreOps.addMessage sid d text (now (ext w)) (store w)).1,
     mkWorld (StoreOps.addMessage sid d text (now (ext w)) (store w)).2
       (config_assistantName w) (replies w) (ext w)).
Proof.
  unfold addMessage. destruct (StoreOps.addMessage _ _ _ _ _). reflexivity.
Qed.

Lemma addMessage_ok sid d text ts st :
  StoreOps.has_session sid st = true ->
  StoreOps.addMessage sid d text ts st
  = (Ok (messages_seq st + 1)%N,
     mkStore (pairings st) (sessions st) (sessions_seq st)
       (messages st ++ [mkMessage (messages_seq st + 1) sid d (Utf8.stored text) ts])
       (messages_seq st + 1) (memory_events st)).
Proof. intros Hs. unfold StoreOps.addMessage. by rewrite Hs. Qed.

Lemma addMessage_Ok_inv sid d text ts st mid st' :
  StoreOps.addMessage sid d text ts st = (Ok mid, st') ->
  StoreOps.has_session sid st = true /\ StoreOps.has_session sid st' = true.
Proof.
  unfold StoreOps.addMessage. destruct (StoreOps.has_session sid st) eqn:Hs; [|discriminate].
  intros [= _ <-]. split; [reflexivity | exact Hs].
Qed.

(** The memory write after a reply never fails the turn and touches
    nothing but the memory events and the outside. *)
Lemma remember_ok userScopedId user_text reply_text prefix (w : World E) :
  exists w',
    remember userScopedId user_text reply_text prefix w = (Ok tt, w')
    /\ replies w' = replies w
    /\ pairings (store w') = pairings (store w)
    /\ sessions (store w') = sessions (store w)
    /\ messages (store w') = messages (store w)
    /\ config_assistantName w' = config_assistantName w.
Proof.
  unfold remember, try_catch, bind, outside.
  destruct (memory_addConversationMemory userScopedId user_text reply_text (ext w))
    as [[backend|err] e']; unfold addMemoryEvent; rewrite with_store_run; simpl;
    eexists; repeat split.
Qed.

Lemma handle_body_conversing respond message (w : World E) sid hist memoryCtx w3 :
  conversing message w sid hist memoryCtx w3 ->
  handle_body respond message w
  = (if Persona.isIdentityQuestion (msg_content message)
     then identity_reply message sid
            (channel_name (channel message) ++ lit ":" ++ senderId message)
     else round_trip respond message sid hist memoryCtx
            (channel_name (channel message) ++ lit ":" ++ senderId message)) w3.
Proof.
  intros (row & st1 & mid & st2 & e1 & persona & e2 & Hrow & Happ & Hinst & Hrest
          & Hsess & Hadd & Hhist & Hctx & Hpers & Huser & Hlang & Hw3).
  unfold handle_body.
  rewrite (bind_ok _ _ _ _ _ (upsertPairing_existing _ _ _ _ Hrow)).
  cbn [fst snd]. rewrite Happ. cbn [negb]. rewrite Hinst, Hrest.
  unfold bind at 1. unfold getOrCreateSession. rewrite Hsess.
  unfold in_session.
  unfold bind at 1. rewrite addMessage_run.
  cbn [ext store config_assistantName replies]. rewrite Hadd. cbn [fst snd].
  unfold bind at 1. unfold getRecentMessages, bind, get_state, ret.
  cbn [ext store config_assistantName replies]. rewrite <- Hhist.
  unfold outside at 1. cbn [ext store config_assistantName replies]. rewrite Hctx.
  unfold config_name, bind, get_state, ret.
  cbn [ext store config_assistantName replies].
  unfold outside at 1. cbn [ext store config_assistantName replies]. rewrite Hpers.
  rewrite Huser, Hlang. cbn [negb orb]. subst w3. reflexivity.
Qed.

End Conversation.

Section FirstParagraph.

Lemma trimStart_head s c r : Js.trimStart s = c :: r -> Js.is_space c = false.
Proof.
  induction s as [|x s IH]; simpl; [discriminate|].
  destruct (Js.is_space x) eqn:Hx; [exact IH|]. by intros [= <- _].
Qed.

Lemma trimStart_snoc l c :
  Js.is_space c = false -> exists l', Js.trimStart (l ++ [c]) = l' ++ [c].
Proof.
  intros Hc. induction l as [|x l [l' IH]]; simpl.
  - rewrite Hc. by exists [].
  - destruct (Js.is_space x); [by exists l'|]. by exists (x :: l).
Qed.

Lemma trimEnd_cons c x :
  Js.is_space c = false -> exists y, Js.trimEnd (c :: x) = c :: y.
Proof.
  intros Hc. unfold Js.trimEnd. simpl.
  destruct (trimStart_snoc (rev x) c Hc) as [l' ->].
  exists (rev l'). by rewrite rev_app_distr.
Qed.

Lemma trim_cons c x : Js.is_space c = false -> exists y, Js.trim (c :: x) = c :: y.
Proof.
  intros Hc. unfold Js.trim. simpl. rewrite Hc. by apply trimEnd_cons.
Qed.

Lemma trim_head s c r : Js.trim s = c :: r -> Js.is_space c = false.
Proof.
  unfold Js.trim. destruct (Js.trimStart s) as [|c0 r0] eqn:Hs; [discriminate|].
  pose proof (trimStart_head _ _ _ Hs) as Hc0.
  destruct (trimEnd_cons c0 r0 Hc0) as [y ->]. by intros [= <- _].
Qed.

(** A text that starts with a non-space character starts its own first
    paragraph. *)
Lemma first_paragraph_head c r :
  Js.is_space c = false ->
  exists g,
    head (Re.split Re.plain (Re.seq [Re.Chr Persona.nl; Persona.sp0; Re.Chr Persona.nl])
            (c :: r)) = Some (c :: g).
Proof.
  intros Hc. unfold Re.split, Re.gaps. cbn [length Re.scan].
  change (Re.seq [Re.Chr Persona.nl; Persona.sp0; Re.Chr Persona.nl])
    with (Re.Seq (Re.Chr Persona.nl) (Re.Seq Persona.sp0 (Re.Chr Persona.nl))).
  set (para := Re.Seq (Re.Chr Persona.nl) (Re.Seq Persona.sp0 (Re.Chr Persona.nl))).
  assert (Hhere : Re.match_here Re.plain para None (c :: r) = None).
  { unfold Re.match_here, para. cbn [Re.m Re.rest]. unfold Re.chr_eq.
    cbn [Re.ignoreCase Re.plain].
    destruct (N.eqb Persona.nl c) eqn:Hnl; [|reflexivity].
    apply N.eqb_eq in Hnl. subst c. discriminate Hc. }
  cbn [Re.search]. rewrite Hhere.
  destruct (Re.search Re.plain para (Some c) r) as [f|]; cbn [fmap option_fmap option_map].
  - cbn [Re.push_before Re.matched Re.after_prev Re.after].
    destruct (Re.matched f); [by exists r|].
    destruct (Re.scan _ _ _ _ _) as [fs tail]. by eexists.
  - by exists r.
Qed.

End FirstParagraph.

Section IdentityQuestion.
Context {E : Type} `{Collaborators E}.

Lemma conversing_frame message (w : World E) sid hist memoryCtx w3 :
  conversing message w sid hist memoryCtx w3 ->
  config_assistantName w3 = config_assistantName w /\ replies w3 = replies w.
Proof.
  intros (? & ? & ? & ? & ? & ? & ? & Hc).
  destruct Hc as (_ & _ & _ & _ & _ & _ & _ & _ & _ & _ & _ & ->). auto.
Qed.

Lemma conversing_session message (w : World E) sid hist memoryCtx w3 :
  conversing message w sid hist memoryCtx w3 ->
  StoreOps.has_session sid (store w3) = true.
Proof.
  intros (? & ? & ? & ? & ? & ? & ? & Hc).
  destruct Hc as (_ & _ & _ & _ & _ & Hadd & _ & _ & _ & _ & _ & ->).
  cbn [store]. by apply addMessage_Ok_inv in Hadd as [_ ?].
Qed.

Lemma handle_body_identity_ext respond1 respond2 message (w : World E) :
  Persona.isIdentityQuestion (msg_content message) = true ->
  handle_body respond1 message w = handle_body respond2 message w.
Proof.
  intros Hq. unfold handle_body.
  apply bind_ext. intros pairing w1.
  destruct (negb pairing.1); [reflexivity|].
  destruct (Js.startsWith _ (lit "/skill install ")); [reflexivity|].
  destruct (Js.startsWith _ (lit "/skill restore ")); [reflexivity|].
  apply bind_ext. intros sid w2. unfold in_session.
  apply bind_ext. intros _ w3.
  apply bind_ext. intros hist w4.
  apply bind_ext. intros memoryCtx w5.
  apply bind_ext. intros cfg w6.
  apply bind_ext. intros persona w7.
  destruct (negb _ || negb _); [reflexivity|].
  rewrite Hq. reflexivity.
Qed.


End IdentityQuestion.

Lemma conversing_identity_sample :
  conversing Turns.who Turns.identity_world 1
    (Turns.heard Turns.who Turns.identity_world) []
    (Turns.after_inbound Turns.who Turns.identity_world).
Proof.
  unfold conversing. do 7 eexists.
  split; [vm_compute; reflexivity|].
  split; [reflexivity|].
  split; [vm_compute; reflexivity|].
  split; [vm_compute; reflexivity|].
  split; [vm_compute; reflexivity|].
  split; [vm_compute; reflexivity|].
  split; [reflexivity|].
  split; [vm_compute; reflexivity|].
  split; [vm_compute; reflexivity|].
  split; [vm_compute; reflexivity|].
  split; [vm_compute; reflexivity|].
  reflexivity.
Defined.


Section RoundTrip.
Context {E : Type} `{Collaborators E}.
Variable respond : AgentRequest -> M E jstring.

(** C6, as the code has it.  In the full round trip, when at least one
    action was executed and the second pass is empty once its action
    markup is stripped, the reply is the first pass with its action markup
    stripped when that text is not empty, and the generic sentence
    "Action completed." when it is empty too. *)
Theorem empty_second_pass_falls_back_to_first_pass
  (message : InboundMessage) (w : World E) sid hist memoryCtx w3
  workspaceContext e4 firstPass e5 results e6 secondPass e7 :
  conversing message w sid hist memoryCtx w3 ->
  Persona.isIdentityQuestion (msg_content message) = false ->
  buildWorkspaceContext (ext w3) = (Ok workspaceContext, e4) ->
  respond (first_request message hist memoryCtx workspaceContext) e4 = (Ok firstPass, e5) ->
  turn_actions firstPass <> [] ->
  executeAgentActions (turn_actions firstPass) true e5 = (Ok results, e6) ->
  respond (second_request message hist memoryCtx workspaceContext results) e6
  = (Ok secondPass, e7) ->
  stripAgentActions secondPass = [] ->
  exists w',
    handleInbound respond message w = (Ok tt, w')
    /\ replies w'
       = replies w
         ++ [if Js.truthy (stripAgentActions firstPass)
             then stripAgentActions firstPass
             else lit "Action completed."]
    /\ (stripAgentActions firstPass = [] ->
        replies w' = replies w ++ [lit "Action completed."]).
Proof.
  intros Hconv Hq Hctx Hfirst Hactions Hexec Hsecond Hempty.
  destruct (conversing_frame _ _ _ _ _ _ Hconv) as [Hcfg Hrep3].
  assert (Hrun : exists w',
            handleInbound respond message w = (Ok tt, w')
            /\ replies w'
               = replies w
                 ++ [if Js.truthy (stripAgentActions firstPass)
                     then stripAgentActions firstPass
                     else lit "Action completed."]).
  { unfold handleInbound, try_catch.
    rewrite (handle_body_conversing respond message w sid hist memoryCtx w3 Hconv), Hq.
    unfold round_trip.
    rewrite (bind_ok _ _ _ _ _ (outside_ok _ _ _ _ Hctx)).
    unfold bind at 1. unfold outside at 1. cbn [ext]. rewrite Hfirst.
    destruct (turn_actions firstPass) as [|a rest] eqn:Hta; [congruence|].
    unfold bind at 1. unfold bind at 1. unfold outside at 1. cbn [ext]. rewrite Hexec.
    unfold bind at 1. unfold outside at 1. cbn [ext]. rewrite Hsecond.
    unfold ret at 1. rewrite Hempty. unfold first_truthy. cbn [Js.truthy].
    unfold bind at 1. rewrite addMessage_run.
    cbn [ext store config_assistantName replies].
    rewrite (addMessage_ok _ _ _ _ _ (conversing_session _ _ _ _ _ _ Hconv)).
    cbn [fst snd].
    unfold bind at 1.
    match goal with
    | |- context [remember ?a ?b ?c ?d ?x] =>
        destruct (remember_ok a b c d x) as (w4 & Hrem & Hrep & _)
    end.
    rewrite Hrem. unfold reply, modify.
    eexists. split; [reflexivity|].
    cbn [replies]. rewrite Hrep. cbn [replies]. by rewrite Hrep3. }
  destruct Hrun as (w' & Hrun & Hrep).
  exists w'. split; [exact Hrun|]. split; [exact Hrep|].
  intros Hnone. rewrite Hrep, Hnone. reflexivity.
Qed.

End RoundTrip.

Lemma conversing_round_trip_sample :
  conversing Turns.list_files Turns.round_trip_world 1
    (Turns.heard Turns.list_files Turns.round_trip_world) []
    (Turns.after_inbound Turns.list_files Turns.round_trip_world).
Proof.
  unfold conversing. do 7 eexists.
  split; [vm_compute; reflexivity|].
  split; [reflexivity|].
  split; [vm_compute; reflexivity|].
  split; [vm_compute; reflexivity|].
  split; [vm_compute; reflexivity|].
  split; [vm_compute; reflexivity|].
  split; [reflexivity|].
  split; [vm_compute; reflexivity|].
  split; [vm_compute; reflexivity|].
  split; [vm_compute; reflexivity|].
  split; [vm_compute; reflexivity|].
  reflexivity.
Defined.

Lemma empty_second_pass_witness :
  exists w',
    handleInbound Demo.scripted Turns.list_files Turns.round_trip_world = (Ok tt, w')
    /\ replies w' = [lit "Listing."].
Proof.
  destruct (empty_second_pass_falls_back_to_first_pass Demo.scripted
              Turns.list_files Turns.round_trip_world _ _ _ _
              (lit "(workspace)")
              (Demo.env [Turns.first_pass; Turns.second_pass])
              Turns.first_pass
              (Demo.env [Turns.second_pass])
              [mkResult (Shell (lit "ls") None) true (lit "(no output)")]
              (Demo.mkEnv (lit "2026-01-02T00:00:00.000Z") Demo.memory_complete Demo.soul
                 [Turns.second_pass] [lit "ls"])
              Turns.second_pass
              (Demo.ran [lit "ls"])
              conversing_round_trip_sample)
    as (w' & Hrun & Hrep & _).
  - vm_compute. reflexivity.
  - reflexivity.
  - reflexivity.
  - vm_compute. discriminate.
  - vm_compute. reflexivity.
  - reflexivity.
  - vm_compute. reflexivity.
  - exists w'. split; [exact Hrun|]. rewrite Hrep. vm_compute. reflexivity.
Defined.

(** C6 as stated fails: one action was executed and the second pass is
    empty once stripped, yet the reply is the text of the first pass. *)
Lemma action_completed_counterexample :
  let w' := (handleInbound Demo.scripted Turns.list_files Turns.round_trip_world).2 in
  turn_actions Turns.first_pass = [Shell (lit "ls") None]
  /\ Demo.shell_log (ext w') = [lit "ls"]
  /\ stripAgentActions Turns.second_pass = []
  /\ replies w' = [lit "Listing."]
  /\ replies w' <> [lit "Action completed."].
Proof.
  repeat split; try (vm_compute; reflexivity).
  vm_compute. discriminate.
Qed.

Section SessionRefresh.
Context {E : Type} `{Collaborators E}.

Local Abbreviation keeps := (keeps_sessions (E := E)).

Lemma keeps_ret {A} (a : A) : keeps (ret a).
Proof. intros w. reflexivity. Qed.

Lemma keeps_bind {A B} (c : M (World E) A) (k : A -> M (World E) B) :
  keeps c -> (forall a, keeps (k a)) -> keeps (bind c k).
Proof.
  intros Hc Hk w. unfold bind. specialize (Hc w).
  destruct (c w) as [[a|err] w1]; simpl in *; [|exact Hc].
  by rewrite (Hk a w1).
Qed.

Lemma keeps_try_catch {A} (c : M (World E) A) (h : thrown -> M (World E) A) :
  keeps c -> (forall e, keeps (h e)) -> keeps (try_catch c h).
Proof.
  intros Hc Hh w. unfold try_catch. specialize (Hc w).
  destruct (c w) as [[a|err] w1]; simpl in *; [exact Hc|].
  by rewrite (Hh err w1).
Qed.

Lemma keeps_outside {A} (c : M E A) : keeps (outside c).
Proof. intros w. unfold outside. destruct (c (ext w)). reflexivity. Qed.

Lemma keeps_reply text : keeps (reply text).
Proof. intros w. reflexivity. Qed.

Lemma keeps_addMessage sid d text : keeps (addMessage sid d text).
Proof.
  intros w. rewrite addMessage_run. cbn [snd store]. unfold StoreOps.addMessage.
  by destruct (StoreOps.has_session _ _).
Qed.

Lemma keeps_addMemoryEvent key st d : keeps (addMemoryEvent key st d).
Proof. intros w. unfold addMemoryEvent. rewrite with_store_run. reflexivity. Qed.

Lemma keeps_getRecentMessages sid n : keeps (getRecentMessages sid n).
Proof. intros w. reflexivity. Qed.

Lemma keeps_config_name : keeps config_name.
Proof. intros w. reflexivity. Qed.

Lemma keeps_set_config_name n : keeps (set_config_name n).
Proof. intros w. reflexivity. Qed.

Ltac keeps_step :=
  first
    [ apply keeps_ret | apply keeps_outside | apply keeps_reply
    | apply keeps_addMessage | apply keeps_addMemoryEvent
    | apply keeps_getRecentMessages | apply keeps_config_name
    | apply keeps_set_config_name
    | apply keeps_bind; [|intros ?]
    | apply keeps_try_catch; [|intros ?]
    | match goal with
      | |- keeps_sessions (if ?b then _ else _) => destruct b
      | |- keeps_sessions (match ?x with _ => _ end) => destruct x
      end ].

Lemma keeps_remember uid a b prefix : keeps (remember uid a b prefix).
Proof. unfold remember. repeat keeps_step. Qed.

Lemma keeps_applyPersonaSetup updates : keeps (applyPersonaSetup updates).
Proof. unfold applyPersonaSetup. repeat keeps_step. Qed.

Lemma keeps_persona_gate sid persona parsed :
  keeps (persona_gate sid persona parsed).
Proof.
  unfold persona_gate.
  destruct (negb _ && negb _ && negb _).
  - repeat keeps_step.
  - apply keeps_bind; [apply keeps_applyPersonaSetup|]. intros updated.
    destruct (negb _ || negb _); repeat keeps_step.
Qed.

Lemma keeps_identity_reply message sid uid :
  keeps (identity_reply message sid uid).
Proof.
  unfold identity_reply.
  apply keeps_bind; [apply keeps_outside|]. intros soulDoc.
  apply keeps_bind; [apply keeps_config_name|]. intros cfg.
  apply keeps_bind; [apply keeps_outside|]. intros name.
  apply keeps_bind; [apply keeps_addMessage|]. intros _.
  apply keeps_bind; [apply keeps_remember|]. intros _.
  apply keeps_reply.
Qed.

Lemma keeps_round_trip respond message sid hist memoryCtx uid :
  keeps (round_trip respond message sid hist memoryCtx uid).
Proof.
  unfold round_trip.
  apply keeps_bind; [apply keeps_outside|]. intros workspaceContext.
  apply keeps_bind; [apply keeps_outside|]. intros firstPass.
  apply keeps_bind.
  { destruct (turn_actions firstPass); repeat keeps_step. }
  intros assistant.
  apply keeps_bind; [apply keeps_addMessage|]. intros _.
  apply keeps_bind; [apply keeps_remember|]. intros _.
  apply keeps_reply.
Qed.

Lemma keeps_in_session respond message uid sid :
  keeps (in_session respond message uid sid).
Proof.
  unfold in_session.
  apply keeps_bind; [apply keeps_addMessage|]. intros _.
  apply keeps_bind; [apply keeps_getRecentMessages|]. intros hist.
  apply keeps_bind; [apply keeps_outside|]. intros memoryCtx.
  apply keeps_bind; [apply keeps_config_name|]. intros cfg.
  apply keeps_bind; [apply keeps_outside|]. intros persona.
  destruct (negb _ || negb _); [apply keeps_persona_gate|].
  destruct (Persona.isIdentityQuestion _);
    [apply keeps_identity_reply | apply keeps_round_trip].
Qed.

Lemma session_is_touch ch sender ts r :
  StoreOps.session_is ch sender (StoreOps.touch ch sender ts r)
  = StoreOps.session_is ch sender r.
Proof.
  unfold StoreOps.touch. destruct (StoreOps.session_is ch sender r) eqn:Hr; [|exact Hr].
  exact Hr.
Qed.

Lemma getOrCreateSession_refreshed ch sender ts st :
  refreshed ch sender ts (sessions (StoreOps.getOrCreateSession ch sender ts st).2).
Proof.
  unfold StoreOps.getOrCreateSession, StoreOps.find_session.
  destruct (list_find _ (sessions st)) as [[i r0]|] eqn:Hfind; cbn [fmap option_fmap option_map].
  - apply list_find_Some in Hfind as (Hi & Hr0 & _).
    assert (Hrows : refreshed ch sender ts (map (StoreOps.touch ch sender ts) (sessions st))).
    { split.
      - exists (StoreOps.touch ch sender ts r0). split.
        + apply list_elem_of_fmap. exists r0. split; [reflexivity|].
          by apply list_elem_of_lookup_2 in Hi.
        + by rewrite session_is_touch.
      - intros r Hin Hr. apply list_elem_of_fmap in Hin as (r1 & -> & _).
        rewrite session_is_touch in Hr. unfold StoreOps.touch. rewrite Hr. reflexivity. }
    cbn [sessions]. destruct (list_find _ _) as [[j r1]|]; exact Hrows.
  - apply list_find_None in Hfind. cbn [snd sessions]. split.
    + eexists. split; [apply elem_of_app; right; left|].
      unfold StoreOps.session_is. cbn [s_channel s_senderId].
      rewrite bool_decide_true by reflexivity.
      unfold jstr_eqb. by rewrite bool_decide_true.
    + intros r Hin Hr. apply elem_of_app in Hin as [Hin|Hin].
      * rewrite Forall_forall in Hfind. exfalso. by apply (Hfind r Hin).
      * apply list_elem_of_singleton in Hin as ->. reflexivity.
Qed.

Lemma keeps_with_store_pairings {A}
  (f : jstring -> Store -> A * Store) :
  (forall ts st, sessions (f ts st).2 = sessions st) -> keeps (with_store f).
Proof. intros Hf w. rewrite with_store_run. cbn [snd store]. apply Hf. Qed.

Lemma keeps_upsertPairing ch sender : keeps (upsertPairing ch sender).
Proof.
  unfold upsertPairing. apply keeps_bind; [intros w; reflexivity|]. intros w0.
  destruct (pairings (store w0) !! (ch, sender)); [apply keeps_ret|].
  apply keeps_bind.
  - unfold generatePairingCode. repeat keeps_step.
  - intros fresh. apply keeps_with_store_pairings. intros ts st.
    unfold StoreOps.upsertPairing. by destruct (pairings st !! (ch, sender)).
Qed.

Lemma keeps_skill_install message uid : keeps (skill_install message uid).
Proof. unfold skill_install. repeat keeps_step. Qed.

Lemma keeps_skill_restore message uid : keeps (skill_restore message uid).
Proof. unfold skill_restore. repeat keeps_step. Qed.

Variable respond : AgentRequest -> M E jstring.

(** C9, as the code has it.  When the sender is approved and the message
    is neither a skill install nor a skill restore command, the turn
    leaves a Session row for the sender, and every Session row of the
    sender carries as [updatedAt] the time at which the turn began,
    whatever happens later in the turn.  A turn that ends at the pairing
    gate (the sender is not approved) or in a skill command leaves the
    Session table as it found it. *)
Theorem session_refreshed_past_the_gates (message : InboundMessage) (w : World E) :
  let w' := (handleInbound respond message w).2 in
  let approved_sender :=
    exists row,
      pairings (store w) !! (channel message, senderId message) = Some row
      /\ approved row = true in
  let skill_command :=
    Js.startsWith (msg_content message) (lit "/skill install ")
    || Js.startsWith (msg_content message) (lit "/skill restore ") in
  (approved_sender -> skill_command = false ->
   refreshed (channel message) (senderId message) (now (ext w)) (sessions (store w')))
  /\ (~ approved_sender -> sessions (store w') = sessions (store w))
  /\ (skill_command = true -> sessions (store w') = sessions (store w)).
Proof.
  intros w' approved_sender skill_command. subst w'. split; [|split].
  - intros (row & Hrow & Happ) Hcmd.
    apply orb_false_iff in Hcmd as [Hinst Hrest].
    pose proof (getOrCreateSession_refreshed (channel message) (senderId message)
                  (now (ext w)) (store w)) as Href.
    unfold handleInbound, try_catch, handle_body.
    rewrite (bind_ok _ _ _ _ _ (upsertPairing_existing _ _ _ _ Hrow)).
    cbn [fst snd]. rewrite Happ. cbn [negb]. rewrite Hinst, Hrest.
    unfold bind at 1. unfold getOrCreateSession.
    destruct (StoreOps.getOrCreateSession _ _ _ _) as [[sid|err] st1] eqn:Hsess;
      cbn [snd] in Href.
    + match goal with
      | |- context [in_session ?r ?m ?u ?s ?x] =>
          pose proof (keeps_in_session r m u s x) as Hkeep;
          destruct (in_session r m u s x) as [[[]|err] w2]
      end; cbn [snd store sessions] in *.
      * by rewrite Hkeep.
      * unfold reply, modify. cbn [snd store]. by rewrite Hkeep.
    + unfold reply, modify. cbn [snd store]. exact Href.
  - intros Hnot. unfold handleInbound, try_catch, handle_body.
    destruct (pairings (store w) !! (channel message, senderId message))
      as [row|] eqn:Hrow.
    + destruct (approved row) eqn:Happ; [exfalso; apply Hnot; by exists row|].
      rewrite (bind_ok _ _ _ _ _ (upsertPairing_existing _ _ _ _ Hrow)).
      cbn [fst snd]. rewrite Happ. reflexivity.
    + rewrite (bind_ok _ _ _ _ _ (upsertPairing_new _ _ _ Hrow)). reflexivity.
  - intros Hcmd.
    assert (Hkeep : keeps (handleInbound respond message)).
    { unfold handleInbound, handle_body.
      apply keeps_try_catch; [|intros error; apply keeps_reply].
      apply keeps_bind; [apply keeps_upsertPairing|]. intros pairing.
      destruct (negb pairing.1); [apply keeps_reply|].
      subst skill_command.
      destruct (Js.startsWith _ (lit "/skill install ")); [apply keeps_skill_install|].
      destruct (Js.startsWith _ (lit "/skill restore ")); [apply keeps_skill_restore|].
      discriminate Hcmd. }
    apply Hkeep.
Qed.

End SessionRefresh.

Lemma session_refreshed_witness :
  refreshed (channel Turns.who) (senderId Turns.who) (now (ext Turns.identity_world))
    (sessions (store (handleInbound Demo.scripted Turns.who Turns.identity_world).2)).
Proof.
  apply (proj1 (session_refreshed_past_the_gates Demo.scripted Turns.who
                  Turns.identity_world)).
  - exists Demo.approved_row. split; [vm_compute; reflexivity | reflexivity].
  - vm_compute. reflexivity.
Defined.

(** C9 as stated fails: the handler processes a skill restore command of
    an approved sender and the sender's Session row keeps the time of the
    day before; for a sender not yet approved there is no row at all. *)
Lemma session_not_refreshed_counterexample :
  let w' := (handleInbound Demo.scripted Turns.restore_notes Turns.identity_world).2 in
  let w'' := (handleInbound Demo.scripted (Demo.says (lit "hello"))
                (Demo.world Demo.pending_row [] [])).2 in
  msg_content Turns.restore_notes = Js.trim (lit "/skill restore notes")
  /\ replies w' = [dq "No remembered skill found for 'notes'."]
  /\ sessions (store w') = [Demo.old_session]
  /\ now (ext Turns.identity_world) = lit "2026-01-02T00:00:00.000Z"
  /\ updatedAt Demo.old_session = lit "2026-01-01T00:00:00.000Z"
  /\ ~ refreshed webchat Demo.gabriel (now (ext Turns.identity_world))
         (sessions (store w'))
  /\ sessions (store w'') = [].
Proof.
  repeat split; try (vm_compute; reflexivity).
  intros [_ Hall].
  specialize (Hall Demo.old_session).
  assert (Hbad : updatedAt Demo.old_session = now (ext Turns.identity_world)).
  { apply Hall; [|vm_compute; reflexivity].
    change (sessions (store (handleInbound Demo.scripted Turns.restore_notes
                               Turns.identity_world).2)) with [Demo.old_session].
    left. }
  vm_compute in Hbad. discriminate.
Qed.

(* ===================================================================== *)
(** * 16. Properties of the remote-debug session                          *)
(* ===================================================================== *)

Module CdpFacts.
Import Cdp.

Section Session.
Variable to_String : json -> jstring.
Variable JSON_stringify : N -> jstring -> json -> jstring.

Local Abbreviation on_message := (Cdp.on_message to_String).
Local Abbreviation command := (Cdp.command JSON_stringify).
Local Abbreviation step := (Cdp.step to_String JSON_stringify).
Local Abbreviation run := (Cdp.run to_String JSON_stringify).

Lemma settle_other p o (ps : gmap N Outcome) i :
  p <> i -> settle p o ps !! i = ps !! i.
Proof.
  intros Hne. unfold settle. destruct (ps !! p); [reflexivity|].
  by apply lookup_insert_ne.
Qed.

Lemma settle_fresh p o (ps : gmap N Outcome) :
  ps !! p = None -> settle p o ps !! p = Some o.
Proof. intros Hnone. unfold settle. rewrite Hnone. apply lookup_insert_eq. Qed.

Lemma settle_dom p o (ps : gmap N Outcome) k o' :
  settle p o ps !! k = Some o' -> k = p \/ ps !! k = Some o'.
Proof.
  unfold settle. destruct (ps !! p) eqn:Hp; [auto|].
  destruct (decide (p = k)) as [->|Hne]; [auto|].
  rewrite lookup_insert_ne by done. auto.
Qed.

(** What the message listener can do to the session. *)
Lemma on_message_cases raw s :
  (on_message raw s).2 = s
  \/ exists key p outcome,
       carries raw key /\ pending s !! key = Some p
       /\ on_message raw s
          = (Ok tt,
             mkSession (ws s) (id s) (delete key (pending s)) (clock s) (timers s)
               (settle p outcome (promises s)) (sent s)).
Proof.
  unfold Cdp.on_message.
  destruct (Json.parse raw) as [payload|] eqn:Hparse; [|left; reflexivity].
  destruct (Json.get payload "id") as [pid|] eqn:Hid.
  2:{ left. destruct payload; reflexivity. }
  assert (Hnotnull : payload <> JNull) by (intros ->; discriminate).
  destruct (Json.falsy pid) eqn:Hfalsy.
  { left. destruct payload; reflexivity. }
  destruct pid as [| | n | | |]; try (left; destruct payload; reflexivity).
  destruct (as_id n) as [key|] eqn:Hkey;
    [|left; destruct payload; reflexivity].
  destruct (pending s !! key) as [p|] eqn:Hp;
    [|left; destruct payload; reflexivity].
  right. eexists key, p, _. split; [by exists payload, n|]. split; [exact Hp|].
  destruct payload; try reflexivity. congruence.
Qed.

Lemma on_timeout_fields t s :
  ws (on_timeout t s) = ws s /\ id (on_timeout t s) = id s
  /\ clock (on_timeout t s) = clock s /\ timers (on_timeout t s) = timers s.
Proof. unfold on_timeout. destruct (pending s !! t_id t); auto. Qed.

Lemma fold_timeout_fields ts s :
  let s' := fold_left (fun acc t => on_timeout t acc) ts s in
  ws s' = ws s /\ id s' = id s /\ clock s' = clock s /\ timers s' = timers s.
Proof.
  revert s. induction ts as [|t ts IH]; intros s; simpl; [auto|].
  destruct (IH (on_timeout t s)) as (-> & -> & -> & ->). apply on_timeout_fields.
Qed.

Lemma on_timeout_linked t s : linked s -> linked (on_timeout t s).
Proof.
  intros Hl. unfold on_timeout. destruct (pending s !! t_id t); [|exact Hl].
  intros k p. simpl. intros Hk.
  destruct (decide (t_id t = k)) as [<-|Hne].
  - by rewrite lookup_delete_eq in Hk.
  - rewrite lookup_delete_ne in Hk by done. by apply Hl.
Qed.

Lemma on_timeout_other i t s :
  linked s -> t_id t <> i ->
  pending (on_timeout t s) !! i = pending s !! i
  /\ promises (on_timeout t s) !! i = promises s !! i.
Proof.
  intros Hl Hne. unfold on_timeout.
  destruct (pending s !! t_id t) as [p|] eqn:Hp; [|auto]. simpl.
  apply Hl in Hp as Hpk. subst p.
  split; [by apply lookup_delete_ne | by apply settle_other].
Qed.

Lemma on_timeout_expired i method t s :
  linked s -> expired i method s -> expired i method (on_timeout t s).
Proof.
  intros Hl [Hpend Hprom].
  destruct (decide (t_id t = i)) as [Heq|Hne].
  - unfold on_timeout. rewrite Heq, Hpend. by split.
  - destruct (on_timeout_other i t s Hl Hne) as [Hp1 Hp2].
    split; congruence.
Qed.

Lemma fold_timeout_expired i method ts s :
  linked s -> expired i method s ->
  let s' := fold_left (fun acc t => on_timeout t acc) ts s in
  linked s' /\ expired i method s'.
Proof.
  revert s. induction ts as [|t ts IH]; intros s Hl He; simpl; [auto|].
  apply IH; [by apply on_timeout_linked | by apply on_timeout_expired].
Qed.

Lemma fold_timeout_skip i ts s :
  linked s -> (forall t, t ∈ ts -> t_id t <> i) ->
  let s' := fold_left (fun acc t => on_timeout t acc) ts s in
  linked s' /\ pending s' !! i = pending s !! i /\ promises s' !! i = promises s !! i.
Proof.
  revert s. induction ts as [|t ts IH]; intros s Hl Hts; simpl; [auto|].
  destruct (IH (on_timeout t s)) as (Hl' & Hp & Hq).
  - by apply on_timeout_linked.
  - intros t' Ht'. apply Hts. by right.
  - destruct (on_timeout_other i t s Hl) as [Hp1 Hp2]; [apply Hts; left|].
    split; [exact Hl'|]. split; congruence.
Qed.

Lemma fold_timeout_fire i method d ts s :
  linked s -> pending s !! i = Some i -> promises s !! i = None ->
  mkTimer d i method ∈ ts ->
  (forall t, t ∈ ts -> t_id t = i -> t = mkTimer d i method) ->
  let s' := fold_left (fun acc t => on_timeout t acc) ts s in
  linked s' /\ expired i method s'.
Proof.
  revert s. induction ts as [|t ts IH]; intros s Hl Hpend Hprom Hin Hts; simpl.
  - inversion Hin.
  - destruct (decide (t_id t = i)) as [Heq|Hne].
    + assert (t = mkTimer d i method) as -> by (apply Hts; [left|exact Heq]).
      apply fold_timeout_expired; [by apply on_timeout_linked|].
      unfold on_timeout. simpl. rewrite Hpend. split; simpl.
      * apply lookup_delete_eq.
      * by apply settle_fresh.
    + destruct (on_timeout_other i t s Hl Hne) as [Hp1 Hp2].
      apply IH.
      * by apply on_timeout_linked.
      * congruence.
      * congruence.
      * apply elem_of_cons in Hin as [Heq|Hin]; [|exact Hin].
        subst t. simpl in Hne. congruence.
      * intros t' Ht'. apply Hts. by right.
Qed.

Lemma advance_fields dt s :
  ws (advance dt s) = ws s /\ id (advance dt s) = id s
  /\ clock (advance dt s) = (clock s + dt)%N
  /\ timers (advance dt s)
     = filter (fun t => due (clock s + dt) t = false) (timers s).
Proof.
  unfold advance.
  match goal with
  | |- context [fold_left ?f ?ts ?s0] =>
      destruct (fold_timeout_fields ts s0) as (-> & -> & -> & ->)
  end.
  auto.
Qed.

Lemma tracked_step i method d ev s :
  tracked i method d s ->
  ev <> EClose -> (forall raw, ev = EFrame raw -> ~ carries raw i) ->
  tracked i method d (step ev s).
Proof.
  intros (Hid & Hl & Htim & Hstate) Hopen Hquiet.
  destruct ev as [raw | m params | dt |]; [| | |congruence]; simpl.
  - (* a frame for another call, or for none *)
    specialize (Hquiet raw eq_refl).
    destruct (on_message_cases raw s) as [->|(key & p & outcome & Hcar & Hp & ->)];
      [by repeat split|].
    assert (key <> i) as Hkey by (intros ->; contradiction).
    apply Hl in Hp as Hpk. subst p. simpl.
    split; [exact Hid|]. split.
    { intros k p Hk. simpl in Hk.
      destruct (decide (key = k)) as [<-|Hne].
      - by rewrite lookup_delete_eq in Hk.
      - rewrite lookup_delete_ne in Hk by done. by apply Hl. }
    split; [exact Htim|].
    destruct Hstate as [(Ha & Hb & Hc & Hd)|[Ha Hb]]; [left|right]; unfold awaiting, expired;
      simpl; rewrite lookup_delete_ne by done; rewrite settle_other by done; auto.
  - (* another command *)
    unfold Cdp.command. destruct (negb (ws s)); [by repeat split|]. simpl.
    assert ((id s + 1)%N <> i) as Hfresh by lia.
    split; [simpl; lia|]. split.
    { intros k p Hk. simpl in Hk.
      destruct (decide ((id s + 1)%N = k)) as [<-|Hne].
      - rewrite lookup_insert_eq in Hk. congruence.
      - rewrite lookup_insert_ne in Hk by done. by apply Hl. }
    split.
    { intros t Ht Hti. simpl in Ht. apply elem_of_app in Ht as [Ht|Ht]; [by apply Htim|].
      apply list_elem_of_singleton in Ht. subst t. simpl in Hti. congruence. }
    destruct Hstate as [(Ha & Hb & Hc & Hd)|[Ha Hb]]; [left|right]; unfold awaiting, expired;
      simpl; rewrite lookup_insert_ne by done; auto.
    repeat split; auto. apply elem_of_app. by left.
  - (* time passes *)
    destruct (advance_fields dt s) as (Hws & Hid' & Hclock & Htimers).
    assert (Htim' : forall t, t ∈ timers (advance dt s) -> t_id t = i ->
                      t = mkTimer d i method).
    { intros t Ht. rewrite Htimers in Ht. apply list_elem_of_filter in Ht as [_ Ht].
      by apply Htim. }
    unfold tracked. rewrite Hid'. unfold advance.
    set (now := (clock s + dt)%N) in *.
    set (s0 := mkSession (ws s) (id s) (pending s) now
                 (filter (fun t => due now t = false) (timers s)) (promises s) (sent s)).
    assert (Hl0 : linked s0) by exact Hl.
    destruct Hstate as [(Ha & Hb & Hc & Hd)|He].
    + destruct (due now (mkTimer d i method)) eqn:Hdue.
      * (* the timer of the call comes due *)
        destruct (fold_timeout_fire i method d
                    (filter (fun t => due now t = true) (timers s)) s0 Hl0 Ha Hb)
          as [Hl' He'].
        { apply list_elem_of_filter. by split. }
        { intros t Ht. apply list_elem_of_filter in Ht as [_ Ht]. by apply Htim. }
        split; [exact Hid|]. split; [exact Hl'|]. split; [|by right].
        fold s0. intros t Ht. apply Htim'. unfold advance. fold now. fold s0. exact Ht.
      * (* it does not: the timers that run belong to other calls *)
        destruct (fold_timeout_skip i
                    (filter (fun t => due now t = true) (timers s)) s0 Hl0)
          as (Hl' & Hp & Hq).
        { intros t Ht Hti. apply list_elem_of_filter in Ht as [Hdue' Ht].
          rewrite (Htim t Ht Hti) in Hdue'. congruence. }
        split; [exact Hid|]. split; [exact Hl'|]. split.
        { intros t Ht. apply Htim'. unfold advance. fold now. fold s0. exact Ht. }
        left. unfold awaiting. rewrite Hp, Hq.
        destruct (fold_timeout_fields
                    (filter (fun t => due now t = true) (timers s)) s0)
          as (_ & _ & -> & ->).
        split; [exact Ha|]. split; [exact Hb|]. split.
        { simpl. apply list_elem_of_filter. by split. }
        simpl. unfold due in Hdue. simpl in Hdue. apply N.leb_gt in Hdue. exact Hdue.
    + destruct (fold_timeout_expired i method
                  (filter (fun t => due now t = true) (timers s)) s0 Hl0 He)
        as [Hl' He'].
      split; [exact Hid|]. split; [exact Hl'|]. split; [|by right].
      intros t Ht. apply Htim'. unfold advance. fold now. fold s0. exact Ht.
Qed.

Lemma on_timeout_well_formed t s : well_formed s -> well_formed (on_timeout t s).
Proof.
  intros (Hp & Hq & Ht). unfold on_timeout.
  destruct (pending s !! t_id t) as [p|] eqn:Hpt; [|exact (conj Hp (conj Hq Ht))].
  destruct (Hp _ _ Hpt) as [-> Hle].
  split; [|split]; simpl.
  - intros k p Hk. destruct (decide (t_id t = k)) as [<-|Hne].
    + by rewrite lookup_delete_eq in Hk.
    + rewrite lookup_delete_ne in Hk by done. by apply Hp.
  - intros k o Hk. apply settle_dom in Hk as [->|Hk]; [exact Hle | by apply (Hq k o)].
  - exact Ht.
Qed.

Lemma fold_timeout_well_formed ts s :
  well_formed s -> well_formed (fold_left (fun acc t => on_timeout t acc) ts s).
Proof.
  revert s. induction ts as [|t ts IH]; intros s Hs; simpl; [exact Hs|].
  apply IH. by apply on_timeout_well_formed.
Qed.

Lemma step_well_formed ev s : well_formed s -> well_formed (step ev s).
Proof.
  intros (Hp & Hq & Ht). destruct ev as [raw | m params | dt |]; simpl.
  - destruct (on_message_cases raw s) as [->|(key & p & outcome & _ & Hkp & ->)];
      [exact (conj Hp (conj Hq Ht))|].
    destruct (Hp _ _ Hkp) as [-> Hle]. split; [|split]; simpl.
    + intros k p Hk. destruct (decide (key = k)) as [<-|Hne].
      * by rewrite lookup_delete_eq in Hk.
      * rewrite lookup_delete_ne in Hk by done. by apply Hp.
    + intros k o Hk. apply settle_dom in Hk as [->|Hk]; [exact Hle | by apply (Hq k o)].
    + exact Ht.
  - unfold Cdp.command. destruct (negb (ws s)); [exact (conj Hp (conj Hq Ht))|].
    split; [|split]; simpl.
    + intros k p Hk. destruct (decide ((id s + 1)%N = k)) as [<-|Hne].
      * rewrite lookup_insert_eq in Hk. injection Hk as <-. split; [reflexivity|lia].
      * rewrite lookup_insert_ne in Hk by done. destruct (Hp _ _ Hk). split; [done|lia].
    + intros k o Hk. specialize (Hq k o Hk). lia.
    + intros t Hin. apply elem_of_app in Hin as [Hin|Hin].
      * specialize (Ht t Hin). lia.
      * apply list_elem_of_singleton in Hin. subst t. simpl. lia.
  - unfold advance. apply fold_timeout_well_formed.
    split; [|split]; simpl; [exact Hp | exact Hq |].
    intros t Hin. apply list_elem_of_filter in Hin as [_ Hin]. by apply Ht.
  - split; [|split]; simpl; [|exact Hq | exact Ht].
    intros k p Hk. by rewrite lookup_empty in Hk.
Qed.

Lemma run_well_formed evs s : well_formed s -> well_formed (run evs s).
Proof.
  revert s. induction evs as [|ev evs IH]; intros s Hs; [exact Hs|].
  change (run (ev :: evs) s) with (run evs (step ev s)).
  apply IH. by apply step_well_formed.
Qed.

Lemma create_well_formed : well_formed (connect create).
Proof.
  split; [|split]; simpl.
  - intros k p Hk. by rewrite lookup_empty in Hk.
  - intros k o Hk. by rewrite lookup_empty in Hk.
  - intros t Hin. inversion Hin.
Qed.

Lemma step_clock ev s :
  clock (step ev s)
  = (clock s + match ev with EAdvance dt => dt | _ => 0 end)%N.
Proof.
  destruct ev as [raw | m params | dt |]; simpl.
  - destruct (on_message_cases raw s) as [->|(key & p & outcome & _ & _ & ->)]; simpl; lia.
  - unfold Cdp.command. destruct (negb (ws s)); simpl; lia.
  - by destruct (advance_fields dt s) as (_ & _ & -> & _).
  - lia.
Qed.

Lemma run_clock evs s : clock (run evs s) = (clock s + elapsed evs)%N.
Proof.
  revert s. induction evs as [|ev evs IH]; intros s; [simpl; lia|].
  change (run (ev :: evs) s) with (run evs (step ev s)).
  rewrite IH, step_clock. simpl. destruct ev; lia.
Qed.

Lemma command_tracked method params s i s1 :
  well_formed s -> command method params s = (Ok i, s1) ->
  tracked i method (clock s + 15000) s1 /\ clock s1 = clock s.
Proof.
  intros (Hp & Hq & Ht). unfold Cdp.command.
  destruct (negb (ws s)); [discriminate|]. intros [= <- <-]. simpl.
  split; [|reflexivity]. split; [simpl; lia|]. split; [|split].
  - intros k p Hk. simpl in Hk. destruct (decide ((id s + 1)%N = k)) as [<-|Hne].
    + rewrite lookup_insert_eq in Hk. congruence.
    + rewrite lookup_insert_ne in Hk by done. by destruct (Hp _ _ Hk).
  - intros t Hin Hti. simpl in Hin. apply elem_of_app in Hin as [Hin|Hin].
    + specialize (Ht t Hin). lia.
    + by apply list_elem_of_singleton in Hin.
  - left. split; [|split; [|split]]; simpl.
    + apply lookup_insert_eq.
    + destruct (promises s !! (id s + 1)%N) as [o|] eqn:Ho; [|reflexivity].
      specialize (Hq _ _ Ho). lia.
    + apply elem_of_app. right. left.
    + lia.
Qed.

Lemma run_tracked i method d evs s :
  tracked i method d s -> unanswered i evs -> tracked i method d (run evs s).
Proof.
  revert s. induction evs as [|ev evs IH]; intros s Hs Hquiet; [exact Hs|].
  change (run (ev :: evs) s) with (run evs (step ev s)).
  apply IH.
  - destruct (Hquiet ev) as [Hopen Hfr]; [left|]. by apply tracked_step.
  - intros ev' Hin. apply Hquiet. by right.
Qed.

(** A frame for a call that is no longer pending does nothing. *)
Lemma late_frame_ignored raw i s :
  carries raw i -> pending s !! i = None -> on_message raw s = (Ok tt, s).
Proof.
  intros (payload & n & Hparse & Hid & Hkey) Hnone.
  unfold Cdp.on_message. rewrite Hparse.
  destruct payload; try discriminate Hid; rewrite Hid;
    destruct (Json.falsy (JNum n)); try reflexivity; rewrite Hkey, Hnone; reflexivity.
Qed.

(** C5. A command issued on an open session takes a fresh id and waits.
    If the events that follow keep the session open, bring no frame that
    carries this id, and let 15000 ms pass, then the call is rejected with
    the error naming the method and its id is out of the pending map; a
    frame carrying the id that arrives afterwards is handled without a
    throw and leaves the whole session, with every other pending call,
    as it was. *)
Theorem command_times_out_after_15000_ms
  (before : list Event) (method : jstring) (params : json) (i : N)
  (s1 : CdpSession) (evs : list Event) :
  command method params (run before (connect create)) = (Ok i, s1) ->
  unanswered i evs ->
  (15000 <= elapsed evs)%N ->
  (pending s1 !! i = Some i /\ promises s1 !! i = None)
  /\ promises (run evs s1) !! i = Some (Rejected (timed_out method))
  /\ message (timed_out method) = lit "CDP command timed out: " ++ method
  /\ pending (run evs s1) !! i = None
  /\ forall raw, carries raw i -> on_message raw (run evs s1) = (Ok tt, run evs s1).
Proof.
  intros Hcmd Hquiet Hlate.
  pose proof (run_well_formed before _ create_well_formed) as Hwf.
  destruct (command_tracked _ _ _ _ _ Hwf Hcmd) as [Htr Hclock].
  pose proof (run_tracked _ _ _ _ _ Htr Hquiet) as (_ & _ & _ & Hstate).
  pose proof (run_clock evs s1) as Hrun.
  destruct Htr as (_ & _ & _ & [(Ha & Hb & _)|[Ha Hb]]).
  2:{ exfalso.
      unfold Cdp.command in Hcmd. destruct (negb (ws _)); [discriminate|].
      injection Hcmd as <- <-. simpl in Ha. by rewrite lookup_insert_eq in Ha. }
  split; [by split|].
  destruct Hstate as [(_ & _ & _ & Hd)|[Hgone Hrej]]; [lia|].
  split; [exact Hrej|]. split; [reflexivity|]. split; [exact Hgone|].
  intros raw Hraw. by apply late_frame_ignored with i.
Qed.

End Session.
End CdpFacts.

Lemma command_times_out_witness :
  let s2 := Cdp.run CdpDemo.to_String CdpDemo.stringify CdpDemo.waiting CdpDemo.issued in
  Cdp.promises s2 !! 1%N = Some (Cdp.Rejected (Cdp.timed_out CdpDemo.navigate))
  /\ Cdp.pending s2 !! 1%N = None
  /\ Cdp.on_message CdpDemo.to_String CdpDemo.late_frame s2 = (Ok tt, s2).
Proof.
  destruct (CdpFacts.command_times_out_after_15000_ms
              CdpDemo.to_String CdpDemo.stringify [] CdpDemo.navigate (JObj []) 1
              CdpDemo.issued CdpDemo.waiting)
    as (_ & Hrej & _ & Hgone & Hlate).
  - reflexivity.
  - intros ev Hin. split.
    + intros ->. vm_compute in Hin.
      repeat (apply elem_of_cons in Hin as [Hin|Hin]; [discriminate|]). inversion Hin.
    + intros raw -> (payload & n & Hparse & Hid & Hkey).
      apply elem_of_cons in Hin as [Hin|Hin].
      * injection Hin as ->. vm_compute in Hparse. injection Hparse as <-.
        vm_compute in Hid. injection Hid as <-. vm_compute in Hkey. discriminate.
      * repeat (apply elem_of_cons in Hin as [Hin|Hin]; [discriminate|]). inversion Hin.
  - vm_compute. discriminate.
  - split; [exact Hrej|]. split; [exact Hgone|].
    apply Hlate. exists (JObj [(lit "id", JNum (Number 1 0));
                               (lit "result", JObj [(lit "frameId", JStr (lit "A"))])]),
                   (Number 1 0).
    split; [vm_compute; reflexivity|]. split; vm_compute; reflexivity.
Defined.

(* ===================================================================== *)
(** * 17. Properties of the matcher                                       *)
(* ===================================================================== *)

Module ReFacts.
Import Re.

Lemma or_else_Some {A} (a b : option A) (x : A) :
  or_else a b = Some x -> a = Some x \/ b = Some x.
Proof. destruct a; simpl; auto. Qed.

Lemma rep_forwards step k greedy fuel :
  forwards step ->
  forall lo hi s e, rep step k greedy fuel lo hi s = Some e ->
    exists s', k s' = Some e /\ rest s' `suffix_of` rest s.
Proof.
  intros Hstep. induction fuel as [|fuel IH]; intros lo hi s e Hrun.
  - simpl in Hrun.
    destruct hi as [[|h]|]; [| |]; try (destruct lo; [|discriminate]);
      (exists s; split; [exact Hrun | reflexivity]).
  - simpl in Hrun.
    assert (Hagain : forall lo',
              step (fun s' =>
                      match lo' with
                      | O => if Nat.eqb (length (rest s')) (length (rest s)) then None
                             else rep step k greedy fuel 0 (pred <$> hi) s'
                      | S lo'' => rep step k greedy fuel lo'' (pred <$> hi) s'
                      end) s = Some e ->
              exists s', k s' = Some e /\ rest s' `suffix_of` rest s).
    { intros lo' Hs. apply Hstep in Hs as (s1 & Hk1 & Hsuf1).
      assert (exists s', k s' = Some e /\ rest s' `suffix_of` rest s1) as (s2 & Hk2 & Hsuf2).
      { destruct lo'; [destruct (Nat.eqb _ _); [discriminate|]|]; by apply IH in Hk1. }
      exists s2. split; [exact Hk2|]. by etrans. }
    assert (Hhere : k s = Some e ->
              exists s', k s' = Some e /\ rest s' `suffix_of` rest s).
    { intros Hk. exists s. split; [exact Hk | reflexivity]. }
    destruct hi as [[|h]|]; [by apply Hhere| |]; cbv zeta in Hrun;
      (destruct lo as [|lo];
       [destruct greedy; apply or_else_Some in Hrun as [Hr|Hr];
        first [ by apply Hhere | by apply (Hagain 0) ]
       | by apply (Hagain (S lo)) ]).
Qed.

Lemma m_forwards fl r : forwards (m fl r).
Proof.
  induction r as [| p | | neg items | a IHa b IHb | a IHa b IHb
                  | greedy lo hi a IHa | i a IHa | | |]; intros k s e Hrun; simpl in Hrun.
  - exists s. split; [exact Hrun | reflexivity].
  - destruct (rest s) as [|c t] eqn:Hrest; [discriminate|].
    destruct (chr_eq fl p c); [|discriminate].
    eexists. split; [exact Hrun|]. simpl. by apply suffix_cons_r.
  - destruct (rest s) as [|c t] eqn:Hrest; [discriminate|].
    destruct (Js.is_line_terminator c); [discriminate|].
    eexists. split; [exact Hrun|]. simpl. by apply suffix_cons_r.
  - destruct (rest s) as [|c t] eqn:Hrest; [discriminate|].
    destruct (cls_has fl neg items c); [|discriminate].
    eexists. split; [exact Hrun|]. simpl. by apply suffix_cons_r.
  - apply IHa in Hrun as (s1 & Hb & Hsuf1). apply IHb in Hb as (s2 & Hk & Hsuf2).
    exists s2. split; [exact Hk|]. by etrans.
  - unfold or_else in Hrun. destruct (m fl a k s) eqn:Ha.
    + injection Hrun as <-. by apply IHa in Ha.
    + by apply IHb in Hrun.
  - by apply (rep_forwards _ _ _ _ IHa) in Hrun.
  - apply IHa in Hrun as (s1 & Hk & Hsuf). eexists. split; [exact Hk|]. exact Hsuf.
  - destruct (prev s) as [c|]; [destruct (multiline fl && Js.is_line_terminator c)|];
      try discriminate; (exists s; split; [exact Hrun | reflexivity]).
  - destruct (rest s) as [|c t] eqn:Hrest;
      [|destruct (multiline fl && Js.is_line_terminator c)];
      try discriminate; (exists s; split; [exact Hrun | rewrite Hrest; reflexivity]).
  - destruct (xorb _ _); [|discriminate]. exists s. split; [exact Hrun | reflexivity].
Qed.

Lemma eat_all_rest cs : forall s s', eat_all cs s = Some s' -> rest s = cs ++ rest s'.
Proof.
  induction cs as [|c cs IH]; intros s s' Heat; simpl in Heat.
  - by injection Heat as ->.
  - destruct (rest s) as [|x t] eqn:Hrest; [discriminate|].
    destruct (N.eqb c x) eqn:Hc; [|discriminate].
    apply N.eqb_eq in Hc. subst x. apply IH in Heat. simpl in Heat. by rewrite Heat.
Qed.

Lemma eat_all_prefix cs : forall s r,
  rest s = cs ++ r -> exists s', eat_all cs s = Some s' /\ rest s' = r.
Proof.
  induction cs as [|c cs IH]; intros s r Hrest; simpl.
  - eauto.
  - simpl in Hrest. rewrite Hrest. rewrite N.eqb_refl. by apply IH.
Qed.

Lemma m_str cs : forall k s,
  m plain (str cs) k s = match eat_all cs s with Some s' => k s' | None => None end.
Proof.
  induction cs as [|c cs IH]; intros k s; [reflexivity|].
  destruct cs as [|c' cs].
  - cbn [str m eat_all]. destruct (rest s) as [|x t]; [reflexivity|].
    unfold chr_eq. cbn [ignoreCase plain]. by destruct (N.eqb c x).
  - change (str (c :: c' :: cs)) with (Seq (Chr c) (str (c' :: cs))).
    cbn [m eat_all]. destruct (rest s) as [|x t]; [reflexivity|].
    unfold chr_eq. cbn [ignoreCase plain]. destruct (N.eqb c x); [|reflexivity].
    apply IH.
Qed.

Lemma m_str_inv cs k s e :
  m plain (str cs) k s = Some e -> exists s', rest s = cs ++ rest s' /\ k s' = Some e.
Proof.
  rewrite m_str. destruct (eat_all cs s) as [s'|] eqn:Heat; [|discriminate].
  intros Hk. exists s'. split; [by apply eat_all_rest | exact Hk].
Qed.

Lemma decides_Some : decides Some (fun _ => True).
Proof. intros s. split; eauto. Qed.

Lemma decides_str cs k Q :
  decides k Q -> decides (m plain (str cs) k) (fun r => exists r', r = cs ++ r' /\ Q r').
Proof.
  intros Hk s. rewrite m_str. split.
  - destruct (eat_all cs s) as [s'|] eqn:Heat; [|by intros [? ?]].
    intros Hs. exists (rest s'). split; [by apply eat_all_rest | by apply Hk].
  - intros (r' & Hrest & HQ). destruct (eat_all_prefix cs s r' Hrest) as (s' & -> & Hr').
    apply Hk. by rewrite Hr'.
Qed.

Lemma any_has c : cls_has plain false [CSpace; CNotSpace] c = true.
Proof. unfold cls_has. simpl. by destruct (Js.is_space c). Qed.

Lemma or_else_is_Some {A} (a b : option A) :
  is_Some (or_else a b) <-> is_Some a \/ is_Some b.
Proof.
  destruct a; simpl; split; eauto. intros [[? ?]|?]; [discriminate | done].
Qed.

Lemma rep_lazy_any k Q :
  decides k Q ->
  forall fuel s, length (rest s) < fuel ->
    is_Some (rep (m plain any) k false fuel 0 None s)
    <-> exists body r', rest s = body ++ r' /\ Q r'.
Proof.
  intros Hk. induction fuel as [|fuel IH]; intros s Hlen; [lia|].
  cbn [rep]. rewrite or_else_is_Some. unfold any at 1. cbn [m].
  destruct (rest s) as [|c t] eqn:Hrest.
  - split.
    + intros [Hs|[? ?]]; [|discriminate]. exists [], []. split; [reflexivity|].
      apply Hk in Hs. by rewrite Hrest in Hs.
    + intros (body & r' & Hnil & HQ). left. apply Hk. rewrite Hrest.
      symmetry in Hnil. apply app_eq_nil in Hnil as [_ ->]. exact HQ.
  - rewrite any_has. cbn [eat rest length fmap option_fmap option_map].
    replace (length t =? S (length t)) with false
      by (symmetry; apply Nat.eqb_neq; lia).
    simpl in Hlen.
    specialize (IH (eat s c t)). cbn [eat rest] in IH. rewrite IH by lia.
    split.
    + intros [Hs|(body & r' & -> & HQ)].
      * exists [], (c :: t). split; [reflexivity|]. apply Hk in Hs. by rewrite Hrest in Hs.
      * exists (c :: body), r'. by split.
    + intros (body & r' & Hsplit & HQ). destruct body as [|b body].
      * left. apply Hk. rewrite Hrest. simpl in Hsplit. by rewrite Hsplit.
      * right. injection Hsplit as -> ->. eauto.
Qed.

Lemma decides_lazy_any k Q :
  decides k Q ->
  decides (m plain (lazy_star any) k) (fun r => exists body r', r = body ++ r' /\ Q r').
Proof.
  intros Hk s. unfold lazy_star. cbn [m]. apply (rep_lazy_any k Q Hk). lia.
Qed.

(** A found match starts where an attempt succeeded; no attempt succeeds
    in the text skipped before it. *)
Lemma search_Some fl r : forall p s f,
  search fl r p s = Some f ->
  exists p' e,
    match_here fl r p' (matched f ++ after f) = Some e
    /\ s = before f ++ matched f ++ after f
    /\ after f = rest e
    /\ (forall pre c suf, before f = pre ++ c :: suf ->
        exists q, match_here fl r q (c :: suf ++ matched f ++ after f) = None).
Proof.
  intros p s. revert p. induction s as [|c s IH]; intros p f Hsearch; simpl in Hsearch.
  - destruct (match_here fl r p []) as [e|] eqn:Hm; [|discriminate].
    injection Hsearch as <-. unfold mk_found. cbn [before matched after].
    pose proof (m_forwards fl r _ _ _ Hm) as (s' & [= ->] & Hsuf). simpl in Hsuf.
    apply suffix_nil_inv in Hsuf. rewrite Hsuf. simpl.
    exists p, e. rewrite Hsuf. repeat split; auto.
    intros pre c suf Habs. by destruct pre.
  - destruct (match_here fl r p (c :: s)) as [e|] eqn:Hm.
    + injection Hsearch as <-. unfold mk_found. cbn [before matched after].
      pose proof (m_forwards fl r _ _ _ Hm) as (s' & [= ->] & Hsuf). cbn [rest] in Hsuf.
      destruct Hsuf as [x Hx].
      assert (Htake : take (length (c :: s) - length (rest e)) (c :: s) = x).
      { rewrite Hx at 2. apply take_app_length'. rewrite Hx, length_app. lia. }
      rewrite Htake, <- Hx.
      exists p, e. repeat split; auto.
      intros pre c' suf Habs. by destruct pre.
    + destruct (search fl r (Some c) s) as [f'|] eqn:Hs; [|discriminate].
      injection Hsearch as <-. destruct (IH _ _ Hs) as (p' & e & Hm' & Hsplit & Hafter & Hleft).
      cbn [push_before before matched after].
      exists p', e. split; [exact Hm'|]. split; [simpl; by rewrite <- Hsplit|].
      split; [exact Hafter|].
      intros pre c' suf Hbefore. destruct pre as [|c0 pre].
      * simpl in Hbefore. injection Hbefore as <- <-. exists p. by rewrite <- Hsplit.
      * simpl in Hbefore. injection Hbefore as <- Hbefore. by apply (Hleft pre c' suf).
Qed.

Lemma search_None fl r : forall p s,
  search fl r p s = None ->
  forall pre suf, s = pre ++ suf -> exists q, match_here fl r q suf = None.
Proof.
  intros p s. revert p. induction s as [|c s IH]; intros p Hsearch pre suf Hsplit;
    simpl in Hsearch.
  - destruct (match_here fl r p []) eqn:Hm; [discriminate|].
    symmetry in Hsplit. apply app_eq_nil in Hsplit as [_ ->]. eauto.
  - destruct (match_here fl r p (c :: s)) eqn:Hm; [discriminate|].
    destruct (search fl r (Some c) s) eqn:Hs; [discriminate|].
    destruct pre as [|c0 pre].
    + simpl in Hsplit. subst suf. eauto.
    + simpl in Hsplit. injection Hsplit as <- Hsplit. by apply (IH _ Hs pre suf).
Qed.

End ReFacts.

(* ===================================================================== *)
(** * 18. Properties of stripping                                         *)
(* ===================================================================== *)

Module StripFacts.
Import Re ReFacts.

Lemma strip_pattern_shape :
  strip_pattern = Seq (str opener) (Seq (lazy_star any) (str fence)).
Proof. reflexivity. Qed.

Lemma action_pattern_shape :
  action_pattern
  = Seq (str opener) (Seq (star ws) (Seq (Grp 1 (lazy_star any)) (str fence))).
Proof. reflexivity. Qed.

(** The strip pattern matches at a position exactly when a block starts
    there. *)
Lemma strip_match_iff p s :
  is_Some (match_here plain strip_pattern p s) <-> block_here s.
Proof.
  unfold match_here. rewrite strip_pattern_shape. cbn [m].
  pose proof (decides_str opener _ _
                (decides_lazy_any _ _ (decides_str fence _ _ decides_Some))) as Hd.
  rewrite (Hd (MState p s [])). cbn [rest]. unfold block_here. split.
  - intros (r1 & -> & body & r2 & -> & post & -> & _). by exists body, post.
  - intros (body & post & ->). eexists. split; [reflexivity|].
    exists body, (fence ++ post). split; [reflexivity|]. by exists post.
Qed.

Lemma strip_match_advances p s e :
  match_here plain strip_pattern p s = Some e -> length (rest e) < length s.
Proof.
  unfold match_here. rewrite strip_pattern_shape. cbn [m]. intros Hm.
  apply m_str_inv in Hm as (s1 & Hrest & Hm). cbn [rest] in Hrest.
  apply m_forwards in Hm as (s2 & Hm & Hsuf2).
  apply m_forwards in Hm as (s3 & [= ->] & Hsuf3).
  apply suffix_length in Hsuf2, Hsuf3.
  rewrite Hrest, length_app. change (length opener) with 15. lia.
Qed.

(** Where the extraction pattern matches, a block starts. *)
Lemma action_match_sound p s e :
  match_here plain action_pattern p s = Some e -> block_here s.
Proof.
  unfold match_here. rewrite action_pattern_shape. cbn [m]. intros Hm.
  apply m_str_inv in Hm as (s1 & Hrest & Hm). cbn [rest] in Hrest.
  apply m_forwards in Hm as (s2 & Hm & [x Hx]).
  apply m_forwards in Hm as (s3 & Hm & [y Hy]).
  apply m_str_inv in Hm as (s4 & Hfence & _). cbn [rest] in Hy, Hfence.
  exists (x ++ y), (rest s4).
  rewrite Hrest, Hx, Hy, Hfence. by rewrite <- !app_assoc.
Qed.

Lemma block_here_has_block s : block_here s -> has_block s.
Proof. intros (body & post & ->). by exists [], body, post. Qed.

Lemma has_block_split s :
  has_block s <-> exists pre suf, s = pre ++ suf /\ block_here suf.
Proof.
  split.
  - intros (pre & body & post & ->). exists pre, (opener ++ body ++ fence ++ post).
    split; [reflexivity|]. by exists body, post.
  - intros (pre & suf & -> & body & post & ->). by exists pre, body, post.
Qed.

Lemma has_block_app_l a s : has_block s -> has_block (a ++ s).
Proof.
  intros (pre & body & post & ->). exists (a ++ pre), body, post.
  by rewrite <- app_assoc.
Qed.

Lemma has_block_app_r s b : has_block s -> has_block (s ++ b).
Proof.
  intros (pre & body & post & ->). exists pre, body, (post ++ b).
  by rewrite <- !app_assoc.
Qed.

Lemma no_block_nil : ~ has_block [].
Proof.
  intros (pre & body & post & Heq). apply (f_equal length) in Heq.
  rewrite !length_app in Heq. change (length opener) with 15 in Heq. simpl in Heq. lia.
Qed.

Lemma search_strip_None p s : search plain strip_pattern p s = None -> ~ has_block s.
Proof.
  intros Hnone Hblock. apply has_block_split in Hblock as (pre & suf & Hsplit & Hhere).
  destruct (search_None _ _ _ _ Hnone pre suf Hsplit) as [q Hq].
  assert (is_Some (match_here plain strip_pattern q suf)) as [e He]
    by (by apply strip_match_iff).
  congruence.
Qed.

Lemma search_action_None p s : ~ has_block s -> search plain action_pattern p s = None.
Proof.
  intros Hnone. destruct (search plain action_pattern p s) as [f|] eqn:Hs; [|reflexivity].
  exfalso. apply Hnone.
  destruct (search_Some _ _ _ _ _ Hs) as (p' & e & Hm & Hsplit & _).
  apply action_match_sound in Hm. apply has_block_split. eauto.
Qed.

(** The text skipped before a match of the strip pattern holds no whole
    marker: the fence that opens the match would close it. *)
Lemma skipped_has_no_marker p s f :
  search plain strip_pattern p s = Some f ->
  forall a b, before f <> a ++ opener ++ b.
Proof.
  intros Hs a b Hbefore.
  destruct (search_Some _ _ _ _ _ Hs) as (p' & e & Hm & _ & _ & Hleft).
  assert (block_here (matched f ++ after f)) as (body & post & Hblock).
  { apply (strip_match_iff p'). eauto. }
  change opener with (96%N :: lit "``gnami-action") in Hbefore at 1.
  destruct (Hleft a 96%N (lit "``gnami-action" ++ b)) as [q Hq].
  { by rewrite Hbefore. }
  assert (is_Some (match_here plain strip_pattern q
                     (96%N :: (lit "``gnami-action" ++ b) ++ matched f ++ after f)))
    as [e' He']; [|discriminate (eq_trans (eq_sym Hq) He')].
  apply strip_match_iff. rewrite Hblock.
  exists b, (lit "gnami-action" ++ body ++ fence ++ post).
  rewrite <- (app_assoc (lit "``gnami-action") b). reflexivity.
Qed.

End StripFacts.

Module StripJoin.
Import Re ReFacts StripFacts.

Lemma startsWith_spec s p : Js.startsWith s p = true <-> exists t, s = p ++ t.
Proof.
  revert s. induction p as [|a p IH]; intros s; simpl.
  - destruct s; simpl; (split; [intros _; by eexists | done]).
  - destruct s as [|b s]; simpl.
    + split; [discriminate | intros [t Ht]; discriminate].
    + rewrite andb_true_iff, N.eqb_eq, IH. split.
      * intros [-> [t ->]]. eauto.
      * intros [t [= -> ->]]. eauto.
Qed.

Lemma ends_with_spec s p : ends_with s p = true <-> exists t, s = t ++ p.
Proof.
  unfold ends_with. rewrite startsWith_spec. split.
  - intros [t Ht]. exists (rev t).
    rewrite <- (rev_involutive s), Ht, rev_app_distr, rev_involutive. reflexivity.
  - intros [t ->]. exists (rev t). apply rev_app_distr.
Qed.

Lemma no_partial_marker g n a :
  ends_with_partial_marker g = false -> 1 <= n <= 14 -> g <> a ++ take n opener.
Proof.
  unfold ends_with_partial_marker. intros Hnone Hn Heq.
  assert (existsb (fun n => ends_with g (take n opener)) (List.seq 1 14) = true) as Habs;
    [|congruence].
  apply existsb_exists. exists n. split; [apply in_seq; lia|].
  apply ends_with_spec. eauto.
Qed.

(** A block of [g ++ x] lies in [x] when [g] holds no whole marker and
    does not end inside one. *)
Lemma block_past_clean_piece g x :
  (forall a b, g <> a ++ opener ++ b) ->
  ends_with_partial_marker g = false ->
  has_block (g ++ x) -> has_block x.
Proof.
  intros Hwhole Hpart (pre & body & post & Heq).
  apply app_eq_inv in Heq as [(k & Hg & Hx)|(k & Hpre & Hx)].
  - (* the block starts in [g] or right after it *)
    symmetry in Hx. apply app_eq_inv in Hx as [(k' & Hk & Hrest)|(k' & Hop & Hx)].
    + exfalso. apply (Hwhole pre k'). by rewrite Hg, Hk.
    + destruct k as [|c k].
      * simpl in Hop. subst k'. rewrite Hx. by exists [], body, post.
      * exfalso. destruct k' as [|c' k'].
        { rewrite app_nil_r in Hop. apply (Hwhole pre []).
          by rewrite Hg, Hop, app_nil_r. }
        apply (no_partial_marker g (length (c :: k)) pre Hpart).
        { apply (f_equal length) in Hop. rewrite length_app in Hop.
          change (length opener) with 15 in Hop. simpl in *. lia. }
        rewrite Hop, take_app_length. exact Hg.
  - rewrite Hx. by exists k, body, post.
Qed.

Lemma trimStart_suffix s : exists sp, s = sp ++ Js.trimStart s.
Proof.
  induction s as [|c s [sp IH]]; simpl; [by exists []|].
  destruct (Js.is_space c); [|by exists []].
  exists (c :: sp). simpl. by rewrite <- IH.
Qed.

Lemma trim_inside s : exists a b, s = a ++ Js.trim s ++ b.
Proof.
  unfold Js.trim, Js.trimEnd.
  destruct (trimStart_suffix s) as [a Ha].
  destruct (trimStart_suffix (rev (Js.trimStart s))) as [b Hb].
  exists a, (rev b). rewrite Ha at 1. f_equal.
  rewrite <- (rev_involutive (Js.trimStart s)), Hb at 1.
  by rewrite rev_app_distr.
Qed.

Lemma has_block_trim s : has_block (Js.trim s) -> has_block s.
Proof.
  intros Hb. destruct (trim_inside s) as (a & b & Hs). rewrite Hs.
  by apply has_block_app_l, has_block_app_r.
Qed.

Lemma join_nil parts : Js.join [] parts = concat parts.
Proof.
  induction parts as [|p [|q parts] IH]; simpl in *.
  - reflexivity.
  - by rewrite app_nil_r.
  - by rewrite IH.
Qed.

(** What one pass of the strip pattern leaves: no kept piece holds a
    block, and with clean joins the pieces together hold none. *)
Lemma scan_strip fuel :
  forall p s fs tail,
    length s <= fuel ->
    scan fuel plain strip_pattern p s = (fs, tail) ->
    ~ has_block tail
    /\ (forall g, g ∈ map before fs -> forall a b, g <> a ++ opener ++ b)
    /\ ((forall g, g ∈ map before fs -> ends_with_partial_marker g = false) ->
        ~ has_block (concat (map before fs ++ [tail]))).
Proof.
  induction fuel as [|fuel IH]; intros p s fs tail Hlen Hscan; simpl in Hscan.
  - injection Hscan as <- <-. destruct s; [|simpl in Hlen; lia].
    split; [apply no_block_nil|]. split; [intros g Hg; inversion Hg|].
    intros _. apply no_block_nil.
  - destruct (search plain strip_pattern p s) as [f|] eqn:Hs.
    2:{ injection Hscan as <- <-. pose proof (search_strip_None _ _ Hs) as Hnone.
        split; [exact Hnone|]. split; [intros g Hg; inversion Hg|].
        intros _. simpl. by rewrite app_nil_r. }
    destruct (search_Some _ _ _ _ _ Hs) as (p' & e & Hm & Hsplit & Hafter & _).
    pose proof (strip_match_advances _ _ _ Hm) as Hadv.
    rewrite <- Hafter, length_app in Hadv.
    destruct (matched f) as [|c mt] eqn:Hmt; [simpl in Hadv; lia|].
    destruct (scan fuel plain strip_pattern (after_prev f) (after f)) as [fs' tail'] eqn:Hrec.
    injection Hscan as <- <-.
    destruct (IH (after_prev f) (after f) fs' tail') as (Htail & Hpieces & Hjoin);
      [|exact Hrec|].
    { apply (f_equal length) in Hsplit. rewrite !length_app in Hsplit. simpl in Hsplit. lia. }
    split; [exact Htail|]. split.
    + intros g Hg. simpl in Hg. apply elem_of_cons in Hg as [->|Hg].
      * by apply (skipped_has_no_marker p s).
      * by apply Hpieces.
    + intros Hclean. simpl. intros Hblock.
      apply block_past_clean_piece in Hblock.
      * apply Hjoin; [|exact Hblock]. intros g Hg. apply Hclean. simpl. by right.
      * by apply (skipped_has_no_marker p s).
      * apply Hclean. simpl. left.
Qed.

End StripJoin.

Section StripRescan.
Import Re ReFacts StripFacts StripJoin.

Lemma exec_all_no_block s : ~ has_block s -> exec_all plain action_pattern s = [].
Proof.
  intros Hnone. unfold exec_all. destruct (length s) as [|n]; [reflexivity|].
  simpl. by rewrite (search_action_None None s Hnone).
Qed.

(** C3, as the code has it.  One pass removes the blocks it finds from
    left to right and trims what is left.  No kept piece holds a block.
    When no piece kept in front of a removed block ends with a beginning
    of the marker, re-scanning the stripped text for fenced gnami-action
    blocks yields zero matches, and so no action. *)
Theorem strip_then_rescan_finds_nothing (text : jstring) :
  clean_joins text = true ->
  Re.exec_all Re.plain action_pattern (stripAgentActions text) = []
  /\ parseAgentActions (stripAgentActions text) = []
  /\ ~ has_block (stripAgentActions text)
  /\ stripAgentActions text = Js.trim (concat (Re.gaps Re.plain strip_pattern text))
  /\ (forall g, g ∈ Re.gaps Re.plain strip_pattern text -> ~ has_block g).
Proof.
  intros Hclean.
  unfold clean_joins, kept_before in Hclean.
  unfold stripAgentActions, replace_all, gaps in *.
  destruct (scan (length text) plain strip_pattern None text) as [fs tail] eqn:Hscan.
  destruct (scan_strip _ _ _ _ _ (le_n _) Hscan) as (Htail & Hpieces & Hjoin).
  rewrite join_nil.
  assert (Hnone : ~ has_block (Js.trim (concat (map before fs ++ [tail])))).
  { intros Hb. apply has_block_trim in Hb. revert Hb. apply Hjoin.
    intros g Hg. cbn [fst] in Hclean. rewrite forallb_forall in Hclean.
    apply list_elem_of_In in Hg. apply Hclean in Hg. by apply negb_true_iff in Hg. }
  split; [by apply exec_all_no_block|].
  split; [unfold parseAgentActions; by rewrite exec_all_no_block|].
  split; [exact Hnone|]. split; [reflexivity|].
  intros g Hg. apply elem_of_app in Hg as [Hg|Hg].
  - intros (pre & body & post & Hblock). by apply (Hpieces g Hg pre (body ++ fence ++ post)).
  - apply list_elem_of_singleton in Hg. by subst g.
Qed.

End StripRescan.

Lemma strip_then_rescan_witness :
  Re.exec_all Re.plain action_pattern (stripAgentActions Texts.three_blocks) = []
  /\ stripAgentActions Texts.three_blocks = lit "hi  mid   end".
Proof.
  destruct (strip_then_rescan_finds_nothing Texts.three_blocks) as (Hre & _).
  - vm_compute. reflexivity.
  - split; [exact Hre|]. vm_compute. reflexivity.
Defined.

(** C3 as stated fails: the stripped text of [Texts.nested] is a block,
    the extraction pattern matches it, and it parses to a shell action. *)
Lemma strip_rescan_counterexample :
  stripAgentActions Texts.nested = Texts.joined
  /\ length (Re.exec_all Re.plain action_pattern (stripAgentActions Texts.nested)) = 1
  /\ parseAgentActions (stripAgentActions Texts.nested) = [Shell (lit "id") None]
  /\ clean_joins Texts.nested = false.
Proof. repeat split; vm_compute; reflexivity. Qed.

(* ===================================================================== *)
(** * 19. Extraction from an answer written block by block                *)
(* ===================================================================== *)

Module RenderFacts.
Import Re ReFacts StripFacts StripJoin.

Lemma eat_all_caps cs : forall s s', eat_all cs s = Some s' -> caps s' = caps s.
Proof.
  induction cs as [|c cs IH]; intros s s' Heat; simpl in Heat.
  - by injection Heat as ->.
  - destruct (rest s) as [|x t]; [discriminate|].
    destruct (N.eqb c x); [|discriminate]. by apply IH in Heat.
Qed.

Lemma eat_all_fence p r c : eat_all fence (MState p (fence ++ r) c) = Some (MState (Some 96%N) r c).
Proof. reflexivity. Qed.

Lemma eat_all_fence_fails st c t :
  rest st = c :: t -> N.eqb c 96 = false -> eat_all fence st = None.
Proof.
  intros Hrest Hc. change fence with [96%N; 96%N; 96%N]. cbn [eat_all].
  rewrite Hrest. rewrite N.eqb_sym in Hc. by rewrite Hc.
Qed.

Lemma skip_rest b : forall s r,
  rest s = b ++ r -> rest (skip (length b) s) = r /\ caps (skip (length b) s) = caps s.
Proof.
  induction b as [|c b IH]; intros s r Hrest; simpl.
  - destruct (rest s); auto.
  - rewrite Hrest. simpl. destruct (IH (eat s c (b ++ r)) r eq_refl) as [-> ->]. auto.
Qed.

(** The lazy quantifier stops at the first place where the continuation
    succeeds. *)
Lemma rep_lazy_first k e r :
  (forall st c t, rest st = c :: t -> N.eqb c 96 = false -> k st = None) ->
  forall b fuel s,
    rest s = b ++ r -> plain_text b = true -> length (rest s) < fuel ->
    k (skip (length b) s) = Some e ->
    rep (m plain any) k false fuel 0 None s = Some e.
Proof.
  intros Hfail. induction b as [|c b IH]; intros fuel s Hrest Hplain Hlen Hk;
    (destruct fuel as [|fuel]; [lia|]); cbn [rep].
  - simpl in Hk. destruct (rest s); by rewrite Hk.
  - simpl in Hplain. apply andb_true_iff in Hplain as [Hc Hplain].
    apply negb_true_iff in Hc.
    rewrite (Hfail s c (b ++ r) Hrest Hc). cbn [or_else].
    unfold any at 1. cbn [m]. rewrite Hrest. cbn [app]. rewrite any_has.
    cbn [eat rest fmap option_fmap option_map].
    rewrite (proj2 (Nat.eqb_neq _ _)) by (simpl; lia).
    apply IH; [reflexivity | exact Hplain | |].
    + rewrite Hrest in Hlen. simpl in *. lia.
    + simpl in Hk. rewrite Hrest in Hk. exact Hk.
Qed.

(** The greedy quantifier over white space goes as far as it can when the
    continuation succeeds there. *)
Lemma rep_greedy_spaces k e r c0 :
  (forall p, k (MState p r c0) = Some e) ->
  match r with c :: _ => Js.is_space c = false | [] => True end ->
  forall sp fuel s,
    rest s = sp ++ r -> caps s = c0 -> forallb Js.is_space sp = true ->
    length (rest s) < fuel ->
    rep (m plain ws) k true fuel 0 None s = Some e.
Proof.
  intros Hk Hhead. induction sp as [|c sp IH]; intros fuel s Hrest Hcaps Hsp Hlen;
    (destruct fuel as [|fuel]; [lia|]); cbn [rep].
  - simpl in Hrest. unfold ws at 1. cbn [m]. rewrite Hrest.
    destruct s as [p0 r0 c1]. cbn [rest caps] in Hrest, Hcaps. subst r0 c1.
    destruct r as [|x r].
    + cbn [or_else]. apply Hk.
    + unfold cls_has. cbn [existsb citem_has xorb]. rewrite Hhead. cbn [orb or_else].
      apply Hk.
  - simpl in Hsp. apply andb_true_iff in Hsp as [Hc Hsp].
    unfold ws at 1. cbn [m]. rewrite Hrest. cbn [app].
    unfold cls_has. cbn [existsb citem_has xorb]. rewrite Hc. cbn [orb].
    cbn [eat rest fmap option_fmap option_map].
    rewrite (proj2 (Nat.eqb_neq _ _)) by (simpl; lia).
    rewrite (IH fuel (eat s c (sp ++ r))); [reflexivity | reflexivity | exact Hcaps
                                           | exact Hsp |].
    rewrite Hrest in Hlen. simpl in *. lia.
Qed.

Lemma trimStart_split s :
  exists sp, s = sp ++ Js.trimStart s /\ forallb Js.is_space sp = true.
Proof.
  induction s as [|c s (sp & IH & Hsp)]; simpl; [by exists []|].
  destruct (Js.is_space c) eqn:Hc; [|by exists []].
  exists (c :: sp). simpl. rewrite Hc, Hsp. split; [by rewrite <- IH | reflexivity].
Qed.

Lemma plain_text_app a b : plain_text (a ++ b) = plain_text a && plain_text b.
Proof. unfold plain_text. apply forallb_app. Qed.

Lemma plain_text_trimStart s : plain_text s = true -> plain_text (Js.trimStart s) = true.
Proof.
  intros Hs. destruct (trimStart_split s) as (sp & Hsplit & _).
  rewrite Hsplit, plain_text_app in Hs. by apply andb_true_iff in Hs as [_ ?].
Qed.

(** At a block whose body has no backtick the extraction pattern matches
    up to the fence and captures the body past its leading white space. *)
Lemma match_block p body r :
  plain_text body = true ->
  match_here plain action_pattern p (opener ++ body ++ fence ++ r)
  = Some (MState (Some 96%N) r [(1, Js.trimStart body)]).
Proof.
  intros Hplain. unfold match_here. rewrite action_pattern_shape. cbn [m].
  rewrite m_str.
  destruct (eat_all_prefix opener (MState p (opener ++ body ++ fence ++ r) [])
              (body ++ fence ++ r) eq_refl) as (s1 & Heat & Hrest1).
  rewrite Heat. pose proof (eat_all_caps _ _ _ Heat) as Hcaps1. cbn [caps] in Hcaps1.
  destruct (trimStart_split body) as (sp & Hbody & Hsp).
  set (b := Js.trimStart body) in *.
  assert (Hb : plain_text b = true) by (by apply plain_text_trimStart).
  unfold star. cbn [m].
  apply (rep_greedy_spaces _ _ (b ++ fence ++ r) []) with (sp := sp).
  - (* the capture and the fence, from the end of the white space *)
    intros q. unfold lazy_star. cbn [m rest].
    apply (rep_lazy_first _ _ (fence ++ r)) with (b := b).
    + intros st x t Hst Hx. rewrite m_str.
      rewrite (eat_all_fence_fails (MState (prev st) (rest st) _) x t Hst Hx).
      reflexivity.
    + reflexivity.
    + exact Hb.
    + cbn [rest]. lia.
    + rewrite m_str.
      destruct (skip_rest b (MState q (b ++ fence ++ r) []) (fence ++ r) eq_refl)
        as [Hrest2 Hcaps2].
      set (s2 := skip (length b) (MState q (b ++ fence ++ r) [])) in *.
      rewrite Hrest2. rewrite eat_all_fence.
      unfold consumed. cbn [rest]. rewrite Hrest2.
      replace (length (b ++ fence ++ r) - length (fence ++ r)) with (length b)
        by (rewrite !length_app; lia).
      rewrite take_app_length. rewrite Hcaps2. reflexivity.
  - destruct b as [|x b'] eqn:Hbx; [reflexivity|].
    by apply (trimStart_head body x b').
  - rewrite Hrest1. rewrite Hbody at 1. by rewrite <- app_assoc.
  - exact Hcaps1.
  - exact Hsp.
  - lia.
Qed.

Lemma match_plain_fails (p : option char) (c : char) (t : jstring) :
  N.eqb c 96 = false -> match_here plain action_pattern p (c :: t) = None.
Proof.
  intros Hc. unfold match_here. rewrite action_pattern_shape. cbn [m]. rewrite m_str.
  change opener with (96%N :: lit "``gnami-action"). cbn [eat_all rest].
  rewrite N.eqb_sym in Hc. by rewrite Hc.
Qed.

Lemma search_cons fl r p c s :
  search fl r p (c :: s)
  = match match_here fl r p (c :: s) with
    | Some e => Some (mk_found [] (c :: s) e)
    | None => push_before c <$> search fl r (Some c) s
    end.
Proof. reflexivity. Qed.

Lemma search_plain_None (s : jstring) :
  plain_text s = true -> forall p, search plain action_pattern p s = None.
Proof.
  induction s as [|c s IH]; intros Hplain p; [reflexivity|].
  simpl in Hplain. apply andb_true_iff in Hplain as [Hc Hplain].
  apply negb_true_iff in Hc. rewrite search_cons, (match_plain_fails p c s Hc).
  by rewrite IH.
Qed.

Lemma search_here fl r p s e :
  match_here fl r p s = Some e -> search fl r p s = Some (mk_found [] s e).
Proof. intros Hm. destruct s; simpl; by rewrite Hm. Qed.

Lemma search_past_plain (sep x : jstring) f :
  plain_text sep = true ->
  (forall q, search plain action_pattern q x = Some f) ->
  forall p,
    search plain action_pattern p (sep ++ x)
    = Some (Found (sep ++ before f) (matched f) (groups f) (after_prev f) (after f)).
Proof.
  intros Hplain Hx. induction sep as [|c sep IH]; intros p.
  - simpl. rewrite Hx. by destruct f.
  - simpl in Hplain. apply andb_true_iff in Hplain as [Hc Hplain].
    apply negb_true_iff in Hc. cbn [app].
    rewrite search_cons, (match_plain_fails p c (sep ++ x) Hc). by rewrite (IH Hplain).
Qed.

(** Scanning an answer written block by block finds its blocks, each
    with its body past the leading white space. *)
Lemma scan_render segs tail :
  well_fenced segs tail = true ->
  forall fuel p,
    length (render segs tail) <= fuel ->
    map block_body (scan fuel plain action_pattern p (render segs tail)).1
    = map (fun sb => Js.trimStart sb.2) segs.
Proof.
  unfold well_fenced. intros Hwf. apply andb_true_iff in Hwf as [Hsegs Htail].
  induction segs as [|[sep body] segs IH]; intros fuel p Hlen.
  - simpl. destruct fuel; [reflexivity|]. simpl. by rewrite search_plain_None.
  - simpl in Hsegs. apply andb_true_iff in Hsegs as [Hsb Hsegs].
    apply andb_true_iff in Hsb as [Hsep Hbody]. simpl in Hsep, Hbody.
    specialize (IH Hsegs).
    cbn [render] in *. set (rest_text := render segs tail) in *.
    destruct fuel as [|fuel].
    { rewrite !length_app in Hlen. change (length opener) with 15 in Hlen. lia. }
    cbn [scan].
    rewrite (search_past_plain sep (opener ++ body ++ fence ++ rest_text)
               (mk_found [] (opener ++ body ++ fence ++ rest_text)
                  (MState (Some 96%N) rest_text [(1, Js.trimStart body)])) Hsep).
    2:{ intros q. apply search_here. by apply match_block. }
    cbn [mk_found matched before groups after_prev after rest caps prev].
    assert (Htake : take (length (opener ++ body ++ fence ++ rest_text) - length rest_text)
                      (opener ++ body ++ fence ++ rest_text)
                    = 96%N :: lit "``gnami-action" ++ body ++ fence).
    { change (96%N :: lit "``gnami-action" ++ body ++ fence)
        with (opener ++ body ++ fence).
      replace (opener ++ body ++ fence ++ rest_text)
        with ((opener ++ body ++ fence) ++ rest_text) by (by rewrite <- !app_assoc).
      apply take_app_length'. rewrite !length_app. lia. }
    rewrite Htake.
    destruct (scan fuel plain action_pattern (Some 96%N) rest_text) as [fs tl] eqn:Hscan.
    cbn [fst map block_body group groups assoc Nat.eqb default from_option].
    f_equal. specialize (IH fuel (Some 96%N)). rewrite Hscan in IH. apply IH.
    rewrite !length_app in Hlen. change (length opener) with 15 in Hlen. lia.
Qed.

Lemma trimStart_idem s : Js.trimStart (Js.trimStart s) = Js.trimStart s.
Proof.
  destruct (Js.trimStart s) as [|c r] eqn:Hs; [reflexivity|].
  simpl. by rewrite (trimStart_head s c r Hs).
Qed.

Lemma well_formed_block_trimStart b :
  well_formed_block (Js.trimStart b) = well_formed_block b.
Proof. unfold well_formed_block, Js.trim. by rewrite trimStart_idem. Qed.

Lemma omap_map {A B C} (g : A -> B) (f : B -> option C) (l : list A) :
  omap f (map g l) = omap (fun x => f (g x)) l.
Proof.
  induction l as [|x l IH]; [reflexivity|]. simpl.
  destruct (f (g x)); [f_equal|]; exact IH.
Qed.

Lemma omap_pointwise {A C} (f f' : A -> option C) (l : list A) :
  (forall x, f x = f' x) -> omap f l = omap f' l.
Proof.
  intros Hf. induction l as [|x l IH]; [reflexivity|]. simpl. rewrite Hf.
  destruct (f' x); [f_equal|]; exact IH.
Qed.

(** From an answer written block by block, extraction returns the
    actions of its well-formed blocks and nothing else. *)
Lemma parseAgentActions_render segs tail :
  well_fenced segs tail = true ->
  parseAgentActions (render segs tail) = omap (fun sb => well_formed_block sb.2) segs.
Proof.
  intros Hwf. unfold parseAgentActions. rewrite parse_loop_omap. cbn [app].
  unfold exec_all. rewrite (scan_render segs tail Hwf _ None (le_n _)).
  rewrite omap_map. apply omap_pointwise. intros sb. apply well_formed_block_trimStart.
Qed.

End RenderFacts.

Section Extraction.


End Extraction.


Module Utf8Facts.
Import Utf8.

Lemma stored_plain (text : jstring) : plain_units text = true -> stored text = text.
Proof.
  induction text as [|c text IH]; [reflexivity|]. cbn [plain_units forallb stored].
  intros [Hc Ht]%andb_true_iff. apply negb_true_iff, orb_false_iff in Hc as [-> ->].
  by rewrite (IH Ht).
Qed.

End Utf8Facts.

Module StoreRoundTrips.
Import StoreOps StoreFacts.

Lemma store_eta st :
  mkStore (pairings st) (sessions st) (sessions_seq st) (messages st) (messages_seq st)
    (memory_events st) = st.
Proof. by destruct st. Qed.

Lemma approve_row_approved ch c key row :
  approved row = true -> approve_row ch c key row = row.
Proof.
  intros Ha. unfold approve_row. destruct (approve_matches ch c key row); [|reflexivity].
  destruct row as [a co t]. simpl in Ha. by subst a.
Qed.

Lemma approve_unchanged ch c st :
  (forall key row, pairings st !! key = Some row -> approve_row ch c key row = row) ->
  (approvePairing ch c st).2 = st.
Proof.
  intros Hrows. unfold approvePairing, set_pairings. cbn [snd].
  rewrite <- (store_eta st) at 7. f_equal.
  apply map_eq. intros key. rewrite map_lookup_imap.
  destruct (pairings st !! key) as [row|] eqn:Hk; [|reflexivity].
  simpl. f_equal. by apply Hrows.
Qed.

(** X1.  The code upsertPairing hands to a sender stays the same on
    every later call while the pairing is pending. Approving with that
    code succeeds, after which upsertPairing reports the sender as
    approved with the same code; approving with any other code leaves
    the sender's approval as it was. *)
Theorem pairing_code_round_trip ch sender fresh ts st :
  let r1 := upsertPairing ch sender fresh ts st in
  let r2 := approvePairing ch r1.1.2 r1.2 in
  (forall fresh' ts', upsertPairing ch sender fresh' ts' r1.2 = (r1.1, r1.2))
  /\ r2.1 = true
  /\ (forall fresh' ts', upsertPairing ch sender fresh' ts' r2.2 = ((true, r1.1.2), r2.2))
  /\ (forall c', c' <> r1.1.2 ->
        approved <$> pairings (approvePairing ch c' r1.2).2 !! (ch, sender)
        = approved <$> pairings r1.2 !! (ch, sender)).
Proof.
  intros r1 r2.
  assert (Hrow : exists row, pairings r1.2 !! (ch, sender) = Some row
                   /\ r1.1 = (approved row, code row)).
  { subst r1. unfold upsertPairing.
    destruct (pairings st !! (ch, sender)) as [row|] eqn:Hk; cbn [fst snd].
    - exists row. auto.
    - eexists. split; [apply lookup_insert_eq|]. reflexivity. }
  destruct Hrow as (row & Hrow & Hr1).
  split.
  { intros fresh' ts'. unfold upsertPairing at 1. by rewrite Hrow, Hr1. }
  assert (Hcode : r1.1.2 = code row) by (by rewrite Hr1).
  split.
  { subst r2. unfold approvePairing. cbn [fst]. rewrite bool_decide_eq_true.
    apply approve_changes_pos. exists (ch, sender), row. auto. }
  split.
  { intros fresh' ts'. unfold upsertPairing. subst r2.
    rewrite approve_lookup, Hrow. cbn [fmap option_fmap option_map].
    unfold approve_row.
    rewrite (proj2 (approve_matches_iff ch r1.1.2 (ch, sender) row)) by auto.
    cbn [approved code]. by rewrite Hcode. }
  intros c' Hc'. rewrite approve_lookup, Hrow. cbn [fmap option_fmap option_map].
  f_equal. unfold approve_row.
  destruct (approve_matches ch c' (ch, sender) row) eqn:Hm; [|reflexivity].
  apply approve_matches_iff in Hm as [_ Hm]. congruence.
Qed.

(** X2.  runPairingApprove throws 'No pending pairing found for that
    channel/code.' only when no row of the channel holds the code, and
    then leaves the store untouched. When it succeeds, a row of the
    channel holds the code and is approved, and running it again
    succeeds with the same output and changes nothing. *)
Theorem runPairingApprove_outcomes ch c st :
  (forall err st', runPairingApprove ch c st = (Throw err, st') ->
     st' = st
     /\ message err = lit "No pending pairing found for that channel/code."
     /\ forall sender row, pairings st !! (ch, sender) = Some row -> code row <> c)
  /\ (forall out st', runPairingApprove ch c st = (Ok out, st') ->
        runPairingApprove ch c st' = (Ok out, st')
        /\ exists sender row, pairings st' !! (ch, sender) = Some row
             /\ code row = c /\ approved row = true).
Proof.
  unfold runPairingApprove.
  destruct (approvePairing ch c st) as [ok st1] eqn:Happ.
  assert (Hok : ok = (approvePairing ch c st).1) by (by rewrite Happ).
  assert (Hst1 : st1 = (approvePairing ch c st).2) by (by rewrite Happ).
  split.
  - intros err st'. destruct ok; cbn [negb]; [discriminate|]. intros [= <- <-].
    assert (Hnone : forall key row, pairings st !! key = Some row ->
                      approve_matches ch c key row = false).
    { intros key row Hk. destruct (approve_matches ch c key row) eqn:Hm; [|reflexivity].
      apply approve_matches_iff in Hm as [Hch Hc].
      assert (0 < approve_changes ch c st) as Hpos
        by (apply approve_changes_pos; eauto).
      unfold approvePairing in Hok. cbn [fst] in Hok.
      symmetry in Hok. apply bool_decide_eq_false in Hok. contradiction. }
    split.
    { rewrite Hst1. apply approve_unchanged. intros key row Hk.
      unfold approve_row. by rewrite (Hnone key row Hk). }
    split; [reflexivity|].
    intros sender row Hk Hc. specialize (Hnone _ _ Hk).
    rewrite (proj2 (approve_matches_iff ch c (ch, sender) row)) in Hnone by auto.
    discriminate.
  - intros out st'. destruct ok; cbn [negb]; [|discriminate]. intros [= <- <-].
    assert (Hex : exists key row, pairings st !! key = Some row /\ key.1 = ch /\ code row = c).
    { apply approve_changes_pos. unfold approvePairing in Hok. cbn [fst] in Hok.
      symmetry in Hok. by apply bool_decide_eq_true in Hok. }
    destruct Hex as ([ch0 sender] & row & Hk & Hch & Hc). cbn [fst] in Hch. subst ch0.
    assert (Hk1 : pairings st1 !! (ch, sender) = Some (mkPairing true (code row) (p_createdAt row))).
    { rewrite Hst1, approve_lookup, Hk. cbn [fmap option_fmap option_map]. f_equal.
      unfold approve_row.
      by rewrite (proj2 (approve_matches_iff ch c (ch, sender) row)). }
    split.
    + destruct (approvePairing ch c st1) as [ok2 st2] eqn:Happ2.
      assert (ok2 = true) as ->.
      { replace ok2 with (approvePairing ch c st1).1 by (by rewrite Happ2).
        unfold approvePairing. cbn [fst]. apply bool_decide_eq_true.
        apply approve_changes_pos. eexists (ch, sender), _. split; [exact Hk1|]. auto. }
      cbn [negb]. f_equal.
      replace st2 with (approvePairing ch c st1).2 by (by rewrite Happ2).
      apply approve_unchanged. intros key row1 Hk2.
      rewrite Hst1, approve_lookup in Hk2.
      destruct (pairings st !! key) as [row0|]; [|discriminate].
      cbn [fmap option_fmap option_map] in Hk2. injection Hk2 as <-.
      destruct (approve_matches ch c key row0) eqn:Hm0.
      * apply approve_row_approved. unfold approve_row. by rewrite Hm0.
      * assert (approve_row ch c key row0 = row0) as ->
          by (unfold approve_row; by rewrite Hm0).
        unfold approve_row. by rewrite Hm0.
    + exists sender, (mkPairing true (code row) (p_createdAt row)). auto.
Qed.

Lemma session_is_key ch sender r :
  session_is ch sender r = true <-> sender_key r = (ch, sender).
Proof.
  unfold session_is, sender_key.
  rewrite andb_true_iff, bool_decide_eq_true, jstr_eqb_eq. split.
  - intros [-> ->]. reflexivity.
  - intros [= -> ->]. auto.
Qed.

Lemma session_key_touch ch sender ts r :
  sender_key (touch ch sender ts r) = sender_key r.
Proof. unfold touch. by destruct (session_is ch sender r). Qed.

Lemma s_id_touch ch sender ts r : s_id (touch ch sender ts r) = s_id r.
Proof. unfold touch. by destruct (session_is ch sender r). Qed.

Lemma find_session_Some ch sender st row :
  find_session ch sender st = Some row ->
  row ∈ sessions st /\ sender_key row = (ch, sender).
Proof.
  unfold find_session. destruct (list_find _ _) as [[i r]|] eqn:Hf; [|discriminate].
  intros [= <-]. apply list_find_Some in Hf as (Hi & Hr & _).
  split; [by apply list_elem_of_lookup_2 in Hi | by apply session_is_key].
Qed.

Lemma find_session_None ch sender st :
  find_session ch sender st = None ->
  forall r, r ∈ sessions st -> sender_key r <> (ch, sender).
Proof.
  unfold find_session. destruct (list_find _ _) as [[i r]|] eqn:Hf; [discriminate|].
  intros _ r Hin Hkey. apply list_find_None in Hf. rewrite Forall_forall in Hf.
  apply (Hf r Hin). by apply session_is_key.
Qed.

Lemma find_session_touched ch sender ts st seq :
  find_session ch sender
    (mkStore (pairings st) (map (touch ch sender ts) (sessions st))
       seq (messages st) (messages_seq st) (memory_events st))
  = touch ch sender ts <$> find_session ch sender st.
Proof.
  unfold find_session. cbn [sessions].
  change (map (touch ch sender ts) (sessions st)) with (touch ch sender ts <$> sessions st).
  rewrite list_find_fmap.
  rewrite (list_find_ext _ (fun r => session_is ch sender r = true)).
  2:{ intros r. unfold compose. by rewrite session_is_touch. }
  by destruct (list_find _ (sessions st)) as [[i r]|].
Qed.

(** An existing session: its row is stamped and its id returned. *)
Lemma getOrCreateSession_existing ch sender ts st r0 :
  find_session ch sender st = Some r0 ->
  getOrCreateSession ch sender ts st
  = (Ok (s_id r0),
     mkStore (pairings st) (map (touch ch sender ts) (sessions st))
       (sessions_seq st + 1) (messages st) (messages_seq st) (memory_events st)).
Proof.
  intros Hf. unfold getOrCreateSession. rewrite Hf.
  rewrite find_session_touched, Hf. cbn [fmap option_fmap option_map].
  by rewrite s_id_touch.
Qed.

Lemma NoDup_key_unique (l : list SessionRecord) r1 r2 :
  NoDup (map sender_key l) -> r1 ∈ l -> r2 ∈ l -> sender_key r1 = sender_key r2 ->
  r1 = r2.
Proof.
  intros Hnd H1 H2 Hk.
  apply list_elem_of_lookup_1 in H1 as [i Hi]. apply list_elem_of_lookup_1 in H2 as [j Hj].
  assert (i = j) as ->.
  { apply (NoDup_lookup _ i j (sender_key r1) Hnd);
      change (map sender_key l) with (sender_key <$> l); rewrite list_lookup_fmap.
    - by rewrite Hi.
    - rewrite Hj. simpl. by rewrite Hk. }
  congruence.
Qed.

(** X3.  On a sessions table that satisfies its schema (one row per
    channel and sender, distinct ids not above the counter),
    getOrCreateSession returns the id of the sender's single row,
    creating the row when it is absent. The table still satisfies the
    schema, the row is stamped with the given time and keeps the id and
    createdAt of an existing row, rows of other senders are untouched,
    and a later call returns the same id. *)
Theorem getOrCreateSession_one_session_per_sender ch sender ts st :
  sessions_ok st ->
  let st' := (getOrCreateSession ch sender ts st).2 in
  exists id row,
    (getOrCreateSession ch sender ts st).1 = Ok id
    /\ sessions_ok st'
    /\ row ∈ sessions st' /\ s_id row = id /\ sender_key row = (ch, sender)
    /\ updatedAt row = ts
    /\ (forall r, r ∈ sessions st' -> sender_key r = (ch, sender) -> r = row)
    /\ (forall r0, r0 ∈ sessions st -> sender_key r0 = (ch, sender) ->
          s_id r0 = id /\ createdAt row = createdAt r0)
    /\ (forall r, sender_key r <> (ch, sender) -> r ∈ sessions st' <-> r ∈ sessions st)
    /\ (forall ts', (getOrCreateSession ch sender ts' st').1 = Ok id).
Proof.
  intros (Hkeys & Hids & Hseq) st'.
  destruct (find_session ch sender st) as [r0|] eqn:Hfind.
  - (* the sender has a session *)
    pose proof (getOrCreateSession_existing ch sender ts st r0 Hfind) as Hrun.
    destruct (find_session_Some _ _ _ _ Hfind) as [Hin0 Hkey0].
    assert (Hst' : sessions st' = map (touch ch sender ts) (sessions st))
      by (subst st'; by rewrite Hrun).
    assert (Hseq' : sessions_seq st' = (sessions_seq st + 1)%N)
      by (subst st'; by rewrite Hrun).
    assert (Htouch0 : touch ch sender ts r0
                      = mkSession (s_id r0) (s_channel r0) (s_senderId r0) (createdAt r0) ts).
    { unfold touch. by rewrite (proj2 (session_is_key ch sender r0) Hkey0). }
    assert (Hok' : sessions_ok st').
    { unfold sessions_ok. rewrite Hst', Hseq', !map_map.
      rewrite (map_ext (fun r => sender_key (touch ch sender ts r)) sender_key)
        by (intros r; apply session_key_touch).
      rewrite (map_ext (fun r => s_id (touch ch sender ts r)) s_id)
        by (intros r; apply s_id_touch).
      split; [exact Hkeys|]. split; [exact Hids|].
      apply Forall_fmap. eapply Forall_impl; [exact Hseq|].
      intros r Hr. cbn beta in *. unfold compose. rewrite s_id_touch. lia. }
    assert (Hin' : touch ch sender ts r0 ∈ sessions st').
    { rewrite Hst'. apply list_elem_of_fmap. by exists r0. }
    exists (s_id r0), (touch ch sender ts r0).
    split; [by rewrite Hrun|]. split; [exact Hok'|]. split; [exact Hin'|].
    split; [apply s_id_touch|].
    split; [by rewrite session_key_touch|].
    split; [by rewrite Htouch0|].
    split.
    { intros r Hr Hkey. destruct Hok' as (Hkeys' & _).
      apply (NoDup_key_unique (sessions st')); auto.
      by rewrite Hkey, session_key_touch. }
    split.
    { intros r1 Hr1 Hkey1.
      assert (r1 = r0) as -> by (apply (NoDup_key_unique (sessions st)); auto; congruence).
      by rewrite Htouch0. }
    split.
    { intros r Hkey. rewrite Hst'. split.
      - intros Hr. apply list_elem_of_fmap in Hr as (r1 & -> & Hr1).
        rewrite session_key_touch in Hkey. unfold touch.
        destruct (session_is ch sender r1) eqn:Hs; [|exact Hr1].
        apply session_is_key in Hs. contradiction.
      - intros Hr. apply list_elem_of_fmap. exists r. split; [|exact Hr].
        unfold touch. destruct (session_is ch sender r) eqn:Hs; [|reflexivity].
        apply session_is_key in Hs. contradiction. }
    intros ts'.
    assert (Hfind' : find_session ch sender st' = Some (touch ch sender ts r0)).
    { subst st'. rewrite Hrun. cbn [snd]. by rewrite find_session_touched, Hfind. }
    rewrite (getOrCreateSession_existing ch sender ts' st' _ Hfind'). cbn [fst].
    by rewrite s_id_touch.
  - (* the first message of the sender *)
    pose proof (find_session_None _ _ _ Hfind) as Hnone.
    set (id := (sessions_seq st + 1)%N).
    set (row := mkSession id ch sender ts ts).
    assert (Hrun : getOrCreateSession ch sender ts st
                   = (Ok id, mkStore (pairings st) (sessions st ++ [row]) id
                               (messages st) (messages_seq st) (memory_events st))).
    { unfold getOrCreateSession. by rewrite Hfind. }
    assert (Hst' : sessions st' = sessions st ++ [row]) by (subst st'; by rewrite Hrun).
    assert (Hseq' : sessions_seq st' = id) by (subst st'; by rewrite Hrun).
    assert (Hok' : sessions_ok st').
    { unfold sessions_ok. rewrite Hst', Hseq', !map_app. cbn [map].
      split; [|split].
      - apply NoDup_app. split; [exact Hkeys|]. split; [|apply NoDup_singleton].
        intros k Hk Hk'. apply list_elem_of_singleton in Hk'. subst k.
        apply list_elem_of_fmap in Hk as (r & Hkey & Hr). by apply (Hnone r Hr).
      - apply NoDup_app. split; [exact Hids|]. split; [|apply NoDup_singleton].
        intros k Hk Hk'. apply list_elem_of_singleton in Hk'. subst k.
        apply list_elem_of_fmap in Hk as (r & Hkey & Hr).
        rewrite Forall_forall in Hseq. specialize (Hseq r Hr). cbn [s_id row] in Hkey.
        subst id. lia.
      - apply Forall_app. split.
        + eapply Forall_impl; [exact Hseq|]. intros r Hr. simpl in *. subst id. lia.
        + apply Forall_singleton. reflexivity. }
    assert (Hin' : row ∈ sessions st').
    { rewrite Hst'. apply elem_of_app. right. left. }
    exists id, row.
    split; [by rewrite Hrun|]. split; [exact Hok'|]. split; [exact Hin'|].
    split; [reflexivity|]. split; [reflexivity|]. split; [reflexivity|].
    split.
    { intros r Hr Hkey. rewrite Hst' in Hr. apply elem_of_app in Hr as [Hr|Hr].
      - by destruct (Hnone r Hr).
      - by apply list_elem_of_singleton in Hr. }
    split. { intros r1 Hr1 Hkey1. by destruct (Hnone r1 Hr1). }
    split.
    { intros r Hkey. rewrite Hst', elem_of_app, list_elem_of_singleton. split; [|auto].
      intros [Hr | ->]; [exact Hr|]. by destruct Hkey. }
    intros ts'.
    assert (Hfind' : find_session ch sender st' = Some row).
    { destruct (find_session ch sender st') as [r1|] eqn:Hf1.
      - destruct (find_session_Some _ _ _ _ Hf1) as [Hr1 Hk1]. f_equal.
        rewrite Hst' in Hr1. apply elem_of_app in Hr1 as [Hr1|Hr1].
        + by destruct (Hnone r1 Hr1).
        + by apply list_elem_of_singleton in Hr1.
      - by destruct (find_session_None _ _ _ Hf1 row Hin'). }
    by rewrite (getOrCreateSession_existing ch sender ts' st' _ Hfind').
Qed.

Lemma elem_of_rev {A} (x : A) (l : list A) : x ∈ rev l <-> x ∈ l.
Proof. rewrite !list_elem_of_In. symmetry. apply in_rev. Qed.

Lemma getRecentMessages_slides sid d text ts st n :
  has_session sid st = true ->
  getRecentMessages sid (S n) (addMessage sid d text ts st).2
  = getRecentMessages sid n st
    ++ [mkMessage (messages_seq st + 1) sid d (Utf8.stored text) ts].
Proof.
  intros Hs. unfold getRecentMessages, addMessage. rewrite Hs. cbn [fst snd messages].
  rewrite filter_app, filter_cons_True by reflexivity. rewrite filter_nil.
  rewrite rev_app_distr. cbn [rev app take]. reflexivity.
Qed.

(** X4.  addMessage on a session id that has a row returns the next
    message id and records the content as the TEXT column stores it (the
    content itself when it holds no surrogate); the message is then the
    last of the recent messages of its session: the window of n+1
    messages is the former window of n followed by the new message, and
    windows of other sessions are unchanged.  On a session id without a
    row it throws the foreign key error and changes nothing.  A window
    never holds more than its limit, holds only messages of its session,
    and is the tail end of that session's messages in insertion order. *)
Theorem addMessage_then_getRecentMessages sid d text ts st :
  let r := addMessage sid d text ts st in
  let msg := mkMessage (messages_seq st + 1) sid d (Utf8.stored text) ts in
  (has_session sid st = false -> r = (Throw foreign_key_failed, st))
  /\ (has_session sid st = true ->
      r.1 = Ok (messages_seq st + 1)%N
      /\ (forall n, getRecentMessages sid (S n) r.2 = getRecentMessages sid n st ++ [msg])
      /\ (forall n, last (getRecentMessages sid (S n) r.2) = Some msg)
      /\ (Utf8.plain_units text = true -> content msg = text)
      /\ (forall sid' n, sid' <> sid ->
            getRecentMessages sid' n r.2 = getRecentMessages sid' n st))
  /\ (forall sid' n,
        length (getRecentMessages sid' n r.2) <= n
        /\ Forall (fun m => sessionId m = sid') (getRecentMessages sid' n r.2)
        /\ getRecentMessages sid' n r.2
           `suffix_of` filter (fun m => sessionId m = sid') (messages r.2)).
Proof.
  intros r msg. split; [|split].
  - intros Hs. subst r. unfold addMessage. by rewrite Hs.
  - intros Hs.
    assert (Hslide : forall n, getRecentMessages sid (S n) r.2
                               = getRecentMessages sid n st ++ [msg]).
    { intros n. by apply getRecentMessages_slides. }
    split; [subst r; unfold addMessage; by rewrite Hs|].
    split; [exact Hslide|]. split.
    { intros n. rewrite Hslide. apply last_snoc. }
    split.
    { intros Hplain. cbn [content msg]. by apply Utf8Facts.stored_plain. }
    intros sid' n Hne. unfold getRecentMessages. subst r. unfold addMessage.
    rewrite Hs. cbn [snd messages].
    rewrite filter_app, filter_cons_False, filter_nil, app_nil_r.
    + reflexivity.
    + cbn [sessionId]. congruence.
  - intros sid' n. unfold getRecentMessages.
    set (l := filter (fun m => sessionId m = sid') (messages r.2)).
    split; [|split].
    + rewrite length_rev, length_take. lia.
    + apply Forall_forall. intros m Hm. apply (proj1 (elem_of_rev _ _)) in Hm.
      apply elem_of_take in Hm as (i & Hi & _). apply list_elem_of_lookup_2 in Hi.
      apply (proj1 (elem_of_rev _ _)) in Hi. subst l.
      by apply list_elem_of_filter in Hi as [? _].
    + exists (rev (drop n (rev l))). rewrite <- rev_app_distr, take_drop.
      by rewrite rev_involutive.
Qed.

End StoreRoundTrips.

Section TrimFacts.

Lemma trim_idem s : Js.trim (Js.trim s) = Js.trim s.
Proof.
  change (Js.trim s) with (Js.trimEnd (Js.trimStart s)).
  destruct (Js.trimStart s) as [|c x] eqn:Hs; [reflexivity|].
  pose proof (trimStart_head s c x Hs) as Hc.
  destruct (trimEnd_cons c x Hc) as [y Hy].
  assert (Hend : Js.trimEnd (Js.trimEnd (c :: x)) = Js.trimEnd (c :: x)).
  { unfold Js.trimEnd. by rewrite rev_involutive, RenderFacts.trimStart_idem. }
  rewrite Hy in *. unfold Js.trim. cbn [Js.trimStart]. by rewrite Hc.
Qed.

End TrimFacts.

Section OneReply.
Context {E : Type} `{Collaborators E}.

Local Abbreviation quiet' := (quiet (E := E)).
Local Abbreviation answers' := (answers (E := E)).

Lemma quiet_ret {A} (a : A) : quiet' (ret a).
Proof. intros w. reflexivity. Qed.

Lemma quiet_bind {A B} (c : M (World E) A) (k : A -> M (World E) B) :
  quiet' c -> (forall a, quiet' (k a)) -> quiet' (bind c k).
Proof.
  intros Hc Hk w. unfold bind. specialize (Hc w).
  destruct (c w) as [[a|err] w1]; simpl in *; [|exact Hc].
  by rewrite (Hk a w1).
Qed.

Lemma quiet_try_catch {A} (c : M (World E) A) (h : thrown -> M (World E) A) :
  quiet' c -> (forall e, quiet' (h e)) -> quiet' (try_catch c h).
Proof.
  intros Hc Hh w. unfold try_catch. specialize (Hc w).
  destruct (c w) as [[a|err] w1]; simpl in *; [exact Hc|].
  by rewrite (Hh err w1).
Qed.

Lemma quiet_outside {A} (c : M E A) : quiet' (outside c).
Proof. intros w. unfold outside. destruct (c (ext w)). reflexivity. Qed.

Lemma quiet_with_store {A} (f : jstring -> Store -> A * Store) : quiet' (with_store f).
Proof. intros w. rewrite with_store_run. reflexivity. Qed.

Lemma quiet_getRecentMessages sid n : quiet' (getRecentMessages sid n).
Proof. intros w. reflexivity. Qed.

Lemma quiet_config_name : quiet' config_name.
Proof. intros w. reflexivity. Qed.

Lemma quiet_set_config_name n : quiet' (set_config_name n).
Proof. intros w. reflexivity. Qed.

Lemma quiet_getOrCreateSession ch sender : quiet' (getOrCreateSession ch sender).
Proof.
  intros w. unfold getOrCreateSession.
  destruct (StoreOps.getOrCreateSession _ _ _ _). reflexivity.
Qed.

Ltac quiet_step :=
  first
    [ apply quiet_ret | apply quiet_outside | apply quiet_with_store
    | apply quiet_getRecentMessages | apply quiet_config_name
    | apply quiet_set_config_name | apply quiet_getOrCreateSession
    | apply quiet_bind; [|intros ?]
    | apply quiet_try_catch; [|intros ?]
    | match goal with
      | |- quiet (if ?b then _ else _) => destruct b
      | |- quiet (match ?x with _ => _ end) => destruct x
      end ].

Lemma quiet_upsertPairing ch sender : quiet' (upsertPairing ch sender).
Proof.
  unfold upsertPairing. apply quiet_bind; [intros w; reflexivity|]. intros w0.
  unfold generatePairingCode. repeat quiet_step.
Qed.

Lemma quiet_addMessage sid d text : quiet' (addMessage sid d text).
Proof. intros w. rewrite addMessage_run. reflexivity. Qed.

Lemma quiet_remember uid a b prefix : quiet' (remember uid a b prefix).
Proof. unfold remember, addMemoryEvent. repeat quiet_step. Qed.

Lemma quiet_applyPersonaSetup updates : quiet' (applyPersonaSetup updates).
Proof. unfold applyPersonaSetup. repeat quiet_step. Qed.

Lemma answers_reply text : answers' (reply text).
Proof. intros w. unfold reply, modify. simpl. eauto. Qed.

Lemma answers_bind {A B} (c : M (World E) A) (k : A -> M (World E) B) :
  quiet' c -> (forall a, answers' (k a)) -> answers' (bind c k).
Proof.
  intros Hc Hk w. unfold bind. specialize (Hc w).
  destruct (c w) as [[a|err] w1]; simpl in *; [|exact Hc].
  specialize (Hk a w1). destruct (k a w1) as [[b|err] w2]; by rewrite <- Hc.
Qed.

Ltac answers_step :=
  first
    [ apply answers_reply
    | apply answers_bind;
        [first [ apply quiet_addMessage | apply quiet_remember
               | apply quiet_applyPersonaSetup | apply quiet_upsertPairing
               | repeat quiet_step ]
        | intros ? ]
    | match goal with
      | |- answers (if ?b then _ else _) => destruct b
      | |- answers (match ?x with _ => _ end) => destruct x
      end ].

Variable respond : AgentRequest -> M E jstring.

Lemma answers_handle_body message : answers' (handle_body respond message).
Proof.
  unfold handle_body.
  apply answers_bind; [apply quiet_upsertPairing|]. intros pairing.
  destruct (negb pairing.1); [apply answers_reply|].
  destruct (Js.startsWith _ (lit "/skill install ")).
  { unfold skill_install, addMemoryEvent. repeat answers_step. }
  destruct (Js.startsWith _ (lit "/skill restore ")).
  { unfold skill_restore. repeat answers_step. }
  apply answers_bind; [apply quiet_getOrCreateSession|]. intros sid.
  unfold in_session.
  apply answers_bind; [apply quiet_addMessage|]. intros _.
  apply answers_bind; [apply quiet_getRecentMessages|]. intros hist.
  apply answers_bind; [apply quiet_outside|]. intros memoryCtx.
  apply answers_bind; [apply quiet_config_name|]. intros cfg.
  apply answers_bind; [apply quiet_outside|]. intros persona.
  destruct (negb _ || negb _).
  { unfold persona_gate. repeat answers_step. }
  destruct (Persona.isIdentityQuestion _).
  { unfold identity_reply. repeat answers_step. }
  unfold round_trip.
  apply answers_bind; [apply quiet_outside|]. intros workspaceContext.
  apply answers_bind; [apply quiet_outside|]. intros firstPass.
  apply answers_bind.
  { destruct (turn_actions firstPass); repeat quiet_step. }
  intros assistant. repeat answers_step.
Qed.

Lemma handleInbound_returns (message : InboundMessage) (w : World E) :
  exists w' text,
    handleInbound respond message w = (Ok tt, w') /\ replies w' = replies w ++ [text].
Proof.
  pose proof (answers_handle_body message w) as Hbody.
  unfold handleInbound, try_catch.
  destruct (handle_body respond message w) as [[[]|err] w1].
  - destruct Hbody as [text Htext]. by exists w1, text.
  - unfold reply, modify. eexists _, _. split; [reflexivity|].
    cbn [replies]. by rewrite Hbody.
Qed.

End OneReply.

Section NoApproval.
Context {E : Type} `{Collaborators E}.

Local Abbreviation keeps := (keeps_pairings (E := E)).

Lemma pairings_ret {A} (a : A) : keeps (ret a).
Proof. intros w. reflexivity. Qed.

Lemma pairings_bind {A B} (c : M (World E) A) (k : A -> M (World E) B) :
  keeps c -> (forall a, keeps (k a)) -> keeps (bind c k).
Proof.
  intros Hc Hk w. unfold bind. specialize (Hc w).
  destruct (c w) as [[a|err] w1]; simpl in *; [|exact Hc].
  by rewrite (Hk a w1).
Qed.

Lemma pairings_try_catch {A} (c : M (World E) A) (h : thrown -> M (World E) A) :
  keeps c -> (forall e, keeps (h e)) -> keeps (try_catch c h).
Proof.
  intros Hc Hh w. unfold try_catch. specialize (Hc w).
  destruct (c w) as [[a|err] w1]; simpl in *; [exact Hc|].
  by rewrite (Hh err w1).
Qed.

Lemma pairings_outside {A} (c : M E A) : keeps (outside c).
Proof. intros w. unfold outside. destruct (c (ext w)). reflexivity. Qed.

Lemma pairings_reply text : keeps (reply text).
Proof. intros w. reflexivity. Qed.

Lemma pairings_addMessage sid d text : keeps (addMessage sid d text).
Proof.
  intros w. rewrite addMessage_run. cbn [snd store]. unfold StoreOps.addMessage.
  by destruct (StoreOps.has_session _ _).
Qed.

Lemma pairings_addMemoryEvent key st d : keeps (addMemoryEvent key st d).
Proof. intros w. unfold addMemoryEvent. rewrite with_store_run. reflexivity. Qed.

Lemma pairings_getRecentMessages sid n : keeps (getRecentMessages sid n).
Proof. intros w. reflexivity. Qed.

Lemma pairings_config_name : keeps config_name.
Proof. intros w. reflexivity. Qed.

Lemma pairings_set_config_name n : keeps (set_config_name n).
Proof. intros w. reflexivity. Qed.

Lemma pairings_getOrCreateSession ch sender : keeps (getOrCreateSession ch sender).
Proof.
  intros w. unfold getOrCreateSession, StoreOps.getOrCreateSession.
  destruct (StoreOps.find_session ch sender (store w)); [|reflexivity].
  cbv zeta. destruct (StoreOps.find_session _ _ _); reflexivity.
Qed.

Ltac pairings_step :=
  first
    [ apply pairings_ret | apply pairings_outside | apply pairings_reply
    | apply pairings_addMessage | apply pairings_addMemoryEvent
    | apply pairings_getRecentMessages | apply pairings_config_name
    | apply pairings_set_config_name | apply pairings_getOrCreateSession
    | apply pairings_bind; [|intros ?]
    | apply pairings_try_catch; [|intros ?]
    | match goal with
      | |- keeps_pairings (if ?b then _ else _) => destruct b
      | |- keeps_pairings (match ?x with _ => _ end) => destruct x
      end ].

Variable respond : AgentRequest -> M E jstring.

Lemma pairings_past_the_gate message pairing :
  keeps
    (if negb pairing.1 then
       reply (lit "Pairing required. Approve with: gnamiai pairing approve "
              ++ channel_name (channel message) ++ lit " " ++ pairing.2)
     else
       let userScopedId := channel_name (channel message) ++ lit ":" ++ senderId message in
       if Js.startsWith (msg_content message) (lit "/skill install ")
       then skill_install message userScopedId
       else if Js.startsWith (msg_content message) (lit "/skill restore ")
       then skill_restore message userScopedId
       else
         let! sid := getOrCreateSession (channel message) (senderId message) in
         in_session respond message userScopedId sid).
Proof.
  destruct (negb pairing.1); [apply pairings_reply|]. cbv zeta.
  destruct (Js.startsWith _ (lit "/skill install ")).
  { unfold skill_install. repeat pairings_step. }
  destruct (Js.startsWith _ (lit "/skill restore ")).
  { unfold skill_restore. repeat pairings_step. }
  apply pairings_bind; [apply pairings_getOrCreateSession|]. intros sid.
  unfold in_session.
  apply pairings_bind; [apply pairings_addMessage|]. intros _.
  apply pairings_bind; [apply pairings_getRecentMessages|]. intros hist.
  apply pairings_bind; [apply pairings_outside|]. intros memoryCtx.
  apply pairings_bind; [apply pairings_config_name|]. intros cfg.
  apply pairings_bind; [apply pairings_outside|]. intros persona.
  destruct (negb _ || negb _).
  { unfold persona_gate, applyPersonaSetup. repeat pairings_step. }
  destruct (Persona.isIdentityQuestion _).
  { unfold identity_reply, remember. repeat pairings_step. }
  unfold round_trip, remember. repeat pairings_step.
Qed.

(** X6.  handleInbound never approves a pairing through the store: every
    pairing row that existed is left exactly as it was, no row is
    removed, and the only row it can add is the unapproved row of the
    message's own sender. *)
Theorem handleInbound_never_approves (message : InboundMessage) (w : World E) :
  let w' := (handleInbound respond message w).2 in
  (forall key row, pairings (store w) !! key = Some row ->
     pairings (store w') !! key = Some row)
  /\ (forall key row,
        pairings (store w) !! key = None -> pairings (store w') !! key = Some row ->
        key = (channel message, senderId message) /\ approved row = false)
  /\ (forall key, pairings (store w') !! key = None -> pairings (store w) !! key = None).
Proof.
  intros w'.
  assert (Hcases :
    pairings (store w') = pairings (store w)
    \/ exists fresh ts,
         pairings (store w) !! (channel message, senderId message) = None
         /\ pairings (store w')
            = <[(channel message, senderId message) := mkPairing false fresh ts]>
                (pairings (store w))).
  { assert (Hbody : pairings (store w')
                    = pairings (store (upsertPairing (channel message) (senderId message) w).2)).
    { subst w'. unfold handleInbound, try_catch.
      assert (Hb : pairings (store (handle_body respond message w).2)
                   = pairings (store (upsertPairing (channel message) (senderId message) w).2)).
      { unfold handle_body, bind.
        destruct (upsertPairing (channel message) (senderId message) w) as [[pairing|err] w1];
          [|reflexivity].
        apply (pairings_past_the_gate message pairing w1). }
      destruct (handle_body respond message w) as [[[]|err] w1]; exact Hb. }
    rewrite Hbody.
    destruct (pairings (store w) !! (channel message, senderId message)) as [row|] eqn:Hrow.
    - left. by rewrite (upsertPairing_existing _ _ _ _ Hrow).
    - right. rewrite (upsertPairing_new _ _ _ Hrow). eexists _, _. split; reflexivity. }
  destruct Hcases as [Hsame|(fresh & ts & Hnone & Hins)].
  - rewrite Hsame. split; [auto|]. split; [|auto]. intros key row Hk Hk'. congruence.
  - rewrite Hins. split; [|split].
    + intros key row Hk. rewrite lookup_insert_ne; [exact Hk|]. congruence.
    + intros key row Hk Hk'.
      destruct (decide ((channel message, senderId message) = key)) as [<-|Hne].
      * rewrite lookup_insert_eq in Hk'. injection Hk' as <-. auto.
      * rewrite lookup_insert_ne in Hk' by done. congruence.
    + intros key Hk.
      destruct (decide ((channel message, senderId message) = key)) as [<-|Hne].
      * by rewrite lookup_insert_eq in Hk.
      * by rewrite lookup_insert_ne in Hk.
Qed.

End NoApproval.

Section ProviderPath.
Context {E : Type} `{Collaborators E}.
Variable respond : AgentRequest -> M E jstring.

(** X7.  When the model provider throws on the first request of a
    conversing turn, the sender gets the single reply 'GnamiAI error: '
    followed by the error's message; no outbound message is stored, and
    the inbound message, with its content as the database stores it,
    stays recorded as the last message of the session. *)
Theorem provider_failure_is_reported
  (msg : InboundMessage) (w : World E) sid hist memoryCtx w3
  workspaceContext e4 err e5 :
  conversing msg w sid hist memoryCtx w3 ->
  Persona.isIdentityQuestion (msg_content msg) = false ->
  buildWorkspaceContext (ext w3) = (Ok workspaceContext, e4) ->
  respond (first_request msg hist memoryCtx workspaceContext) e4 = (Throw err, e5) ->
  handleInbound respond msg w
  = (Ok tt,
     mkWorld (store w3) (config_assistantName w)
       (replies w
        ++ [lit "GnamiAI error: " ++ message_or err (lit "unknown runtime failure")])
       e5)
  /\ (is_Error err = true ->
      message_or err (lit "unknown runtime failure") = message err)
  /\ messages (store w3)
     = messages (StoreOps.getOrCreateSession (channel msg) (senderId msg)
                   (now (ext w)) (store w)).2
       ++ [mkMessage
             (messages_seq (StoreOps.getOrCreateSession (channel msg) (senderId msg)
                              (now (ext w)) (store w)).2 + 1)
             sid inbound (Utf8.stored (msg_content msg)) (now (ext w))].
Proof.
  intros Hconv Hq Hctx Hfirst.
  destruct (conversing_frame _ _ _ _ _ _ Hconv) as [Hcfg Hrep3].
  split; [|split].
  - unfold handleInbound, try_catch.
    rewrite (handle_body_conversing respond msg w sid hist memoryCtx w3 Hconv), Hq.
    unfold round_trip.
    rewrite (bind_ok _ _ _ _ _ (outside_ok _ _ _ _ Hctx)).
    unfold bind at 1. unfold outside at 1. cbn [ext]. rewrite Hfirst.
    unfold reply, modify. cbn [store config_assistantName replies ext].
    by rewrite Hcfg, Hrep3.
  - intros Herr. unfold message_or. by rewrite Herr.
  - destruct Hconv as (row & st1 & mid & st2 & e1 & persona & e2 & _ & _ & _ & _
                       & Hsess & Hadd & _ & _ & _ & _ & _ & ->).
    rewrite Hsess. cbn [snd store]. unfold StoreOps.addMessage in Hadd.
    destruct (StoreOps.has_session sid st1); [|discriminate Hadd].
    injection Hadd as _ <-. reflexivity.
Qed.

(** X8.  When the first answer of the model holds no executable action,
    the turn is a single pass: the reply is that answer with its action
    markup stripped, the reply is stored, as the database keeps it, as
    the outbound message of the session, the conversation memory is
    written once on the state the first answer left, and one memory
    event is logged. *)
Theorem answer_without_actions_is_single_pass
  (message : InboundMessage) (w : World E) sid hist memoryCtx w3
  workspaceContext e4 firstPass e5 :
  conversing message w sid hist memoryCtx w3 ->
  Persona.isIdentityQuestion (msg_content message) = false ->
  buildWorkspaceContext (ext w3) = (Ok workspaceContext, e4) ->
  respond (first_request message hist memoryCtx workspaceContext) e4 = (Ok firstPass, e5) ->
  parseAgentActions firstPass = [] ->
  let uid := channel_name (channel message) ++ lit ":" ++ senderId message in
  let answer := stripAgentActions firstPass in
  exists w',
    handleInbound respond message w = (Ok tt, w')
    /\ replies w' = replies w ++ [answer]
    /\ messages (store w')
       = messages (store w3)
         ++ [mkMessage (messages_seq (store w3) + 1) sid outbound (Utf8.stored answer)
               (now e5)]
    /\ ext w' = (memory_addConversationMemory uid (msg_content message) answer e5).2
    /\ exists ev, memory_events (store w') = memory_events (store w3) ++ [ev].
Proof.
  intros Hconv Hq Hctx Hfirst Hnone uid answer.
  destruct (conversing_frame _ _ _ _ _ _ Hconv) as [Hcfg Hrep3].
  unfold handleInbound, try_catch.
  rewrite (handle_body_conversing respond message w sid hist memoryCtx w3 Hconv), Hq.
  unfold round_trip.
  rewrite (bind_ok _ _ _ _ _ (outside_ok _ _ _ _ Hctx)).
  unfold bind at 1. unfold outside at 1. cbn [ext]. rewrite Hfirst.
  unfold turn_actions. rewrite Hnone. cbn [take].
  unfold bind at 1. unfold ret at 1.
  unfold bind at 1. rewrite addMessage_run.
  cbn [ext store config_assistantName replies].
  rewrite (addMessage_ok _ _ _ _ _ (conversing_session _ _ _ _ _ _ Hconv)).
  cbn [fst snd].
  unfold bind at 1. unfold remember, try_catch, bind, outside.
  cbn [ext store config_assistantName replies].
  fold uid. fold answer.
  destruct (memory_addConversationMemory uid (msg_content message) answer e5)
    as [[backend|err] e6]; unfold addMemoryEvent; rewrite with_store_run;
    cbn [ext store config_assistantName replies fst snd StoreOps.addMemoryEvent];
    unfold reply, modify; eexists; (split; [reflexivity|]);
    cbn [replies store messages ext memory_events snd]; rewrite Hrep3;
    repeat split; eauto.
Qed.

End ProviderPath.


Section Commands.
Context {E : Type} `{Collaborators E}.
Variable respond : AgentRequest -> M E jstring.

Lemma split_lit_one_line (s : jstring) :
  forallb (fun c => negb (N.eqb c 10)) s = true ->
  forall cur, Js.split_lit_aux [Persona.nl] cur s 0 = [rev cur ++ s].
Proof.
  induction s as [|c s IH]; intros Hs cur; cbn [Js.split_lit_aux].
  - by rewrite app_nil_r.
  - cbn [forallb] in Hs. apply andb_true_iff in Hs as [Hc Hs].
    apply negb_true_iff in Hc. cbn [Js.startsWith]. unfold Persona.nl.
    rewrite N.eqb_sym, Hc. cbn [andb]. rewrite (IH Hs). cbn [rev].
    by rewrite <- app_assoc.
Qed.

(** X9.  A '/skill install <name>' message written on a single line by
    an approved sender is answered with the usage text and changes
    nothing: no skill is installed, no session or message is recorded,
    and the outside world is untouched. *)
Theorem single_line_skill_install_is_refused
  (msg : InboundMessage) (w : World E) (row : PairingRow) (name : jstring) :
  pairings (store w) !! (channel msg, senderId msg) = Some row ->
  approved row = true ->
  msg_content msg = lit "/skill install " ++ name ->
  forallb (fun c => negb (N.eqb c 10)) name = true ->
  handleInbound respond msg w
  = (Ok tt,
     mkWorld (store w) (config_assistantName w)
       (replies w
        ++ [lit "Usage: /skill install <name> followed by SKILL.md content on next lines."])
       (ext w)).
Proof.
  intros Hrow Happ Hcontent Hline.
  unfold handleInbound, try_catch, handle_body.
  rewrite (bind_ok _ _ _ _ _ (upsertPairing_existing _ _ _ _ Hrow)).
  cbn [fst snd]. rewrite Happ. cbn [negb].
  assert (Hstarts : Js.startsWith (msg_content msg) (lit "/skill install ") = true).
  { apply StripJoin.startsWith_spec. by exists name. }
  rewrite Hstarts. unfold skill_install, Js.split_lit.
  rewrite split_lit_one_line.
  2:{ rewrite Hcontent, forallb_app. apply andb_true_iff. split; [reflexivity | exact Hline]. }
  cbn [tail Js.join Js.trim Js.trimStart Js.trimEnd rev Js.truthy negb].
  rewrite orb_true_r. unfold reply, modify. reflexivity.
Qed.

End Commands.

Section WebChatFacts.
Context {E : Type} `{Collaborators E}.
Variable respond : AgentRequest -> M E jstring.


End WebChatFacts.

Module CdpAnswers.
Import Cdp CdpMore CdpFacts.

Section Session.
Variable to_String : json -> jstring.
Variable JSON_stringify : N -> jstring -> json -> jstring.

Local Abbreviation on_message := (Cdp.on_message to_String).
Local Abbreviation command := (Cdp.command JSON_stringify).
Local Abbreviation step := (Cdp.step to_String JSON_stringify).
Local Abbreviation run := (Cdp.run to_String JSON_stringify).

Lemma cdp_run_cons ev evs s : run (ev :: evs) s = run evs (step ev s).
Proof. reflexivity. Qed.

Lemma cdp_run_app evs1 evs2 s : run (evs1 ++ evs2) s = run evs2 (run evs1 s).
Proof. unfold Cdp.run. apply fold_left_app. Qed.

Lemma settle_kept p o' (ps : gmap N Outcome) i o :
  ps !! i = Some o -> settle p o' ps !! i = Some o.
Proof.
  intros Hi. unfold settle. destruct (ps !! p) eqn:Hp; [exact Hi|].
  rewrite lookup_insert_ne; [exact Hi|]. congruence.
Qed.

Lemma on_timeout_settled t s i o :
  promises s !! i = Some o -> promises (on_timeout t s) !! i = Some o.
Proof.
  intros Hi. unfold on_timeout. destruct (pending s !! t_id t); [|exact Hi].
  simpl. by apply settle_kept.
Qed.

Lemma fold_timeout_settled ts s i o :
  promises s !! i = Some o ->
  promises (fold_left (fun acc t => on_timeout t acc) ts s) !! i = Some o.
Proof.
  revert s. induction ts as [|t ts IH]; intros s Hi; simpl; [exact Hi|].
  apply IH. by apply on_timeout_settled.
Qed.

(** A settled promise keeps its outcome. *)
Lemma cdp_step_settled ev s i o :
  promises s !! i = Some o -> promises (step ev s) !! i = Some o.
Proof.
  intros Hi. destruct ev as [raw | m params | dt |]; simpl.
  - destruct (on_message_cases to_String raw s) as [->|(key & p & outcome & _ & _ & ->)];
      [exact Hi|]. simpl. by apply settle_kept.
  - unfold Cdp.command. destruct (negb (ws s)); exact Hi.
  - unfold advance. by apply fold_timeout_settled.
  - exact Hi.
Qed.

Lemma cdp_run_settled evs s i o :
  promises s !! i = Some o -> promises (run evs s) !! i = Some o.
Proof.
  revert s. induction evs as [|ev evs IH]; intros s Hi; [exact Hi|].
  rewrite cdp_run_cons. apply IH. by apply cdp_step_settled.
Qed.

(** Before its deadline a call that nobody answers keeps waiting. *)
Lemma awaiting_step i method d ev s :
  tracked i method d s -> awaiting i method d s ->
  ev <> EClose -> (forall raw, ev = EFrame raw -> ~ carries raw i) ->
  (clock (step ev s) < d)%N ->
  awaiting i method d (step ev s).
Proof.
  intros Htr Haw Hopen Hquiet Hclock.
  destruct (tracked_step to_String JSON_stringify i method d ev s Htr Hopen Hquiet)
    as (_ & _ & _ & [Ha|[He1 He2]]); [exact Ha|].
  exfalso. destruct Htr as (Hid & Hl & Htim & _).
  destruct Haw as (Hp & Hq & Hin & Hd).
  destruct ev as [raw | m params | dt |]; [| | |congruence]; simpl in *.
  - specialize (Hquiet raw eq_refl).
    destruct (on_message_cases to_String raw s) as [Hsame|(key & p & outcome & Hcar & Hkp & Heq)].
    + change (Cdp.on_message to_String raw s).2 with (on_message raw s).2 in *.
      rewrite Hsame in He2. congruence.
    + assert (key <> i) as Hkey by (intros ->; contradiction).
      apply Hl in Hkp as Hpk. subst p.
      change (Cdp.on_message to_String raw s) with (on_message raw s) in *.
      rewrite Heq in He2. simpl in He2. rewrite settle_other in He2 by done. congruence.
  - unfold Cdp.command in He2. destruct (negb (ws s)); simpl in He2; congruence.
  - destruct (advance_fields dt s) as (_ & _ & Hc & _). rewrite Hc in Hclock.
    set (now := (clock s + dt)%N) in *.
    set (s0 := mkSession (ws s) (id s) (pending s) now
                 (filter (fun t => due now t = false) (timers s)) (promises s) (sent s)).
    destruct (fold_timeout_skip i (filter (fun t => due now t = true) (timers s)) s0 Hl)
      as (_ & _ & Hq').
    { intros t Ht Hti. apply list_elem_of_filter in Ht as [Hdue Ht].
      rewrite (Htim t Ht Hti) in Hdue. unfold due in Hdue. simpl in Hdue.
      apply N.leb_le in Hdue. lia. }
    unfold advance in He2. fold now in He2. fold s0 in He2. rewrite Hq' in He2.
    simpl in He2. congruence.
Qed.

Lemma awaiting_run i method d evs :
  forall s, tracked i method d s -> awaiting i method d s ->
    unanswered i evs -> (clock (run evs s) < d)%N ->
    tracked i method d (run evs s) /\ awaiting i method d (run evs s).
Proof.
  induction evs as [|ev evs IH]; intros s Htr Haw Hquiet Hclock; [auto|].
  rewrite cdp_run_cons in *.
  destruct (Hquiet ev) as [Hopen Hfr]; [left|].
  assert (Hquiet' : unanswered i evs) by (intros ev' Hin; apply Hquiet; by right).
  apply IH; auto.
  - by apply tracked_step.
  - apply awaiting_step; auto.
    pose proof (run_clock to_String JSON_stringify evs (step ev s)) as Hrc.
    change (Cdp.run to_String JSON_stringify evs (Cdp.step to_String JSON_stringify ev s))
      with (run evs (step ev s)) in Hrc. lia.
Qed.

Lemma command_awaiting before method params i s1 :
  command method params (run before (connect create)) = (Ok i, s1) ->
  tracked i method (clock s1 + 15000) s1 /\ awaiting i method (clock s1 + 15000) s1
  /\ (1 <= i)%N.
Proof.
  intros Hcmd.
  pose proof (run_well_formed to_String JSON_stringify before _ create_well_formed) as Hwf.
  destruct (command_tracked JSON_stringify _ _ _ _ _ Hwf Hcmd) as [Htr Hclock].
  rewrite Hclock. split; [exact Htr|].
  unfold Cdp.command in Hcmd. destruct (negb (ws _)); [discriminate|].
  injection Hcmd as <- <-.
  destruct Htr as (_ & _ & _ & [Ha|[Ha _]]).
  - split; [exact Ha|lia].
  - simpl in Ha. by rewrite lookup_insert_eq in Ha.
Qed.

(** X11.  A response frame that carries the id of a pending command and
    arrives before the 15000 ms timer settles that call: resolved with
    the frame's result, or rejected with the frame's error when the
    frame holds a truthy one. The call leaves the pending table, and no
    later event changes its outcome. *)
Theorem response_settles_the_call
  (before : list Event) (method : jstring) (params : json) (i : N)
  (s1 : CdpSession) (evs : list Event) (raw : jstring) (payload : json) (n : number) :
  command method params (run before (connect create)) = (Ok i, s1) ->
  unanswered i evs ->
  (elapsed evs < 15000)%N ->
  Json.parse raw = Some payload ->
  Json.get payload "id" = Some (JNum n) ->
  as_id n = Some i ->
  let s2 := step (EFrame raw) (run evs s1) in
  on_message raw (run evs s1) = (Ok tt, s2)
  /\ promises (run evs s1) !! i = None
  /\ promises s2 !! i = Some (response_outcome to_String payload)
  /\ pending s2 !! i = None
  /\ forall later, promises (run later s2) !! i = Some (response_outcome to_String payload).
Proof.
  intros Hcmd Hquiet Hearly Hparse Hid Hkey s2.
  destruct (command_awaiting _ _ _ _ _ Hcmd) as (Htr & Haw & Hpos).
  destruct (awaiting_run i method _ evs s1 Htr Haw Hquiet) as [_ (Hp & Hq & _)].
  { rewrite (run_clock to_String JSON_stringify). lia. }
  assert (Hfalsy : Json.falsy (JNum n) = false).
  { destruct n; [discriminate Hkey | reflexivity | discriminate Hkey]. }
  assert (Hrun : on_message raw (run evs s1)
                 = (Ok tt,
                    mkSession (ws (run evs s1)) (id (run evs s1))
                      (delete i (pending (run evs s1))) (clock (run evs s1))
                      (timers (run evs s1))
                      (settle i (response_outcome to_String payload) (promises (run evs s1)))
                      (sent (run evs s1)))).
  { unfold Cdp.on_message, response_outcome. rewrite Hparse.
    destruct payload; try discriminate Hid; rewrite Hid, Hfalsy, Hkey, Hp; reflexivity. }
  assert (Hs2 : s2 = (on_message raw (run evs s1)).2) by reflexivity.
  rewrite Hrun in Hs2. cbn [snd] in Hs2.
  assert (Hsettled : promises s2 !! i = Some (response_outcome to_String payload)).
  { rewrite Hs2. simpl. by apply settle_fresh. }
  split; [by rewrite Hrun, Hs2|]. split; [exact Hq|]. split; [exact Hsettled|].
  split; [rewrite Hs2; simpl; apply lookup_delete_eq|].
  intros later. by apply cdp_run_settled.
Qed.

Lemma on_timeout_abandoned i t s : abandoned i s -> abandoned i (on_timeout t s).
Proof.
  intros (Hid & Hl & Hp & Hq).
  split; [by destruct (on_timeout_fields t s) as (_ & -> & _)|].
  split; [by apply on_timeout_linked|].
  unfold on_timeout. destruct (pending s !! t_id t) as [p|] eqn:Ht; [|auto].
  apply Hl in Ht as Hpt. subst p.
  assert (t_id t <> i) by congruence. simpl.
  split; [by rewrite lookup_delete_ne | by rewrite settle_other].
Qed.

Lemma fold_timeout_abandoned i ts s :
  abandoned i s -> abandoned i (fold_left (fun acc t => on_timeout t acc) ts s).
Proof.
  revert s. induction ts as [|t ts IH]; intros s Hs; simpl; [exact Hs|].
  apply IH. by apply on_timeout_abandoned.
Qed.

Lemma step_abandoned i ev s : abandoned i s -> abandoned i (step ev s).
Proof.
  intros (Hid & Hl & Hp & Hq). destruct ev as [raw | m params | dt |]; simpl.
  - destruct (on_message_cases to_String raw s) as [->|(key & p & outcome & _ & Hkp & ->)];
      [by repeat split|].
    apply Hl in Hkp as Hpk. subst p. assert (key <> i) by congruence.
    split; [exact Hid|]. split.
    { intros k p Hk. simpl in Hk. destruct (decide (key = k)) as [<-|Hne].
      - by rewrite lookup_delete_eq in Hk.
      - rewrite lookup_delete_ne in Hk by done. by apply Hl. }
    simpl. split; [by rewrite lookup_delete_ne | by rewrite settle_other].
  - unfold Cdp.command. destruct (negb (ws s)); [by repeat split|]. simpl.
    assert ((id s + 1)%N <> i) by lia.
    split; [simpl; lia|]. split.
    { intros k p Hk. simpl in Hk. destruct (decide ((id s + 1)%N = k)) as [<-|Hne].
      - rewrite lookup_insert_eq in Hk. congruence.
      - rewrite lookup_insert_ne in Hk by done. by apply Hl. }
    simpl. split; [by rewrite lookup_insert_ne | exact Hq].
  - unfold advance. apply fold_timeout_abandoned. by repeat split.
  - split; [exact Hid|]. split; [|split; [apply lookup_empty | exact Hq]].
    intros k p Hk. simpl in Hk. by rewrite lookup_empty in Hk.
Qed.

Lemma run_abandoned i evs s : abandoned i s -> abandoned i (run evs s).
Proof.
  revert s. induction evs as [|ev evs IH]; intros s Hs; [exact Hs|].
  rewrite cdp_run_cons. apply IH. by apply step_abandoned.
Qed.

(** X12.  close abandons the pending calls: a command still waiting when
    the session is closed is never settled afterwards, neither by its
    timer nor by a late response frame, which is ignored. A command
    issued on the closed session throws 'CDP session not connected.' and
    changes nothing. *)
Theorem close_abandons_pending_calls
  (before : list Event) (method : jstring) (params : json) (i : N)
  (s1 : CdpSession) (evs later : list Event) :
  command method params (run before (connect create)) = (Ok i, s1) ->
  unanswered i evs ->
  (elapsed evs < 15000)%N ->
  let s2 := close (run evs s1) in
  promises (run evs s1) !! i = None
  /\ promises (run later s2) !! i = None
  /\ pending (run later s2) !! i = None
  /\ (forall raw, carries raw i -> on_message raw (run later s2) = (Ok tt, run later s2))
  /\ (forall m p, command m p s2 = (Throw (Error "CDP session not connected."), s2)).
Proof.
  intros Hcmd Hquiet Hearly s2.
  destruct (command_awaiting _ _ _ _ _ Hcmd) as (Htr & Haw & Hpos).
  destruct (awaiting_run i method _ evs s1 Htr Haw Hquiet) as [Htr' (Hp & Hq & _)].
  { rewrite (run_clock to_String JSON_stringify). lia. }
  assert (Hab : abandoned i s2).
  { destruct Htr' as (Hid & _). split; [exact Hid|]. split.
    - intros k p Hk. simpl in Hk. by rewrite lookup_empty in Hk.
    - split; [apply lookup_empty | exact Hq]. }
  destruct (run_abandoned i later s2 Hab) as (_ & _ & Hp' & Hq').
  split; [exact Hq|]. split; [exact Hq'|]. split; [exact Hp'|]. split.
  - intros raw Hraw. by apply (late_frame_ignored to_String raw i).
  - intros m p. reflexivity.
Qed.

Lemma cdp_step_id ev s : (id s <= id (step ev s))%N.
Proof.
  destruct ev as [raw | m params | dt |]; simpl.
  - destruct (on_message_cases to_String raw s) as [->|(key & p & outcome & _ & _ & ->)];
      simpl; lia.
  - unfold Cdp.command. destruct (negb (ws s)); simpl; lia.
  - destruct (advance_fields dt s) as (_ & -> & _). lia.
  - lia.
Qed.

Lemma cdp_run_id evs s : (id s <= id (run evs s))%N.
Proof.
  revert s. induction evs as [|ev evs IH]; intros s; [simpl; lia|].
  rewrite cdp_run_cons. pose proof (cdp_step_id ev s). specialize (IH (step ev s)). lia.
Qed.

(** X13.  Command ids are issued in increasing order, each one more than
    the session counter it found, so two commands of a session never
    share an id; a command is registered as pending under its own id. *)
Theorem command_ids_never_repeat
  (method : jstring) (params : json) (s : CdpSession) (i : N) (s1 : CdpSession)
  (evs : list Event) (method' : jstring) (params' : json) (j : N) (s2 : CdpSession) :
  command method params s = (Ok i, s1) ->
  command method' params' (run evs s1) = (Ok j, s2) ->
  (i < j)%N /\ i = (id s + 1)%N /\ pending s2 !! j = Some j.
Proof.
  unfold Cdp.command. destruct (negb (ws s)); [discriminate|]. intros [= <- <-].
  destruct (negb (ws (run evs _))); [discriminate|]. intros [= <- <-].
  match goal with |- context [run evs ?s0] => pose proof (cdp_run_id evs s0) as Hmono end.
  simpl in *. split; [lia|]. split; [reflexivity|]. apply lookup_insert_eq.
Qed.

End Session.
End CdpAnswers.

Module StripRender.
Import Re ReFacts StripFacts StripJoin RenderFacts.


Lemma search_strip_no_block p s : ~ has_block s -> search plain strip_pattern p s = None.
Proof.
  intros Hnone. destruct (search plain strip_pattern p s) as [f|] eqn:Hs; [|reflexivity].
  exfalso. apply Hnone.
  destruct (search_Some _ _ _ _ _ Hs) as (p' & e & Hm & Hsplit & _).
  apply has_block_split. exists (before f), (matched f ++ after f).
  split; [exact Hsplit|]. apply (strip_match_iff p'). eauto.
Qed.

Lemma gaps_no_match fl r s : search fl r None s = None -> gaps fl r s = [s].
Proof.
  intros Hs. unfold gaps. destruct (length s) as [|n]; [reflexivity|].
  cbn [scan]. by rewrite Hs.
Qed.

Lemma plain_text_no_block s : plain_text s = true -> ~ has_block s.
Proof.
  intros Hs (pre & body & post & ->).
  rewrite !plain_text_app in Hs. apply andb_true_iff in Hs as [_ Hs].
  apply andb_true_iff in Hs as [Hs _]. discriminate Hs.
Qed.

Lemma strip_no_block (text : jstring) :
  ~ has_block text -> stripAgentActions text = Js.trim text.
Proof.
  intros Hnone. unfold stripAgentActions, replace_all.
  rewrite (gaps_no_match _ _ _ (search_strip_no_block None text Hnone)). reflexivity.
Qed.

Lemma parse_no_block (text : jstring) : ~ has_block text -> parseAgentActions text = [].
Proof.
  intros Hnone. unfold parseAgentActions. rewrite exec_all_no_block by exact Hnone.
  reflexivity.
Qed.

(** X14.  A text that holds no action block (no opening marker followed
    later by a closing fence) is only trimmed by stripAgentActions, and
    no action is parsed from it. *)
Theorem text_without_block_is_only_trimmed (text : jstring) :
  ~ has_block text ->
  stripAgentActions text = Js.trim text
  /\ parseAgentActions text = []
  /\ turn_actions text = [].
Proof.
  intros Hnone. split; [by apply strip_no_block|].
  split; [by apply parse_no_block|].
  unfold turn_actions. by rewrite parse_no_block.
Qed.

(** At a block whose body has no backtick the strip pattern matches up
    to the fence. *)
Lemma strip_block p body r :
  plain_text body = true ->
  match_here plain strip_pattern p (opener ++ body ++ fence ++ r)
  = Some (MState (Some 96%N) r []).
Proof.
  intros Hplain. unfold match_here. rewrite strip_pattern_shape. cbn [m].
  rewrite m_str.
  destruct (eat_all_prefix opener (MState p (opener ++ body ++ fence ++ r) [])
              (body ++ fence ++ r) eq_refl) as (s1 & Heat & Hrest1).
  rewrite Heat. pose proof (eat_all_caps _ _ _ Heat) as Hcaps1. cbn [caps] in Hcaps1.
  unfold lazy_star. cbn [m].
  apply (rep_lazy_first _ _ (fence ++ r)) with (b := body).
  - intros st x t Hst Hx. rewrite m_str.
    by rewrite (eat_all_fence_fails st x t Hst Hx).
  - exact Hrest1.
  - exact Hplain.
  - lia.
  - rewrite m_str.
    destruct (skip_rest body s1 (fence ++ r) Hrest1) as [Hrest2 Hcaps2].
    destruct (skip (length body) s1) as [p2 r2 c2]. cbn [rest caps] in Hrest2, Hcaps2.
    subst r2 c2. rewrite Hcaps1. apply eat_all_fence.
Qed.

Lemma strip_plain_fails (p : option char) (c : char) (t : jstring) :
  N.eqb c 96 = false -> match_here plain strip_pattern p (c :: t) = None.
Proof.
  intros Hc. unfold match_here. rewrite strip_pattern_shape. cbn [m]. rewrite m_str.
  change opener with (96%N :: lit "``gnami-action"). cbn [eat_all rest].
  rewrite N.eqb_sym in Hc. by rewrite Hc.
Qed.

Lemma search_strip_plain (s : jstring) :
  plain_text s = true -> forall p, search plain strip_pattern p s = None.
Proof.
  intros Hs p. apply search_strip_no_block. by apply plain_text_no_block.
Qed.

Lemma search_strip_past_plain (sep x : jstring) f :
  plain_text sep = true ->
  (forall q, search plain strip_pattern q x = Some f) ->
  forall p,
    search plain strip_pattern p (sep ++ x)
    = Some (Found (sep ++ before f) (matched f) (groups f) (after_prev f) (after f)).
Proof.
  intros Hplain Hx. induction sep as [|c sep IH]; intros p.
  - simpl. rewrite Hx. by destruct f.
  - simpl in Hplain. apply andb_true_iff in Hplain as [Hc Hplain].
    apply negb_true_iff in Hc. cbn [app].
    rewrite search_cons, (strip_plain_fails p c (sep ++ x) Hc). by rewrite (IH Hplain).
Qed.

(** One pass over an answer written block by block keeps the text
    between the blocks and the tail. *)
Lemma scan_strip_render segs tail :
  well_fenced segs tail = true ->
  forall fuel p,
    length (render segs tail) <= fuel ->
    let '(fs, tl) := scan fuel plain strip_pattern p (render segs tail) in
    map before fs = map fst segs /\ tl = tail.
Proof.
  unfold well_fenced. intros Hwf. apply andb_true_iff in Hwf as [Hsegs Htail].
  induction segs as [|[sep body] segs IH]; intros fuel p Hlen.
  - cbn [render]. destruct fuel; [cbn [scan map]; auto|]. cbn [scan].
    rewrite search_strip_plain by exact Htail. cbn [map]. auto.
  - simpl in Hsegs. apply andb_true_iff in Hsegs as [Hsb Hsegs].
    apply andb_true_iff in Hsb as [Hsep Hbody]. simpl in Hsep, Hbody.
    specialize (IH Hsegs).
    cbn [render] in *. set (rest_text := render segs tail) in *.
    destruct fuel as [|fuel].
    { rewrite !length_app in Hlen. change (length opener) with 15 in Hlen. lia. }
    cbn [scan].
    rewrite (search_strip_past_plain sep (opener ++ body ++ fence ++ rest_text)
               (mk_found [] (opener ++ body ++ fence ++ rest_text)
                  (MState (Some 96%N) rest_text [])) Hsep).
    2:{ intros q. apply search_here. by apply strip_block. }
    cbn [mk_found matched before groups after_prev after rest caps prev].
    assert (Htake : take (length (opener ++ body ++ fence ++ rest_text) - length rest_text)
                      (opener ++ body ++ fence ++ rest_text)
                    = 96%N :: lit "``gnami-action" ++ body ++ fence).
    { change (96%N :: lit "``gnami-action" ++ body ++ fence)
        with (opener ++ body ++ fence).
      replace (opener ++ body ++ fence ++ rest_text)
        with ((opener ++ body ++ fence) ++ rest_text) by (by rewrite <- !app_assoc).
      apply take_app_length'. rewrite !length_app. lia. }
    rewrite Htake.
    specialize (IH fuel (Some 96%N)).
    destruct (scan fuel plain strip_pattern (Some 96%N) rest_text) as [fs tl] eqn:Hscan.
    destruct IH as [Hfs Htl].
    { rewrite !length_app in Hlen. change (length opener) with 15 in Hlen. lia. }
    cbn [map before fst]. rewrite app_nil_r, Hfs, Htl. auto.
Qed.

Lemma plain_text_concat (parts : list jstring) :
  forallb plain_text parts = true -> plain_text (concat parts) = true.
Proof.
  induction parts as [|a parts IH]; [reflexivity|]. simpl.
  intros Hp. apply andb_true_iff in Hp as [Ha Hp]. rewrite plain_text_app, Ha. by apply IH.
Qed.

Lemma plain_text_trim s : plain_text s = true -> plain_text (Js.trim s) = true.
Proof.
  intros Hs. destruct (trim_inside s) as (a & b & Hsplit).
  rewrite Hsplit, !plain_text_app in Hs.
  apply andb_true_iff in Hs as [_ Hs]. by apply andb_true_iff in Hs as [? _].
Qed.

(** X15.  For an answer written as pieces of text and action blocks,
    none of them holding a backtick of its own, stripAgentActions
    returns exactly the pieces of text, concatenated and trimmed. The
    result holds no backtick, no action is parsed from it, and stripping
    it again changes nothing. *)
Theorem stripAgentActions_keeps_the_text_around_blocks
  (segs : list (jstring * jstring)) (tail : jstring) :
  well_fenced segs tail = true ->
  stripAgentActions (render segs tail) = Js.trim (concat (map fst segs) ++ tail)
  /\ plain_text (stripAgentActions (render segs tail)) = true
  /\ parseAgentActions (stripAgentActions (render segs tail)) = []
  /\ stripAgentActions (stripAgentActions (render segs tail))
     = stripAgentActions (render segs tail).
Proof.
  intros Hwf.
  assert (Hstrip : stripAgentActions (render segs tail)
                   = Js.trim (concat (map fst segs) ++ tail)).
  { unfold stripAgentActions, replace_all, gaps.
    pose proof (scan_strip_render segs tail Hwf _ None (le_n _)) as Hscan.
    destruct (scan _ plain strip_pattern None (render segs tail)) as [fs tl].
    destruct Hscan as [-> ->]. rewrite join_nil, concat_app. simpl.
    by rewrite app_nil_r. }
  assert (Hplain : plain_text (stripAgentActions (render segs tail)) = true).
  { rewrite Hstrip. apply plain_text_trim. rewrite plain_text_app.
    unfold well_fenced in Hwf. apply andb_true_iff in Hwf as [Hsegs Htail].
    rewrite Htail, andb_true_r. apply plain_text_concat.
    rewrite forallb_forall in Hsegs. apply forallb_forall. intros g Hg.
    apply in_map_iff in Hg as ([sep body] & <- & Hin).
    specialize (Hsegs _ Hin). by apply andb_true_iff in Hsegs as [? _]. }
  pose proof (plain_text_no_block _ Hplain) as Hnone.
  split; [exact Hstrip|]. split; [exact Hplain|]. split; [by apply parse_no_block|].
  rewrite (strip_no_block _ Hnone). rewrite Hstrip. apply trim_idem.
Qed.

End StripRender.

Section Inert.
Context {E : Type} `{Collaborators E}.

Lemma run_integration_without_runtime app act params (e : E) :
  run_action false (Integration app act params) e
  = (Ok (mkResult (Integration app act params) false
           (lit "Integration runtime is not available.")), e).
Proof. reflexivity. Qed.

(** X16.  Without an integration runtime, executeAgentActions fails
    every integration action with 'Integration runtime is not
    available.' and without touching the outside world: the other
    actions give the same results and the same final state as if the
    integration actions were not in the list. *)
Theorem integrations_are_inert_without_runtime (actions : list AgentAction) (e : E) :
  exists rs e',
    executeAgentActions actions false e = (Ok rs, e')
    /\ executeAgentActions (filter (fun a => is_integration a = false) actions) false e
       = (Ok (filter (fun r => is_integration (ar_action r) = false) rs), e')
    /\ Forall (fun r =>
                 is_integration (ar_action r) = true ->
                 ok r = false /\ output r = lit "Integration runtime is not available.") rs.
Proof.
  revert e. induction actions as [|a rest IH]; intros e.
  - exists [], e. repeat split. constructor.
  - destruct (is_integration a) eqn:Ha.
    + destruct a as [| |app act params]; try discriminate Ha.
      destruct (IH e) as (rs & e' & Hrun & Hfil & Hall).
      eexists (_ :: rs), e'. split.
      { apply (executeAgentActions_cons _ _ _ _ _ _ _ _
                 (run_integration_without_runtime app act params e) Hrun). }
      split.
      { rewrite filter_cons_False by (simpl; congruence).
        rewrite filter_cons_False by (simpl; congruence). exact Hfil. }
      constructor; [simpl; auto | exact Hall].
    + destruct (run_action_total false a e) as (r & e1 & Hr & Har).
      destruct (IH e1) as (rs & e' & Hrun & Hfil & Hall).
      exists (r :: rs), e'. split.
      { apply (executeAgentActions_cons _ _ _ _ _ _ _ _ Hr Hrun). }
      split.
      { rewrite filter_cons_True by exact Ha.
        rewrite filter_cons_True by (by rewrite Har).
        apply (executeAgentActions_cons _ _ _ _ _ _ _ _ Hr Hfil). }
      constructor; [|exact Hall]. rewrite Har, Ha. discriminate.
Qed.

End Inert.

Module ShellFacts.
Import ShellProcess.

Section Exec.
Variable number_to_string : number -> jstring.
Variable timeoutMs : number.

Local Abbreviation step := (ShellProcess.step number_to_string timeoutMs).
Local Abbreviation run := (ShellProcess.run number_to_string timeoutMs).
Local Abbreviation timed_out := (ShellProcess.timed_out number_to_string timeoutMs).

Lemma shell_run_cons ev evs c : run (ev :: evs) c = run evs (step ev c).
Proof. reflexivity. Qed.

Lemma shell_run_app evs1 evs2 c : run (evs1 ++ evs2) c = run evs2 (run evs1 c).
Proof. unfold ShellProcess.run. apply fold_left_app. Qed.

Lemma shell_step_settled ev c o :
  settled c = Some o -> settled (step ev c) = Some o.
Proof.
  intros Hc. destruct ev; simpl; rewrite ?Hc; try reflexivity.
  destruct (timer c); simpl; by rewrite ?Hc.
Qed.

Lemma shell_run_settled evs c o :
  settled c = Some o -> settled (run evs c) = Some o.
Proof.
  revert c. induction evs as [|ev evs IH]; intros c Hc; [exact Hc|].
  rewrite shell_run_cons. apply IH. by apply shell_step_settled.
Qed.

Lemma shell_step_killed ev c : killed c = true -> killed (step ev c) = true.
Proof. intros Hc. destruct ev; simpl; auto. by destruct (timer c). Qed.

Lemma shell_run_killed evs c : killed c = true -> killed (run evs c) = true.
Proof.
  revert c. induction evs as [|ev evs IH]; intros c Hc; [exact Hc|].
  rewrite shell_run_cons. apply IH. by apply shell_step_killed.
Qed.

(** While only output arrives the promise is pending and the timer set. *)
Lemma shell_run_data evs :
  forallb is_data evs = true ->
  forall c,
    run evs c
    = mkChild (stdout c ++ written true evs) (stderr c ++ written false evs)
        (timer c) (killed c) (settled c).
Proof.
  induction evs as [|ev evs IH]; intros Hd c.
  - simpl. unfold written. simpl. rewrite !app_nil_r. by destruct c.
  - simpl in Hd. apply andb_true_iff in Hd as [Hev Hd]. rewrite shell_run_cons, (IH Hd).
    destruct ev; try discriminate Hev; simpl; unfold written; simpl;
      by rewrite <- ?app_assoc.
Qed.

Lemma on_exit_never_empty status out err :
  match on_exit status out err with
  | Ok text => text <> []
  | Throw error => message error <> [] /\ is_Error error = true
  end.
Proof.
  unfold on_exit.
  set (output := Js.join _ _).
  destruct (bool_decide (status = Some 0%Z)).
  - destruct output; simpl; discriminate.
  - destruct output; simpl; split; try discriminate; reflexivity.
Qed.

(** Once the timer is cleared, nothing kills the child. *)
Lemma shell_run_unarmed evs :
  forall c, killed c = false -> timer c = false ->
    killed (run evs c) = false /\ timer (run evs c) = false.
Proof.
  induction evs as [|ev evs IH]; intros c Hk Ht; [auto|].
  rewrite shell_run_cons. apply IH; destruct ev; simpl; rewrite ?Ht; auto.
Qed.

(** X17.  The promise of execShell settles exactly once, at the first
    event that is not output: an error event rejects with that error, an
    exit event resolves or rejects by its code and the output written so
    far, the timer rejects with the timeout message; later events change
    nothing. The child is killed only when the timer fires first, and a
    resolved text is never empty and comes only from exit code 0. *)
Theorem execShell_settles_once (evs1 : list Event) (ev : Event) (evs2 : list Event) :
  forallb is_data evs1 = true ->
  is_data ev = false ->
  let c := run (evs1 ++ ev :: evs2) spawn in
  settled (run evs1 spawn) = None
  /\ settled c
     = Some (match ev with
             | Failed error => Throw error
             | Exit status => on_exit status (written true evs1) (written false evs1)
             | _ => Throw timed_out
             end)
  /\ (killed c = true <-> ev = Expire)
  /\ (forall text, settled c = Some (Ok text) -> ev = Exit (Some 0%Z) /\ text <> []).
Proof.
  intros Hd Hev c.
  pose proof (shell_run_data evs1 Hd spawn) as Hrun1.
  cbn [stdout stderr timer killed settled spawn app] in Hrun1.
  assert (Hsettled :
    settled c
    = Some (match ev with
            | Failed error => Throw error
            | Exit status => on_exit status (written true evs1) (written false evs1)
            | _ => Throw timed_out
            end)).
  { subst c. rewrite shell_run_app, shell_run_cons, Hrun1. apply shell_run_settled.
    destruct ev; try discriminate Hev; reflexivity. }
  split; [by rewrite Hrun1|]. split; [exact Hsettled|]. split.
  - subst c. rewrite shell_run_app, shell_run_cons, Hrun1. split.
    + intros Hk.
      destruct ev as [chunk | chunk | error | status |]; try discriminate Hev;
        [exfalso | exfalso | reflexivity];
        cbn [ShellProcess.step stdout stderr timer killed settled] in Hk;
        match type of Hk with
        | killed (run evs2 ?c0) = true =>
            destruct (shell_run_unarmed evs2 c0 eq_refl eq_refl) as [Hk' _]; congruence
        end.
    + intros ->. apply shell_run_killed. reflexivity.
  - intros text Htext. rewrite Hsettled in Htext. injection Htext as Htext.
    destruct ev as [chunk | chunk | error | status |];
      try discriminate Hev; try discriminate Htext.
    pose proof (on_exit_never_empty status (written true evs1) (written false evs1)) as Hne.
    rewrite Htext in Hne. split; [|exact Hne].
    unfold on_exit in Htext.
    destruct (bool_decide (status = Some 0%Z)) eqn:Hc; [|discriminate].
    apply bool_decide_eq_true in Hc. by subst status.
Qed.

End Exec.
End ShellFacts.

Module ReRuns.
Import Re ReFacts RenderFacts Text.

Section Runs.
Variable neg : bool.
Variable items : list citem.

Local Abbreviation P := (cls_has plain neg items).
Local Abbreviation R := (plus (Cls neg items)).

Lemma skip_S n s c t : rest s = c :: t -> skip (S n) s = skip n (eat s c t).
Proof. intros Hr. cbn [skip]. by rewrite Hr. Qed.

Lemma skip_O s : skip 0 s = s.
Proof. destruct s as [p [|c t] cs]; reflexivity. Qed.

(** The greedy quantifier over a class takes the whole run. *)
Lemma rep_class r :
  stops P r ->
  forall run fuel lo s,
    rest s = run ++ r -> forallb P run = true -> lo <= length run ->
    length (rest s) < fuel ->
    rep (m plain (Cls neg items)) Some true fuel lo None s = Some (skip (length run) s).
Proof.
  intros Hstop. induction run as [|c run IH]; intros fuel lo s Hrest Hrun Hlo Hlen;
    (destruct fuel as [|fuel]; [lia|]); cbn [rep]; cbn [m] in *.
  - simpl in Hlo. assert (lo = 0) as -> by lia. simpl in Hrest. rewrite Hrest.
    rewrite skip_O. destruct r as [|x r]; [reflexivity|].
    simpl in Hstop. by rewrite Hstop.
  - simpl in Hrun. apply andb_true_iff in Hrun as [Hc Hrun].
    rewrite Hrest. cbn [app]. rewrite Hc.
    cbn [eat rest fmap option_fmap option_map length].
    rewrite (skip_S _ s c (run ++ r) Hrest).
    assert (Hlen' : length (rest (eat s c (run ++ r))) < fuel).
    { rewrite Hrest in Hlen. simpl in *. lia. }
    destruct lo as [|lo].
    + rewrite (proj2 (Nat.eqb_neq _ _)) by (simpl; lia).
      rewrite (IH fuel 0 (eat s c (run ++ r)) eq_refl Hrun (Nat.le_0_l _) Hlen').
      reflexivity.
    + apply IH; [reflexivity | exact Hrun | simpl in Hlo; lia | exact Hlen'].
Qed.

Lemma match_run p run r :
  stops P r -> forallb P run = true -> run <> [] ->
  exists q, match_here plain R p (run ++ r) = Some (MState q r []).
Proof.
  intros Hstop Hrun Hne. unfold match_here, plus. cbn [m rest].
  rewrite (rep_class r Hstop run _ 1 (MState p (run ++ r) [])); cbn [rest];
    [|reflexivity | exact Hrun | destruct run; [congruence | simpl; lia] | lia].
  destruct (skip_rest run (MState p (run ++ r) []) r eq_refl) as [Hr Hc].
  destruct (skip (length run) (MState p (run ++ r) [])) as [q r' c']. cbn [rest caps] in *.
  subst. by exists q.
Qed.

Lemma match_no_run p c t : P c = false -> match_here plain R p (c :: t) = None.
Proof.
  intros Hc. unfold match_here, plus. cbn [m rest rep Nat.add]. by rewrite Hc.
Qed.

Lemma match_nil p : match_here plain R p [] = None.
Proof. reflexivity. Qed.

Lemma span_run (s : jstring) :
  exists run r, s = run ++ r /\ forallb P run = true /\ stops P r.
Proof.
  induction s as [|c s (run & r & -> & Hrun & Hstop)].
  - by exists [], [].
  - destruct (P c) eqn:Hc.
    + exists (c :: run), r. simpl. by rewrite Hc, Hrun.
    + by exists [], (c :: run ++ r).
Qed.

Lemma squeeze_stops sep r : stops P r -> squeeze P sep true r = squeeze P sep false r.
Proof. destruct r as [|c r]; [reflexivity|]. simpl. by intros ->. Qed.

Lemma squeeze_run sep run r :
  forallb P run = true -> squeeze P sep true (run ++ r) = squeeze P sep true r.
Proof.
  induction run as [|c run IH]; [reflexivity|]. simpl.
  intros Hr. apply andb_true_iff in Hr as [-> Hr]. by apply IH.
Qed.

(** Scanning for runs and joining what is between them is [squeeze]. *)
Lemma scan_squeeze sep fuel :
  forall s p, length s <= fuel ->
    let '(fs, tail) := scan fuel plain R p s in
    Js.join sep (map before fs ++ [tail]) = squeeze P sep false s.
Proof.
  induction fuel as [|fuel IH]; intros s p Hlen.
  - destruct s; [reflexivity | simpl in Hlen; lia].
  - cbn [scan].
    (* the text before the first run *)
    assert (Hgap : forall g x q,
              forallb (fun c => negb (P c)) g = true ->
              search plain R q (g ++ x)
              = (fun f => Found (g ++ before f) (matched f) (groups f) (after_prev f) (after f))
                  <$> search plain R (match g with [] => q | _ => last g end) x).
    { intros g. induction g as [|c g IHg]; intros x q Hg.
      - simpl. destruct (search plain R q x) as [[]|]; reflexivity.
      - simpl in Hg. apply andb_true_iff in Hg as [Hc Hg]. apply negb_true_iff in Hc.
        cbn [app]. rewrite search_cons, (match_no_run q c (g ++ x) Hc).
        rewrite (IHg x (Some c) Hg).
        replace (match g with [] => Some c | _ :: _ => last g end) with (last (c :: g))
          by (destruct g; reflexivity).
        destruct (search plain R (last (c :: g)) x) as [[]|]; reflexivity. }
    assert (Hsplit : exists g x, s = g ++ x /\ forallb (fun c => negb (P c)) g = true
                                 /\ match x with c :: _ => P c = true | [] => True end).
    { clear. induction s as [|c s (g & x & -> & Hg & Hx)].
      - by exists [], [].
      - destruct (P c) eqn:Hc.
        + by exists [], (c :: g ++ x).
        + exists (c :: g), x. simpl. by rewrite Hc, Hg. }
    destruct Hsplit as (g & x & -> & Hg & Hx).
    assert (Hsq : forall b, squeeze P sep b (g ++ x)
                            = match g with
                              | [] => squeeze P sep b x
                              | _ => g ++ squeeze P sep false x
                              end).
    { clear -Hg. induction g as [|c g IHg]; intros b; [reflexivity|].
      simpl in Hg. apply andb_true_iff in Hg as [Hc Hg]. apply negb_true_iff in Hc.
      cbn [app squeeze]. rewrite Hc. f_equal. rewrite (IHg Hg).
      by destruct g. }
    rewrite Hgap by exact Hg.
    destruct x as [|c x].
    + (* no run left *)
      cbn [search]. rewrite match_nil. cbn [fmap option_fmap option_map map app Js.join].
      rewrite Hsq, app_nil_r. destruct g; [reflexivity|]. by rewrite app_nil_r.
    + destruct (span_run (c :: x)) as (run & r & Hx' & Hrun & Hstop).
      assert (Hne : run <> []).
      { intros ->. simpl in Hx'. subst r. simpl in Hstop. congruence. }
      rewrite Hx'.
      destruct (match_run (match g with [] => p | _ => last g end) run r Hstop Hrun Hne)
        as [q Hm].
      rewrite (search_here _ _ _ _ _ Hm). cbn [fmap option_fmap option_map].
      cbn [mk_found before matched groups after_prev after rest prev caps app].
      rewrite app_nil_r.
      replace (take (length (run ++ r) - length r) (run ++ r)) with run
        by (symmetry; apply take_app_length'; rewrite length_app; lia).
      destruct run as [|c0 run0] eqn:Hrun0; [congruence|]. rewrite <- Hrun0 in *.
      specialize (IH r q).
      destruct (scan fuel plain R q r) as [fs tail] eqn:Hscan.
      cbn [map before app].
      assert (Hjoin : Js.join sep (g :: map before fs ++ [tail])
                      = g ++ sep ++ Js.join sep (map before fs ++ [tail])).
      { destruct (map before fs ++ [tail]) as [|y ys] eqn:Hl; [|reflexivity].
        by destruct (map before fs). }
      etrans; [exact Hjoin|]. rewrite IH.
      2:{ pose proof (f_equal length Hx') as Hl. rewrite !length_app in *.
          subst run. simpl in *. lia. }
      rewrite <- Hx', Hsq, Hx'.
      assert (Hhead : squeeze P sep false (run ++ r) = sep ++ squeeze P sep false r).
      { subst run. simpl in Hrun. apply andb_true_iff in Hrun as [Hc0 Hrun].
        cbn [app squeeze]. rewrite Hc0. f_equal.
        rewrite squeeze_run by exact Hrun. by apply squeeze_stops. }
      rewrite Hhead. destruct g; reflexivity.
Qed.

Lemma replace_all_squeeze sep s :
  replace_all plain R sep s = squeeze P sep false s.
Proof.
  unfold replace_all, gaps.
  pose proof (scan_squeeze sep (length s) s None (le_n _)) as Hs.
  by destruct (scan (length s) plain R None s).
Qed.

End Runs.
End ReRuns.

Module SkillFacts.
Import Re ReFacts RenderFacts Text Skills.

Lemma edge_here_inside (q c : char) (t : jstring) :
  match_here plain edges (Some q) (c :: t)
  = if N.eqb 45 c
    then match t with
         | [] => Some (MState (Some c) [] [(1, [c])])
         | _ :: _ => None
         end
    else None.
Proof.
  unfold match_here, edges. cbn [m prev rest multiline plain andb or_else].
  unfold chr_eq. cbn [ignoreCase plain].
  destruct (N.eqb 45 c); [|reflexivity]. by destruct t.
Qed.

Lemma edge_here_start (c : char) (t : jstring) :
  match_here plain edges None (c :: t)
  = if N.eqb 45 c then Some (MState (Some c) t [(1, [c])]) else None.
Proof.
  unfold match_here, edges. cbn [m prev rest multiline plain andb or_else].
  unfold chr_eq. cbn [ignoreCase plain].
  destruct (N.eqb 45 c); [|reflexivity]. cbn [eat rest caps prev or_else].
  unfold consumed. cbn [rest length eat].
  replace (S (length t) - length t) with 1 by lia. reflexivity.
Qed.

Lemma edge_here_nil p : match_here plain edges p [] = None.
Proof. unfold match_here, edges. cbn. by destruct p. Qed.

Lemma edge_inside (q : char) (t : jstring) :
  search plain edges (Some q) t
  = (fun b => Found b [45%N] [(1, [45%N])] (Some 45%N) []) <$> cut_last 45 t.
Proof.
  revert q. induction t as [|c t IH]; intros q.
  - cbn [search]. by rewrite edge_here_nil.
  - rewrite search_cons, edge_here_inside.
    destruct t as [|c' t].
    + cbn [cut_last]. destruct (N.eqb 45 c) eqn:Hc.
      * apply N.eqb_eq in Hc. subst c. reflexivity.
      * cbn [search]. by rewrite edge_here_nil.
    + assert (Hrec : push_before c <$> search plain edges (Some c) (c' :: t)
                     = (fun b => Found b [45%N] [(1, [45%N])] (Some 45%N) [])
                         <$> cut_last 45 (c :: c' :: t)).
      { rewrite (IH c). cbn [cut_last].
        destruct (match t with [] => _ | _ => _ end); reflexivity. }
      by destruct (N.eqb 45 c).
Qed.

Lemma scan_nil fuel fl r p : match_here fl r p [] = None -> scan fuel fl r p [] = ([], []).
Proof. intros Hm. destruct fuel; [reflexivity|]. cbn [scan search]. by rewrite Hm. Qed.

Lemma scan_edge_inside fuel (q : char) (t : jstring) :
  length t <= fuel ->
  let '(fs, tail) := scan fuel plain edges (Some q) t in
  concat (map before fs ++ [tail]) = default t (cut_last 45 t).
Proof.
  intros Hlen. destruct fuel as [|fuel].
  - destruct t; [reflexivity | simpl in Hlen; lia].
  - cbn [scan]. rewrite edge_inside.
    destruct (cut_last 45 t) as [b|]; cbn [fmap option_fmap option_map matched after after_prev].
    + rewrite (scan_nil _ _ _ _ (edge_here_nil _)). simpl. by rewrite app_nil_r.
    + simpl. by rewrite app_nil_r.
Qed.

Lemma replace_edges s : replace_all plain edges [] s = strip_edges 45 s.
Proof.
  unfold replace_all, gaps. rewrite (StripJoin.join_nil).
  assert (H : let '(fs, tail) := scan (length s) plain edges None s in
              concat (map before fs ++ [tail]) = strip_edges 45 s).
  { destruct s as [|c t]; [reflexivity|]. cbn [length scan]. rewrite search_cons.
    rewrite edge_here_start. unfold strip_edges.
    destruct (N.eqb 45 c) eqn:Hc.
    - cbn [eat rest caps prev mk_found matched after after_prev before length].
      replace (take (S (length t) - length t) (c :: t)) with [c]
        by (replace (S (length t) - length t) with 1 by lia; reflexivity).
      pose proof (scan_edge_inside (length t) c t (le_n _)) as Hin.
      destruct (scan (length t) plain edges (Some c) t) as [fs tail].
      cbn [map before app concat]. exact Hin.
    - (* the text does not start with a dash *)
      rewrite edge_inside.
      destruct (cut_last 45 t) as [b|] eqn:Hcut;
        cbn [fmap option_fmap option_map push_before matched after after_prev before].
      + rewrite (scan_nil _ _ _ _ (edge_here_nil _)).
        assert (cut_last 45 (c :: t) = Some (c :: b)) as ->.
        { cbn [cut_last]. destruct t; [discriminate Hcut|]. by rewrite Hcut. }
        simpl. by rewrite app_nil_r.
      + assert (cut_last 45 (c :: t) = None) as ->.
        { cbn [cut_last]. destruct t; [by rewrite Hc|]. by rewrite Hcut. }
        simpl. by rewrite app_nil_r. }
  by destruct (scan (length s) plain edges None s).
Qed.

Section Slug.
Variable toLowerCase : jstring -> jstring.

Local Abbreviation P := (cls_has plain true not_slug_char).
Local Abbreviation slugify := (Skills.slugify toLowerCase).

Lemma slugify_direct input :
  slugify input = take 80 (strip_edges 45 (squeeze P (lit "-") false (toLowerCase input))).
Proof.
  unfold Skills.slugify. fold edges. by rewrite replace_edges, ReRuns.replace_all_squeeze.
Qed.

Lemma P_dash : P 45 = true.
Proof. reflexivity. Qed.

Lemma not_P_slug_char c : P c = false -> slug_char c = true /\ c <> 45%N.
Proof.
  intros Hc. split.
  - unfold cls_has, not_slug_char in Hc. cbn [existsb citem_has ignoreCase plain] in Hc.
    unfold slug_char, Js.is_lower, Js.is_digit.
    destruct ((97 <=? c)%N && (c <=? 122)%N); [reflexivity|].
    destruct ((48 <=? c)%N && (c <=? 57)%N); [reflexivity|]. discriminate.
  - intros ->. discriminate.
Qed.

Lemma no_double_cons P0 (a b : char) (l : jstring) :
  no_double P0 (a :: b :: l) = negb (P0 a && P0 b) && no_double P0 (b :: l).
Proof. reflexivity. Qed.

Lemma squeeze_shape s : forall b,
  let out := squeeze P (lit "-") b s in
  Forall (fun c => slug_char c = true) out
  /\ no_double (N.eqb 45) out = true
  /\ (b = true -> head out <> Some 45%N).
Proof.
  induction s as [|c s IH]; intros b; cbn [squeeze]; [by repeat split|].
  destruct (P c) eqn:Hc.
  - destruct (IH true) as (Hall & Hnd & Hhd). specialize (Hhd eq_refl).
    destruct b; cbn [app].
    + by repeat split.
    + split; [constructor; [reflexivity | exact Hall]|].
      split; [|discriminate].
      change (lit "-" ++ squeeze P (lit "-") true s) with (45%N :: squeeze P (lit "-") true s).
      destruct (squeeze P (lit "-") true s) as [|x out]; [reflexivity|].
      rewrite no_double_cons, Hnd, andb_true_r. cbn [head] in Hhd.
      destruct (N.eqb 45 x) eqn:Hx; [|reflexivity].
      apply N.eqb_eq in Hx. subst x. by destruct Hhd.
  - destruct (not_P_slug_char c Hc) as [Hsc Hne].
    destruct (IH false) as (Hall & Hnd & _).
    split; [by constructor|]. split.
    + destruct (squeeze P (lit "-") false s) as [|x out]; [reflexivity|].
      rewrite no_double_cons, Hnd, andb_true_r.
      replace (N.eqb 45 c) with false; [reflexivity|].
      symmetry. apply N.eqb_neq. congruence.
    + intros _. cbn [head]. congruence.
Qed.

Lemma cut_last_prefix d s b : cut_last d s = Some b -> s = b ++ [d].
Proof.
  revert b. induction s as [|c s IH]; intros b; [discriminate|]. cbn [cut_last].
  destruct s as [|c' s].
  - destruct (N.eqb d c) eqn:Hc; [|discriminate]. apply N.eqb_eq in Hc. by intros [= <-]; subst.
  - destruct (cut_last d (c' :: s)) as [b'|]; [|discriminate].
    intros [= <-]. by rewrite (IH b' eq_refl).
Qed.

Lemma strip_edges_infix d s : exists a b, s = a ++ strip_edges d s ++ b
  /\ Forall (fun c => c = d) a /\ Forall (fun c => c = d) b.
Proof.
  unfold strip_edges.
  set (s1 := match s with c :: t => if N.eqb d c then t else s | [] => [] end).
  assert (Hs1 : exists a, s = a ++ s1 /\ Forall (fun c => c = d) a).
  { subst s1. destruct s as [|c t]; [by exists []|].
    destruct (N.eqb d c) eqn:Hc; [|by exists []].
    apply N.eqb_eq in Hc. subst c. exists [d]. split; [reflexivity|]. by constructor. }
  clearbody s1. destruct Hs1 as (a & -> & Ha).
  destruct (cut_last d s1) as [b|] eqn:Hcut; cbn [default from_option].
  - exists a, [d]. rewrite (cut_last_prefix _ _ _ Hcut) at 1.
    split; [reflexivity|]. split; [exact Ha | by constructor].
  - exists a, []. rewrite app_nil_r. split; [reflexivity|]. split; [exact Ha | constructor].
Qed.

Lemma no_double_app_r P0 a b : no_double P0 (a ++ b) = true -> no_double P0 a = true.
Proof.
  induction a as [|x a IH]; [reflexivity|]. destruct a as [|y a]; [reflexivity|].
  cbn [app no_double]. intros H. apply andb_true_iff in H as [-> H]. by apply IH.
Qed.

Lemma no_double_app_l P0 a b : no_double P0 (a ++ b) = true -> no_double P0 b = true.
Proof.
  induction a as [|x a IH]; [auto|]. intros H. apply IH.
  destruct a as [|y a]; cbn [app no_double] in H.
  - destruct b; [reflexivity|]. by apply andb_true_iff in H as [_ ?].
  - by apply andb_true_iff in H as [_ ?].
Qed.

Lemma no_double_take P0 n s : no_double P0 s = true -> no_double P0 (take n s) = true.
Proof.
  intros H. rewrite <- (take_drop n s) in H. by apply no_double_app_r in H.
Qed.

Lemma strip_edges_head d s :
  no_double (N.eqb d) s = true -> head (strip_edges d s) <> Some d.
Proof.
  intros Hnd. unfold strip_edges. destruct s as [|c t]; [discriminate|].
  destruct (N.eqb d c) eqn:Hc.
  - assert (Ht : head t <> Some d).
    { destruct t as [|x t']; [discriminate|]. rewrite no_double_cons in Hnd.
      apply andb_true_iff in Hnd as [Hcx _]. rewrite Hc in Hcx. cbn [andb] in Hcx.
      apply negb_true_iff in Hcx. apply N.eqb_neq in Hcx. cbn [head].
      intros He. apply Hcx. by injection He. }
    destruct (cut_last d t) as [b|] eqn:Hcut; cbn [default from_option]; [|exact Ht].
    apply cut_last_prefix in Hcut. subst t. destruct b; [discriminate | exact Ht].
  - apply N.eqb_neq in Hc.
    destruct (cut_last d (c :: t)) as [b|] eqn:Hcut; cbn [default from_option head];
      [|intros He; apply Hc; by injection He].
    apply cut_last_prefix in Hcut. destruct b as [|y b].
    + injection Hcut as <- _. by destruct Hc.
    + injection Hcut as <- _. cbn [head]. intros He. apply Hc. by injection He.
Qed.

Lemma squeeze_all sep s :
  forallb P s = true ->
  squeeze P sep false s = match s with [] => [] | _ => sep end.
Proof.
  destruct s as [|c s]; [reflexivity|]. cbn [forallb squeeze].
  intros H. apply andb_true_iff in H as [-> H].
  rewrite <- (app_nil_r s), (ReRuns.squeeze_run true not_slug_char sep s [] H).
  by rewrite app_nil_r.
Qed.

Lemma squeeze_keeps sep c s : forall b,
  c ∈ s -> P c = false -> c ∈ squeeze P sep b s.
Proof.
  induction s as [|x s IH]; intros b Hin Hc; [inversion Hin|].
  cbn [squeeze]. apply elem_of_cons in Hin as [<-|Hin].
  - rewrite Hc. left.
  - destruct (P x).
    + apply elem_of_app. right. by apply IH.
    + right. by apply IH.
Qed.

Lemma forallb_false {A} (f : A -> bool) (l : list A) :
  forallb f l = false -> exists x, x ∈ l /\ f x = false.
Proof.
  induction l as [|x l IH]; [discriminate|]. cbn [forallb].
  destruct (f x) eqn:Hx.
  - intros H. destruct (IH H) as (y & Hy & Hfy). exists y. split; [by right | exact Hfy].
  - intros _. exists x. split; [left | exact Hx].
Qed.

Lemma slugify_empty (input : jstring) :
  slugify input = [] <-> forallb P (toLowerCase input) = true.
Proof.
  rewrite slugify_direct.
  set (out := squeeze P (lit "-") false (toLowerCase input)).
  destruct (strip_edges_infix 45 out) as (a & b & Hout & Ha & Hb).
  set (e := strip_edges 45 out) in *.
  split.
  - intros Hnil. destruct (forallb P (toLowerCase input)) eqn:Hp; [reflexivity|].
    exfalso. apply forallb_false in Hp as (c & Hin & Hc).
    assert (Hce : c ∈ e).
    { pose proof (squeeze_keeps (lit "-") c _ false Hin Hc) as Hco. fold out in Hco.
      rewrite Hout in Hco. destruct (not_P_slug_char c Hc) as [_ Hne].
      apply elem_of_app in Hco as [Hco|Hco].
      { rewrite Forall_forall in Ha. by specialize (Ha c Hco). }
      apply elem_of_app in Hco as [Hco|Hco]; [exact Hco|].
      rewrite Forall_forall in Hb. by specialize (Hb c Hco). }
    destruct e; [inversion Hce | discriminate Hnil].
  - intros Hp. subst e out. rewrite (squeeze_all _ _ Hp).
    by destruct (toLowerCase input).
Qed.

(** X19.  slugify returns a safe directory name: at most 80 characters,
    each a lower-case ASCII letter, a digit or a dash (so no path
    separator, dot or NUL), no dash at the start and no two dashes in a
    row. It is empty exactly when the lower-cased input holds no
    character of a-z or 0-9. *)
Theorem slugify_is_a_safe_name (input : jstring) :
  let slug := slugify input in
  length slug <= 80
  /\ Forall (fun c => slug_char c = true) slug
  /\ (forall c, c ∈ slug -> c <> 47%N /\ c <> 92%N /\ c <> 46%N /\ c <> 0%N)
  /\ head slug <> Some 45%N
  /\ no_double (N.eqb 45) slug = true
  /\ (slug = [] <-> forallb P (toLowerCase input) = true).
Proof.
  intros slug. subst slug. split; [|split; [|split; [|split; [|split]]]];
    [..|apply slugify_empty]; rewrite slugify_direct;
    set (out := squeeze P (lit "-") false (toLowerCase input));
    destruct (squeeze_shape (toLowerCase input) false) as (Hall & Hnd & _);
    fold out in Hall, Hnd;
    destruct (strip_edges_infix 45 out) as (a & b & Hout & Ha & Hb);
    set (e := strip_edges 45 out) in *.
  - rewrite length_take. lia.
  - rewrite Hout in Hall. apply Forall_app in Hall as [_ Hall].
    apply Forall_app in Hall as [Halle _].
    rewrite <- (take_drop 80 e) in Halle. by apply Forall_app in Halle as [? _].
  - intros c Hc. apply elem_of_take in Hc as (i & Hc & _). apply list_elem_of_lookup_2 in Hc.
    rewrite Hout in Hall. apply Forall_app in Hall as [_ Hall].
    apply Forall_app in Hall as [Halle _].
    rewrite Forall_forall in Halle. specialize (Halle c Hc).
    repeat split; intros ->; discriminate Halle.
  - pose proof (strip_edges_head 45 out Hnd) as Hh. fold e in Hh. by destruct e.
  - apply no_double_take.
    rewrite Hout in Hnd. apply no_double_app_l in Hnd. by apply no_double_app_r in Hnd.
Qed.

Lemma hasSkill_true name (dir : SkillsDir) v :
  dir !! slugify name = Some v -> Skills.hasSkill toLowerCase name dir = (Ok true, dir).
Proof. unfold Skills.hasSkill. by intros ->. Qed.

(** X20.  installSkill stores the content, as UTF-8 keeps it, under the
    slug of the name and returns the slug; hasSkill then answers true
    for every name with the same slug, a second install under such a
    name overwrites the content, and the other skills are untouched. A name without letters
    or digits is refused with 'Skill name must include letters or
    numbers.' and nothing is written. *)
Theorem installSkill_then_hasSkill (name content : jstring) (dir : SkillsDir) :
  match Skills.installSkill toLowerCase name content dir with
  | (Ok slug, dir') =>
      slug = slugify name /\ slug <> []
      /\ dir' !! slug = Some (Utf8.stored content)
      /\ (forall other, other <> slug -> dir' !! other = dir !! other)
      /\ (forall name',
            slugify name' = slug ->
            Skills.hasSkill toLowerCase name' dir' = (Ok true, dir')
            /\ forall content',
                 (Skills.installSkill toLowerCase name' content' dir').2 !! slug
                 = Some (Utf8.stored content'))
  | (Throw error, dir') =>
      dir' = dir
      /\ error = Error "Skill name must include letters or numbers."
      /\ forallb P (toLowerCase name) = true
  end.
Proof.
  unfold Skills.installSkill.
  destruct (slugify name) as [|c slug] eqn:Hslug; cbn [Js.truthy negb].
  - split; [reflexivity|]. split; [reflexivity|].
    by apply (slugify_empty name).
  - split; [reflexivity|]. split; [discriminate|].
    split; [apply lookup_insert_eq|].
    split; [intros other Hne; by apply lookup_insert_ne|].
    intros name' Hname'. split.
    + apply (hasSkill_true name' _ (Utf8.stored content)). rewrite Hname'.
      apply lookup_insert_eq.
    + intros content'. unfold Skills.installSkill. rewrite Hname'.
      cbn [Js.truthy negb snd]. apply lookup_insert_eq.
Qed.

End Slug.
End SkillFacts.


Module HtmlFacts.
Import Re ReFacts RenderFacts Text SkillFacts.

Lemma squeeze_ext (P Q : char -> bool) sep s :
  (forall c, P c = Q c) -> forall b, squeeze P sep b s = squeeze Q sep b s.
Proof.
  intros Hpq. induction s as [|c s IH]; intros b; [reflexivity|].
  cbn [squeeze]. rewrite Hpq. destruct (Q c); by rewrite IH.
Qed.

Lemma ws_is_space c : cls_has plain false [CSpace] c = Js.is_space c.
Proof. unfold cls_has. cbn [existsb citem_has xorb]. by rewrite orb_false_r. Qed.

(** Runs of [P] squeezed to one [d] of [P]: what is left of [P] is [d],
    one at a time. *)
Lemma squeeze_single (P : char -> bool) (d : char) s :
  P d = true ->
  forall b,
    Forall (fun c => P c = true -> c = d) (squeeze P [d] b s)
    /\ no_double P (squeeze P [d] b s) = true
    /\ (b = true -> forall c, head (squeeze P [d] b s) = Some c -> P c = false).
Proof.
  intros Hd. induction s as [|c s IH]; intros b; cbn [squeeze]; [by repeat split|].
  destruct (P c) eqn:Hc.
  - destruct (IH true) as (Hall & Hnd & Hhd). specialize (Hhd eq_refl).
    destruct b; cbn [app].
    + by repeat split.
    + split; [by constructor|]. split; [|discriminate].
      destruct (squeeze P [d] true s) as [|x out]; [reflexivity|].
      rewrite no_double_cons, Hnd, andb_true_r, (Hhd x eq_refl), andb_false_r. reflexivity.
  - destruct (IH false) as (Hall & Hnd & _).
    split; [constructor; [congruence | exact Hall]|]. split.
    + destruct (squeeze P [d] false s) as [|x out]; [reflexivity|].
      by rewrite no_double_cons, Hnd, andb_true_r, Hc.
    + intros _ c0 [= <-]. exact Hc.
Qed.

Lemma trim_last s c : last (Js.trim s) = Some c -> Js.is_space c = false.
Proof.
  unfold Js.trim, Js.trimEnd.
  destruct (Js.trimStart (rev (Js.trimStart s))) as [|x l] eqn:Ht; [discriminate|].
  cbn [rev]. rewrite last_snoc. intros [= <-]. by apply (trimStart_head _ _ _ Ht).
Qed.


Lemma trim_shape (out : jstring) :
  Forall (fun c => Js.is_space c = true -> c = 32%N) out ->
  no_double Js.is_space out = true ->
  let text := Js.trim out in
  (forall c, c ∈ text -> Js.is_space c = true -> c = 32%N)
  /\ no_double Js.is_space text = true
  /\ (forall c, head text = Some c -> Js.is_space c = false)
  /\ (forall c, last text = Some c -> Js.is_space c = false).
Proof.
  intros Hall Hnd text. subst text.
  destruct (StripJoin.trim_inside out) as (a & b & Hout).
  split.
  { intros c Hc. rewrite Hout in Hall. apply Forall_app in Hall as [_ Hall].
    apply Forall_app in Hall as [Hall _]. rewrite Forall_forall in Hall. by apply Hall. }
  split.
  { rewrite Hout in Hnd. apply no_double_app_l in Hnd. by apply no_double_app_r in Hnd. }
  split.
  { intros c Hc. destruct (Js.trim out) as [|x l] eqn:Ht; [discriminate|].
    injection Hc as <-. by apply (trim_head _ _ _ Ht). }
  intros c. apply trim_last.
Qed.

(** X18.  stripHtml returns single-spaced text: the only white space
    left in it is the space character U+0020, never two in a row, and
    none at the start or at the end. *)
Theorem stripHtml_is_single_spaced (html : jstring) :
  let text := stripHtml html in
  (forall c, c ∈ text -> Js.is_space c = true -> c = 32%N)
  /\ no_double Js.is_space text = true
  /\ (forall c, head text = Some c -> Js.is_space c = false)
  /\ (forall c, last text = Some c -> Js.is_space c = false).
Proof.
  intros text. subst text. unfold stripHtml. cbv zeta.
  unfold ws. rewrite ReRuns.replace_all_squeeze.
  rewrite (squeeze_ext _ Js.is_space _ _ ws_is_space).
  apply trim_shape; apply (squeeze_single Js.is_space 32 _ eq_refl false).
Qed.

End HtmlFacts.


(* ===================================================================== *)
(** * Workspace documents (src/core/workspace.ts)                       *)
(* ===================================================================== *)

Module WorkspaceFacts.
Import Utf8 Workspace.

Lemma docs_insert_eq (docs : Docs) (k v : jstring) : <[k := v]> docs !! k = Some v.
Proof. apply lookup_insert_eq. Qed.

Lemma docs_insert_ne (docs : Docs) (k f v : jstring) :
  k <> f -> <[k := v]> docs !! f = docs !! f.
Proof. apply lookup_insert_ne. Qed.

Lemma ensure_one_insert (docs : Docs) (doc : jstring * jstring) :
  stored doc.2 = doc.2 ->
  ensure_one docs doc = <[doc.1 := settle_doc doc.1 doc.2 (docs !! doc.1)]> docs.
Proof.
  intros Hplain. unfold ensure_one, settle_doc, writeFile. rewrite Hplain.
  destruct (docs !! doc.1) as [text|] eqn:Hd; [|reflexivity].
  destruct (entry doc.1 LEGACY_DOC_TEMPLATES) as [legacy|].
  - destruct (Js.truthy legacy && jstr_eqb (Js.trim text) (Js.trim legacy)); [reflexivity|].
    symmetry. by apply insert_id.
  - symmetry. by apply insert_id.
Qed.

Lemma ensure_fold (entries : list (jstring * jstring)) :
  NoDup (map fst entries) ->
  Forall (fun doc => stored doc.2 = doc.2) entries ->
  forall (docs : Docs) (f : jstring),
    fold_left ensure_one entries docs !! f
    = match entry f entries with
      | Some template => Some (settle_doc f template (docs !! f))
      | None => docs !! f
      end.
Proof.
  induction entries as [|[n t] entries IH]; intros Hnd Hplain docs f; [reflexivity|].
  cbn [map fst] in Hnd. apply NoDup_cons in Hnd as [Hn Hnd].
  apply Forall_cons in Hplain as [Ht Hplain].
  cbn [fold_left entry]. rewrite (IH Hnd Hplain).
  unfold jstr_eqb. destruct (bool_decide (n = f)) eqn:Hnf.
  - apply bool_decide_eq_true in Hnf. subst f.
    assert (entry n entries = None) as ->.
    { clear -Hn. induction entries as [|[k v] entries IH]; [reflexivity|].
      cbn [entry]. unfold jstr_eqb. rewrite bool_decide_false.
      - apply IH. intros Hin. apply Hn. cbn [map fst]. by right.
      - intros ->. apply Hn. cbn [map fst]. left. }
    rewrite (ensure_one_insert _ _ Ht). apply lookup_insert_eq.
  - apply bool_decide_eq_false in Hnf.
    assert (Hsame : ensure_one docs (n, t) !! f = docs !! f).
    { rewrite (ensure_one_insert _ _ Ht). by apply lookup_insert_ne. }
    by rewrite Hsame.
Qed.

Lemma templates_stored : Forall (fun doc => stored doc.2 = doc.2) DOC_TEMPLATES.
Proof. repeat (apply Forall_cons; split; [by vm_compute|]). apply Forall_nil. done. Qed.

Lemma doc_names_NoDup : NoDup (map fst DOC_TEMPLATES).
Proof.
  cbn [map fst DOC_TEMPLATES].
  repeat (apply NoDup_cons; split;
          [intros Hin; repeat (apply elem_of_cons in Hin as [Hin|Hin]; [discriminate|]);
           inversion Hin|]).
  apply NoDup_nil. done.
Qed.

Lemma ensure_lookup (docs : Docs) (f : jstring) :
  ensureWorkspaceDocs docs !! f
  = match entry f DOC_TEMPLATES with
    | Some template => Some (settle_doc f template (docs !! f))
    | None => docs !! f
    end.
Proof. apply ensure_fold; [apply doc_names_NoDup | apply templates_stored]. Qed.

Lemma settle_doc_settled name template existing :
  settle_doc name template (Some (settle_doc name template existing))
  = settle_doc name template existing.
Proof.
  unfold settle_doc. destruct (entry name LEGACY_DOC_TEMPLATES) as [legacy|].
  - destruct existing as [text|].
    + destruct (Js.truthy legacy && jstr_eqb (Js.trim text) (Js.trim legacy)) eqn:Ht.
      * by destruct (Js.truthy legacy && jstr_eqb (Js.trim template) (Js.trim legacy)).
      * by rewrite Ht.
    + by destruct (Js.truthy legacy && jstr_eqb (Js.trim template) (Js.trim legacy)).
  - by destruct existing.
Qed.

Lemma entry_elem_of key entries v :
  entry key entries = Some v -> (key, v) ∈ entries.
Proof.
  induction entries as [|[k x] entries IH]; [discriminate|]. cbn [entry].
  destruct (jstr_eqb k key) eqn:Hk.
  - apply StoreFacts.jstr_eqb_eq in Hk. subst k. intros [= ->]. left.
  - intros Hv. right. by apply IH.
Qed.

Lemma entry_None key entries :
  entry key entries = None <-> key ∉ map fst entries.
Proof.
  induction entries as [|[k x] entries IH]; cbn [entry map fst].
  - split; [intros _ Hin; inversion Hin | done].
  - unfold jstr_eqb. destruct (bool_decide (k = key)) eqn:Hk.
    + apply bool_decide_eq_true in Hk. subst k. split; [discriminate|].
      intros Hn. destruct Hn. left.
    + apply bool_decide_eq_false in Hk. rewrite IH. split.
      * intros Hn Hin. apply elem_of_cons in Hin as [->|Hin]; [by destruct Hk | by apply Hn].
      * intros Hn Hin. apply Hn. by right.
Qed.

Lemma ensure_other (docs : Docs) (f : jstring) :
  f ∉ doc_names -> ensureWorkspaceDocs docs !! f = docs !! f.
Proof.
  intros Hf. rewrite ensure_lookup.
  by rewrite (proj2 (entry_None f DOC_TEMPLATES) Hf).
Qed.

(** X21.  ensureWorkspaceDocs is idempotent and conservative: afterwards
    the four documents exist, files of other names are untouched, a
    document whose trimmed text differs from its legacy template is kept
    as it is, and a document that is missing or still matches its legacy
    template holds the current template. *)
Theorem ensureWorkspaceDocs_settles (docs : Docs) :
  let docs' := ensureWorkspaceDocs docs in
  ensureWorkspaceDocs docs' = docs'
  /\ (forall name, name ∈ doc_names -> is_Some (docs' !! name))
  /\ (forall f, f ∉ doc_names -> docs' !! f = docs !! f)
  /\ (forall name text legacy,
        docs !! name = Some text ->
        entry name LEGACY_DOC_TEMPLATES = Some legacy ->
        Js.trim text <> Js.trim legacy ->
        docs' !! name = Some text)
  /\ (forall name template,
        entry name DOC_TEMPLATES = Some template ->
        docs !! name = None \/
        (exists text legacy, docs !! name = Some text
           /\ entry name LEGACY_DOC_TEMPLATES = Some legacy
           /\ Js.trim text = Js.trim legacy) ->
        docs' !! name = Some template).
Proof.
  intros docs'. split; [|split; [|split; [|split]]].
  - apply map_eq. intros f. subst docs'. rewrite !ensure_lookup.
    destruct (entry f DOC_TEMPLATES) as [template|]; [|reflexivity].
    by rewrite settle_doc_settled.
  - intros name Hin. subst docs'. rewrite ensure_lookup.
    destruct (entry name DOC_TEMPLATES) as [template|] eqn:He; [eauto|].
    apply entry_None in He. contradiction.
  - intros f Hf. subst docs'. rewrite ensure_lookup.
    by rewrite (proj2 (entry_None f DOC_TEMPLATES) Hf).
  - intros name text legacy Hd Hl Hne. subst docs'. rewrite ensure_lookup.
    destruct (entry name DOC_TEMPLATES) as [template|]; [|exact Hd].
    rewrite Hd. unfold settle_doc. rewrite Hl. f_equal.
    destruct (Js.truthy legacy); [|reflexivity]. cbn [andb].
    unfold jstr_eqb. by rewrite bool_decide_false.
  - intros name template He Hcase. subst docs'. rewrite ensure_lookup, He. f_equal.
    destruct Hcase as [->|(text & legacy & -> & Hl & Heq)]; [reflexivity|].
    unfold settle_doc. rewrite Hl.
    assert (Js.truthy legacy = true) as ->.
    { apply entry_elem_of in Hl. cbn [LEGACY_DOC_TEMPLATES] in Hl.
      repeat (apply elem_of_cons in Hl as [Hl|Hl]; [injection Hl as _ ->; reflexivity|]).
      inversion Hl. }
    unfold jstr_eqb. by rewrite bool_decide_true.
Qed.

Section Names.
Variable toUpperCase : jstring -> jstring.
Variable enoent : jstring -> thrown.

Local Abbreviation normalizeDocName := (Workspace.normalizeDocName toUpperCase).
Local Abbreviation readWorkspaceDoc := (Workspace.readWorkspaceDoc toUpperCase enoent).
Local Abbreviation writeWorkspaceDoc := (Workspace.writeWorkspaceDoc toUpperCase).

Lemma entry_rev_range key (entries : list (jstring * jstring)) v :
  entry key (rev entries) = Some v -> v ∈ map snd entries.
Proof.
  intros He. apply entry_elem_of in He.
  apply (proj1 (StoreRoundTrips.elem_of_rev _ _)) in He.
  apply list_elem_of_fmap. exists (key, v). split; [reflexivity | exact He].
Qed.

Lemma normalizeDocName_canonical name canonical :
  normalizeDocName name = Ok canonical -> canonical ∈ doc_names.
Proof.
  unfold Workspace.normalizeDocName.
  destruct (entry _ (rev (DOC_NAME_MAP toUpperCase))) as [[|c v]|] eqn:He; try discriminate.
  intros [= <-]. apply entry_rev_range in He. unfold DOC_NAME_MAP in He.
  rewrite map_map in He. exact He.
Qed.


(** X23.  After a successful writeWorkspaceDoc, readWorkspaceDoc of the
    same name returns the written text as UTF-8 stores it (the text
    itself when it holds no surrogate) and changes nothing, unless the
    trimmed text equals the legacy template of the document: then the
    read returns the current template and leaves it in the file. *)
Theorem readWorkspaceDoc_after_write (name content : jstring) (docs docs1 : Docs) :
  writeWorkspaceDoc name content docs = (Ok tt, docs1) ->
  exists canonical template legacy,
    normalizeDocName name = Ok canonical
    /\ entry canonical DOC_TEMPLATES = Some template
    /\ entry canonical LEGACY_DOC_TEMPLATES = Some legacy
    /\ docs1 !! canonical = Some (stored content)
    /\ (Js.trim (stored content) <> Js.trim legacy ->
          readWorkspaceDoc name docs1 = (Ok (stored content), docs1))
    /\ (Js.trim (stored content) = Js.trim legacy ->
          readWorkspaceDoc name docs1 = (Ok template, <[canonical := template]> docs1))
    /\ (plain_units content = true -> stored content = content).
Proof.
  unfold Workspace.writeWorkspaceDoc.
  destruct (normalizeDocName name) as [canonical|error] eqn:Hn; [|discriminate].
  intros [= <-]. unfold writeFile.
  pose proof (normalizeDocName_canonical _ _ Hn) as Hin.
  destruct (entry canonical DOC_TEMPLATES) as [template|] eqn:He.
  2:{ apply entry_None in He. contradiction. }
  destruct (entry canonical LEGACY_DOC_TEMPLATES) as [legacy|] eqn:Hl.
  2:{ apply entry_None in Hl. contradiction. }
  assert (Htruthy : Js.truthy legacy = true).
  { apply entry_elem_of in Hl. cbn [LEGACY_DOC_TEMPLATES] in Hl.
    repeat (apply elem_of_cons in Hl as [Hl|Hl]; [injection Hl as _ ->; reflexivity|]).
    inversion Hl. }
  exists canonical, template, legacy.
  split; [reflexivity|]. split; [exact He|]. split; [exact Hl|].
  set (docs0 := ensureWorkspaceDocs docs).
  split; [apply docs_insert_eq|].
  assert (Hens : ensureWorkspaceDocs (<[canonical := stored content]> docs0)
                 = <[canonical := settle_doc canonical template (Some (stored content))]>
                     (<[canonical := stored content]> docs0)).
  { apply map_eq. intros f. rewrite ensure_lookup.
    destruct (decide (canonical = f)) as [<-|Hne].
    - by rewrite He, !docs_insert_eq.
    - rewrite !docs_insert_ne by done.
      destruct (entry f DOC_TEMPLATES) as [t|] eqn:Hf; [|reflexivity].
      subst docs0. rewrite ensure_lookup, Hf. by rewrite settle_doc_settled. }
  assert (Hread : readWorkspaceDoc name (<[canonical := stored content]> docs0)
                  = (Ok (settle_doc canonical template (Some (stored content))),
                     <[canonical := settle_doc canonical template (Some (stored content))]>
                       (<[canonical := stored content]> docs0))).
  { unfold Workspace.readWorkspaceDoc. rewrite Hn, Hens. by rewrite docs_insert_eq. }
  split; [|split; [|apply Utf8Facts.stored_plain]].
  - intros Hne. rewrite Hread.
    assert (settle_doc canonical template (Some (stored content)) = stored content) as ->.
    { unfold settle_doc. rewrite Hl, Htruthy. cbn [andb].
      unfold jstr_eqb. by rewrite bool_decide_false. }
    f_equal. apply insert_id. apply docs_insert_eq.
  - intros Heq. rewrite Hread.
    assert (settle_doc canonical template (Some (stored content)) = template) as ->.
    { unfold settle_doc. rewrite Hl, Htruthy.
      unfold jstr_eqb. by rewrite bool_decide_true. }
    reflexivity.
Qed.

End Names.
End WorkspaceFacts.

(* ===================================================================== *)
(** * Provider dispatch (src/providers/agent.ts)                        *)
(* ===================================================================== *)

Module AgentFacts.
Import Agent.

Lemma split_slash_step cur (c : char) (s : jstring) :
  Js.split_lit_aux slash cur (c :: s) 0
  = if N.eqb 47 c then rev cur :: Js.split_lit_aux slash [] s 0
    else Js.split_lit_aux slash (c :: cur) s 0.
Proof.
  unfold slash. replace (lit "/") with (47%N :: @nil char) by reflexivity.
  cbn [Js.split_lit_aux Js.startsWith length Nat.sub].
  by destruct s, (N.eqb 47 c).
Qed.

Lemma split_slash_none cur (p : jstring) :
  47%N ∉ p -> Js.split_lit_aux slash cur p 0 = [rev cur ++ p].
Proof.
  revert cur. induction p as [|c p IH]; intros cur Hp.
  - cbn. by rewrite app_nil_r.
  - rewrite split_slash_step. destruct (N.eqb 47 c) eqn:Hc.
    + apply N.eqb_eq in Hc. subst c. destruct Hp. left.
    + rewrite IH.
      * cbn [rev]. f_equal. exact (eq_sym (app_assoc (rev cur) [c] p)).
      * intros Hin. apply Hp. by right.
Qed.

Lemma split_slash_first cur (p m : jstring) :
  47%N ∉ p ->
  Js.split_lit_aux slash cur (p ++ 47%N :: m) 0
  = (rev cur ++ p) :: Js.split_lit_aux slash [] m 0.
Proof.
  revert cur. induction p as [|c p IH]; intros cur Hp.
  - cbn [app]. rewrite split_slash_step, N.eqb_refl, app_nil_r. reflexivity.
  - cbn [app]. rewrite split_slash_step. destruct (N.eqb 47 c) eqn:Hc.
    + apply N.eqb_eq in Hc. subst c. destruct Hp. left.
    + rewrite IH.
      * cbn [rev]. f_equal. exact (eq_sym (app_assoc (rev cur) [c] p)).
      * intros Hin. apply Hp. by right.
Qed.

Lemma first_slash (s : jstring) :
  47%N ∉ s \/ exists p m, s = p ++ 47%N :: m /\ 47%N ∉ p.
Proof.
  induction s as [|c s IH]; [left; intros Hin; inversion Hin|].
  destruct (decide (c = 47%N)) as [->|Hc].
  - right. exists [], s. split; [reflexivity|]. intros Hin; inversion Hin.
  - destruct IH as [Hn|(p & m & -> & Hp)].
    + left. intros Hin. apply elem_of_cons in Hin as [Hin|Hin]; [by destruct Hc | by apply Hn].
    + right. exists (c :: p), m. split; [reflexivity|].
      intros Hin. apply elem_of_cons in Hin as [Hin|Hin]; [by destruct Hc | by apply Hp].
Qed.

Lemma join_split_slash cur (s : jstring) :
  Js.join slash (Js.split_lit_aux slash cur s 0) = rev cur ++ s.
Proof.
  revert cur. induction s as [|c s IH]; intros cur.
  { cbn [Js.split_lit_aux Js.join]. by rewrite app_nil_r. }
  rewrite split_slash_step. destruct (N.eqb 47 c) eqn:Hc.
  - apply N.eqb_eq in Hc. subst c.
    specialize (IH []). cbn [rev app] in IH.
    destruct (Js.split_lit_aux slash [] s 0) as [|q qs] eqn:Hq.
    + destruct s; [discriminate Hq|]. rewrite split_slash_step in Hq.
      by destruct (N.eqb 47 c).
    + cbn [Js.join]. cbn [Js.join] in IH. rewrite IH. reflexivity.
  - rewrite IH. cbn [rev]. exact (eq_sym (app_assoc (rev cur) [c] s)).
Qed.

Lemma resolve_slash (p m : jstring) :
  47%N ∉ p ->
  resolveProviderModel (p ++ 47%N :: m)
  = if negb (Js.truthy p) || negb (Js.truthy m)
    then Throw (failure (dq "Invalid model '" ++ (p ++ 47%N :: m)
                    ++ dq "'. Expected provider/model (example: openai/gpt-5.3-codex)."))
    else Ok (p, m).
Proof.
  intros Hp. unfold resolveProviderModel, Js.split_lit.
  rewrite (split_slash_first [] p m Hp). cbn [rev app].
  pose proof (join_split_slash [] m) as Hj. cbn [rev app] in Hj.
  by rewrite Hj.
Qed.

Lemma resolve_no_slash (s : jstring) :
  47%N ∉ s ->
  resolveProviderModel s
  = Throw (failure (dq "Invalid model '" ++ s
                    ++ dq "'. Expected provider/model (example: openai/gpt-5.3-codex).")).
Proof.
  intros Hs. unfold resolveProviderModel, Js.split_lit.
  rewrite (split_slash_none [] s Hs). cbn [rev app Js.join Js.truthy negb].
  by rewrite orb_true_r.
Qed.

Lemma resolve_Ok_inv (modelString provider model : jstring) :
  resolveProviderModel modelString = Ok (provider, model) ->
  modelString = provider ++ slash ++ model
  /\ provider <> [] /\ model <> [] /\ 47%N ∉ provider.
Proof.
  destruct (first_slash modelString) as [Hn|(p & m & -> & Hp)]; intros Hr.
  - pose proof (eq_trans (eq_sym (resolve_no_slash _ Hn)) Hr) as He. discriminate He.
  - pose proof (eq_trans (eq_sym (resolve_slash p m Hp)) Hr) as He.
    destruct p as [|a p]; [discriminate He|]. destruct m as [|b m]; [discriminate He|].
    cbn [Js.truthy negb orb] in He. injection He as <- <-. done.
Qed.

(** X24.  resolveProviderModel cuts the configured name at its first
    slash: it returns a provider and a model exactly when the name is
    the provider, a slash and the model, both non-empty and the provider
    without a slash; later slashes stay in the model. Every other name
    is refused. *)
Theorem resolveProviderModel_cuts_at_first_slash (modelString provider model : jstring) :
  resolveProviderModel modelString = Ok (provider, model)
  <-> modelString = provider ++ slash ++ model
      /\ provider <> [] /\ model <> [] /\ 47%N ∉ provider.
Proof.
  split; [apply resolve_Ok_inv|].
  intros (-> & Hp & Hm & Hslash).
  etrans; [exact (resolve_slash provider model Hslash)|].
  destruct provider; [done|]. by destruct model.
Qed.

Section Respond.
Context {S : Type}.
Variables respondOpenAI respondLocal : jstring -> AgentRequest -> M S jstring.

Local Abbreviation respond := (Agent.respond respondOpenAI respondLocal).

(** X25.  AgentRuntime.respond hands the request to the OpenAI path for
    a name 'openai/' followed by a non-empty model and to the local path
    for 'local/' followed by a non-empty model, passing everything after
    the first slash as the model. For any other configured name it
    throws without calling a provider or changing the state. *)
Theorem respond_dispatches_on_the_prefix (configured : jstring) (request : AgentRequest) (w : S) :
  (forall model, model <> [] ->
     respond (lit "openai/" ++ model) request = respondOpenAI model request
     /\ respond (lit "local/" ++ model) request = respondLocal model request)
  /\ ((forall model, model <> [] ->
         configured <> lit "openai/" ++ model /\ configured <> lit "local/" ++ model) ->
      exists error, respond configured request w = (Throw error, w)).
Proof.
  split.
  - intros model Hm. unfold Agent.respond.
    assert (Ho : 47%N ∉ lit "openai").
    { intros Hin. repeat (apply elem_of_cons in Hin as [Hin|Hin]; [discriminate|]). inversion Hin. }
    assert (Hl : 47%N ∉ lit "local").
    { intros Hin. repeat (apply elem_of_cons in Hin as [Hin|Hin]; [discriminate|]). inversion Hin. }
    pose proof (resolve_slash _ model Ho) as Hopen.
    pose proof (resolve_slash _ model Hl) as Hlocal.
    destruct model as [|c model]; [done|]. cbn [Js.truthy negb orb] in Hopen, Hlocal.
    split.
    + replace (resolveProviderModel (lit "openai/" ++ c :: model))
        with (@Ok (jstring * jstring) (lit "openai", c :: model))
        by (symmetry; exact Hopen).
      reflexivity.
    + replace (resolveProviderModel (lit "local/" ++ c :: model))
        with (@Ok (jstring * jstring) (lit "local", c :: model))
        by (symmetry; exact Hlocal).
      reflexivity.
  - intros Hother. unfold Agent.respond.
    destruct (resolveProviderModel configured) as [[provider model]|error] eqn:Hr;
      [|by eexists].
    apply resolve_Ok_inv in Hr as (-> & Hp & Hm & Hslash).
    destruct (Hother model Hm) as [Hno Hnl].
    unfold jstr_eqb. destruct (bool_decide (provider = lit "openai")) eqn:H1.
    { apply bool_decide_eq_true in H1. subst provider. by destruct Hno. }
    destruct (bool_decide (provider = lit "local")) eqn:H2.
    { apply bool_decide_eq_true in H2. subst provider. by destruct Hnl. }
    by eexists.
Qed.

End Respond.
End AgentFacts.

(* ===================================================================== *)
(** * Memory entities (src/core/memory.ts)                              *)
(* ===================================================================== *)

Module MemoryFacts.
Import Memory.

Lemma trimStart_nonblank (s : jstring) :
  (exists c, c ∈ s /\ Js.is_space c = false) ->
  exists c r, Js.trimStart s = c :: r /\ Js.is_space c = false.
Proof.
  induction s as [|x s IH]; intros (c & Hin & Hc); [inversion Hin|].
  cbn [Js.trimStart]. destruct (Js.is_space x) eqn:Hx.
  - apply IH. exists c. split; [|exact Hc].
    apply elem_of_cons in Hin as [->|Hin]; [congruence | exact Hin].
  - by exists x, s.
Qed.

Lemma trim_nonblank (s : jstring) :
  (exists c, c ∈ s /\ Js.is_space c = false) -> Js.trim s <> [].
Proof.
  intros Hs. destruct (trimStart_nonblank s Hs) as (c & r & Hts & Hc).
  unfold Js.trim. rewrite Hts. destruct (trimEnd_cons c r Hc) as [y ->]. discriminate.
Qed.

Lemma surrogate_not_space (c : char) :
  Utf8.is_high c || Utf8.is_low c = true -> Js.is_space c = false.
Proof.
  unfold Utf8.is_high, Utf8.is_low. intros Hc.
  assert (Hrange : (55296 <= c <= 57343)%N).
  { apply orb_true_iff in Hc as [Hc|Hc]; apply andb_true_iff in Hc as [Hlo Hhi];
      apply N.leb_le in Hlo, Hhi; lia. }
  unfold Js.is_space.
  repeat match goal with
         | |- context [N.eqb c ?k] => rewrite (proj2 (N.eqb_neq c k)) by lia
         | |- context [N.leb c ?k] => rewrite (proj2 (N.leb_gt c k)) by lia
         end.
  by rewrite !andb_false_r.
Qed.

Lemma stored_nonblank (s : jstring) :
  (exists c, c ∈ s /\ Js.is_space c = false) ->
  exists c, c ∈ Utf8.stored s /\ Js.is_space c = false.
Proof.
  induction s as [|x s IH]; intros (c & Hin & Hc); [inversion Hin|].
  cbn [Utf8.stored]. destruct (Utf8.is_high x) eqn:Hhi.
  - destruct s as [|d s'].
    + exists 65533%N. split; [left | reflexivity].
    + destruct (Utf8.is_low d).
      * exists x. split; [left|]. apply surrogate_not_space. by rewrite Hhi.
      * exists 65533%N. split; [left | reflexivity].
  - destruct (Utf8.is_low x) eqn:Hlo.
    + exists 65533%N. split; [left | reflexivity].
    + apply elem_of_cons in Hin as [->|Hin].
      * exists x. split; [left | exact Hc].
      * destruct IH as (c' & Hin' & Hc'); [by exists c|].
        exists c'. split; [by right | exact Hc'].
Qed.

Lemma trim_nonempty_nonblank (s : jstring) :
  Js.trim s <> [] -> exists c, c ∈ Js.trim s /\ Js.is_space c = false.
Proof.
  destruct (Js.trim s) as [|c r] eqn:Ht; [done|]. intros _.
  exists c. split; [left|]. by apply (trim_head s c r).
Qed.

Lemma length_nonzero (s : jstring) : negb (length s =? 0) = true <-> s <> [].
Proof. destruct s; cbn; split; try done. Qed.

(** What an unlocked call returns. *)
Lemma unlocked_id (c : Settings) (sid : jstring) :
  exists id,
    (exists ch, ch ∈ id /\ Js.is_space ch = false)
    /\ (forall lock,
          (lock = None \/ exists text, lock = Some text /\ Js.trim text = []) ->
          userId c sid lock = (Ok id, Some (Utf8.stored id)))
    /\ id = match configuredEntity c with
            | Some entity => entity
            | None => default (lit "gnamiai") (userIdPrefix c) ++ lit ":" ++ sid
            end.
Proof.
  destruct (configuredEntity c) as [[|ch rest]|] eqn:Hcfg.
  - exfalso. unfold configuredEntity in Hcfg.
    destruct (nullish _ _) as [fixed|]; [|discriminate].
    destruct (Js.truthy fixed && negb (length (Js.trim fixed) =? 0)) eqn:Ht; [|discriminate].
    apply andb_true_iff in Ht as [_ Ht]. apply length_nonzero in Ht.
    injection Hcfg as Hcfg. contradiction.
  - exists (ch :: rest). split; [|split; [|reflexivity]].
    + exists ch. split; [left|].
      unfold configuredEntity in Hcfg.
      destruct (nullish _ _) as [fixed|]; [|discriminate].
      destruct (Js.truthy fixed && negb (length (Js.trim fixed) =? 0)); [|discriminate].
      injection Hcfg as Hcfg. by apply (trim_head fixed ch rest).
    + intros lock [->|(text & -> & Hblank)]; unfold userId; rewrite Hcfg; [reflexivity|].
      by rewrite Hblank.
  - exists (default (lit "gnamiai") (userIdPrefix c) ++ lit ":" ++ sid).
    split; [|split; [|reflexivity]].
    + exists 58%N. split; [|reflexivity].
      apply elem_of_app. right. left.
    + intros lock [->|(text & -> & Hblank)]; unfold userId; rewrite Hcfg; [reflexivity|].
      by rewrite Hblank.
Qed.

Lemma locked_id (c : Settings) (sid text : jstring) :
  Js.trim text <> [] -> userId c sid (Some text) = (Ok (Js.trim text), Some text).
Proof.
  intros Ht. unfold userId. apply length_nonzero in Ht. by rewrite Ht.
Qed.

(** X26.  The memory entity id is pinned by the lock file: a lock file
    with non-blank text decides the id and is left as it is; otherwise
    the call returns the configured entity, or prefix:sessionUserId when
    none is configured, and writes it to the lock file. After any call,
    every later call returns one and the same non-empty id, whatever
    session or settings it is made for, and that id is the first one
    when it is trimmed text without surrogates. *)
Theorem userId_is_pinned_by_the_first_call (c : Settings) (sid : jstring) (lock : option jstring) :
  exists id lock1 pinned,
    userId c sid lock = (Ok id, lock1)
    /\ pinned <> []
    /\ (forall c' sid', userId c' sid' lock1 = (Ok pinned, lock1))
    /\ (Utf8.plain_units id = true -> Js.trim id = id -> pinned = id)
    /\ (forall text, lock = Some text -> Js.trim text <> [] ->
          id = Js.trim text /\ lock1 = lock)
    /\ (lock = None \/ (exists text, lock = Some text /\ Js.trim text = []) ->
          lock1 = Some (Utf8.stored id)
          /\ pinned = Js.trim (Utf8.stored id)
          /\ id = match configuredEntity c with
                  | Some entity => entity
                  | None => default (lit "gnamiai") (userIdPrefix c) ++ lit ":" ++ sid
                  end).
Proof.
  assert (Hcases : (lock = None \/ exists text, lock = Some text /\ Js.trim text = [])
                   \/ exists text, lock = Some text /\ Js.trim text <> []).
  { destruct lock as [text|]; [|by left; left].
    destruct (Js.trim text) as [|a r] eqn:Ht.
    - left. right. by exists text.
    - right. exists text. split; [reflexivity|]. by rewrite Ht. }
  destruct Hcases as [Hfree|(text & -> & Ht)].
  - destruct (unlocked_id c sid) as (id & Hnb & Hrun & Hid).
    pose proof (trim_nonblank _ (stored_nonblank id Hnb)) as Hpin.
    exists id, (Some (Utf8.stored id)), (Js.trim (Utf8.stored id)).
    split; [by apply Hrun|]. split; [exact Hpin|].
    split; [intros c' sid'; by apply locked_id|].
    split; [intros Hplain Htrim; by rewrite (Utf8Facts.stored_plain id Hplain)|].
    split.
    + intros text -> Ht. destruct Hfree as [Hn|(text' & [= <-] & Hb)]; [discriminate|].
      contradiction.
    + intros _. done.
  - exists (Js.trim text), (Some text), (Js.trim text).
    split; [by apply locked_id|]. split; [exact Ht|].
    split; [intros c' sid'; by apply locked_id|].
    split; [done|]. split.
    + by intros text' [= <-] _.
    + intros [Hn|(text' & [= <-] & Hb)]; [discriminate | contradiction].
Qed.

Lemma record_text_trimmed (record : Mem0Record) :
  Js.trim (record_text record) = record_text record.
Proof. unfold record_text. apply trim_idem. Qed.

Lemma records_loop_spec (limit : nat) (records : list Mem0Record) :
  forall (seen : gset jstring) (out : list jstring),
    (forall x, x ∈ seen <-> x ∈ out) ->
    NoDup out ->
    length out < Nat.max limit 1 ->
    let res := records_loop limit records seen out in
    NoDup res
    /\ length res <= Nat.max limit 1
    /\ out `prefix_of` res
    /\ (forall x, x ∈ res -> x ∈ out \/ (x <> [] /\ exists r, r ∈ records /\ record_text r = x))
    /\ (length res < limit ->
        forall r, r ∈ records -> record_text r <> [] -> record_text r ∈ res).
Proof.
  induction records as [|record rest IH]; intros seen out Hseen Hnd Hlen; cbn zeta.
  - cbn [records_loop]. split; [exact Hnd|]. split; [lia|]. split; [done|].
    split; [by left|]. intros _ r Hr. inversion Hr.
  - cbn [records_loop].
    assert (Hlift : forall res : list jstring,
              NoDup res /\ length res <= Nat.max limit 1 /\ out `prefix_of` res
              /\ (forall x, x ∈ res ->
                     x ∈ out \/ (x <> [] /\ exists r, r ∈ rest /\ record_text r = x))
              /\ (length res < limit ->
                   forall r, r ∈ rest -> record_text r <> [] -> record_text r ∈ res) ->
              (record_text record = [] \/ record_text record ∈ out) ->
              NoDup res /\ length res <= Nat.max limit 1 /\ out `prefix_of` res
              /\ (forall x, x ∈ res ->
                     x ∈ out
                     \/ (x <> [] /\ exists r, r ∈ record :: rest /\ record_text r = x))
              /\ (length res < limit ->
                   forall r, r ∈ record :: rest -> record_text r <> [] ->
                             record_text r ∈ res)).
    { intros res (H1 & H2 & H3 & H4 & H5) Hskip.
      split; [exact H1|]. split; [exact H2|]. split; [exact H3|]. split.
      - intros x Hx. destruct (H4 x Hx) as [Ho|(Hne & r & Hr & Hrx)]; [by left|].
        right. split; [exact Hne|]. exists r. split; [by right | exact Hrx].
      - intros Hl r Hr Hne. apply elem_of_cons in Hr as [->|Hr]; [|by apply H5].
        destruct Hskip as [Hb|Ho]; [contradiction|].
        eapply elem_of_prefix; [exact Ho | exact H3]. }
    destruct (Js.truthy (record_text record)) eqn:Htruthy; cbn [negb].
    2:{ apply Hlift; [by apply IH|]. left. by destruct (record_text record). }
    destruct (bool_decide (record_text record ∈ seen)) eqn:Hin.
    { apply bool_decide_eq_true in Hin. apply Hlift; [by apply IH|].
      right. by apply Hseen. }
    apply bool_decide_eq_false in Hin.
    assert (Hfresh : record_text record ∉ out) by (intros Ho; apply Hin; by apply Hseen).
    assert (Hnd' : NoDup (out ++ [record_text record])).
    { apply NoDup_app. split; [exact Hnd|]. split; [|apply NoDup_singleton].
      intros x Hx Hx'. apply list_elem_of_singleton in Hx'. by subst x. }
    assert (Hne : record_text record <> []).
    { intros He. rewrite He in Htruthy. discriminate. }
    destruct (limit <=? length (out ++ [record_text record])) eqn:Hfull.
    + apply Nat.leb_le in Hfull. rewrite length_app in *. cbn [length] in *.
      split; [exact Hnd'|]. split; [lia|]. split; [by apply prefix_app_r|]. split.
      * intros x Hx. apply elem_of_app in Hx as [Hx|Hx]; [by left|].
        apply list_elem_of_singleton in Hx. subst x. right. split; [exact Hne|].
        exists record. split; [left | reflexivity].
      * intros Hl. lia.
    + apply Nat.leb_gt in Hfull.
      destruct (IH ({[record_text record]} ∪ seen) (out ++ [record_text record]))
        as (H1 & H2 & H3 & H4 & H5).
      * intros x. rewrite elem_of_union, elem_of_singleton, elem_of_app,
          list_elem_of_singleton, Hseen. tauto.
      * exact Hnd'.
      * lia.
      * split; [exact H1|]. split; [exact H2|].
        split; [etrans; [|exact H3]; by apply prefix_app_r|]. split.
        -- intros x Hx. destruct (H4 x Hx) as [Ho|(Hnx & r & Hr & Hrx)].
           ++ apply elem_of_app in Ho as [Ho|Ho]; [by left|].
              apply list_elem_of_singleton in Ho. subst x. right. split; [exact Hne|].
              exists record. split; [left | reflexivity].
           ++ right. split; [exact Hnx|]. exists r. split; [by right | exact Hrx].
        -- intros Hl r Hr Hnr. apply elem_of_cons in Hr as [->|Hr]; [|by apply H5].
           eapply elem_of_prefix; [|exact H3]. apply elem_of_app. right. left.
Qed.

(** X27.  recordsToText returns texts of the records without duplicates,
    each trimmed and non-empty, and at most limit of them (one when the
    limit is zero). When it returns fewer than limit, every non-blank
    record text is among them. *)
Theorem recordsToText_keeps_first_distinct_texts (records : list Mem0Record) (limit : nat) :
  let out := recordsToText records limit in
  NoDup out
  /\ length out <= Nat.max limit 1
  /\ (forall x, x ∈ out ->
        x <> [] /\ Js.trim x = x /\ exists r, r ∈ records /\ record_text r = x)
  /\ (length out < limit ->
      forall r, r ∈ records -> record_text r <> [] -> record_text r ∈ out).
Proof.
  intros out. subst out. unfold recordsToText.
  destruct (records_loop_spec limit records ∅ []) as (H1 & H2 & _ & H4 & H5).
  - intros x. split; intros Hx; [by apply not_elem_of_empty in Hx | inversion Hx].
  - apply NoDup_nil. done.
  - cbn [length]. lia.
  - split; [exact H1|]. split; [exact H2|]. split; [|exact H5].
    intros x Hx. destruct (H4 x Hx) as [Ho|(Hne & r & Hr & Hrx)]; [inversion Ho|].
    split; [exact Hne|]. split; [|by exists r].
    subst x. apply record_text_trimmed.
Qed.

End MemoryFacts.

(* ===================================================================== *)
(** * Worked cases                                                      *)
(* ===================================================================== *)

Lemma one_session_per_sender_witness :
  sessions_ok
    (StoreOps.getOrCreateSession webchat Demo.gabriel Cases.later_on
       (Demo.store_with Demo.approved_row [Demo.old_session])).2.
Proof.
  destruct (StoreRoundTrips.getOrCreateSession_one_session_per_sender
              webchat Demo.gabriel Cases.later_on
              (Demo.store_with Demo.approved_row [Demo.old_session]))
    as (id & row & _ & Hok & _).
  - split; [|split].
    + apply NoDup_singleton.
    + apply NoDup_singleton.
    + apply Forall_cons. split; [vm_compute; discriminate | apply Forall_nil; exact I].
  - exact Hok.
Defined.

Lemma conversing_silent_sample :
  conversing Turns.list_files Turns.identity_world 1
    (Turns.heard Turns.list_files Turns.identity_world) []
    (Turns.after_inbound Turns.list_files Turns.identity_world).
Proof.
  unfold conversing. do 7 eexists.
  split; [vm_compute; reflexivity|].
  split; [reflexivity|].
  split; [vm_compute; reflexivity|].
  split; [vm_compute; reflexivity|].
  split; [vm_compute; reflexivity|].
  split; [vm_compute; reflexivity|].
  split; [reflexivity|].
  split; [vm_compute; reflexivity|].
  split; [vm_compute; reflexivity|].
  split; [vm_compute; reflexivity|].
  split; [vm_compute; reflexivity|].
  reflexivity.
Defined.

Lemma provider_failure_witness :
  exists w',
    handleInbound Demo.scripted Turns.list_files Turns.identity_world = (Ok tt, w')
    /\ replies w' = [lit "GnamiAI error: OpenAI returned an empty response."].
Proof.
  destruct (provider_failure_is_reported Demo.scripted
              Turns.list_files Turns.identity_world _ _ _ _
              (lit "(workspace)") (Demo.env [])
              (Error "OpenAI returned an empty response.") (Demo.env [])
              conversing_silent_sample)
    as (Hrun & _).
  - vm_compute. reflexivity.
  - reflexivity.
  - reflexivity.
  - eexists. split; [exact Hrun|]. vm_compute. reflexivity.
Defined.

Lemma conversing_plain_sample :
  conversing Turns.list_files Cases.plain_world 1
    (Turns.heard Turns.list_files Cases.plain_world) []
    (Turns.after_inbound Turns.list_files Cases.plain_world).
Proof.
  unfold conversing. do 7 eexists.
  split; [vm_compute; reflexivity|].
  split; [reflexivity|].
  split; [vm_compute; reflexivity|].
  split; [vm_compute; reflexivity|].
  split; [vm_compute; reflexivity|].
  split; [vm_compute; reflexivity|].
  split; [reflexivity|].
  split; [vm_compute; reflexivity|].
  split; [vm_compute; reflexivity|].
  split; [vm_compute; reflexivity|].
  split; [vm_compute; reflexivity|].
  reflexivity.
Defined.

Lemma single_pass_witness :
  exists w',
    handleInbound Demo.scripted Turns.list_files Cases.plain_world = (Ok tt, w')
    /\ replies w' = [lit "Done."].
Proof.
  destruct (answer_without_actions_is_single_pass Demo.scripted
              Turns.list_files Cases.plain_world _ _ _ _
              (lit "(workspace)") (Demo.env [lit "Done."])
              (lit "Done.") (Demo.env [])
              conversing_plain_sample)
    as (w' & Hrun & Hrep & _).
  - vm_compute. reflexivity.
  - reflexivity.
  - reflexivity.
  - vm_compute. reflexivity.
  - exists w'. split; [exact Hrun|]. rewrite Hrep. vm_compute. reflexivity.
Defined.

Lemma skill_install_usage_witness :
  exists w',
    handleInbound Demo.scripted Cases.install_notes Turns.identity_world = (Ok tt, w')
    /\ replies w'
       = [lit "Usage: /skill install <name> followed by SKILL.md content on next lines."]
    /\ store w' = store Turns.identity_world.
Proof.
  eexists. split.
  - apply (single_line_skill_install_is_refused Demo.scripted
             Cases.install_notes Turns.identity_world Demo.approved_row (lit "notes")).
    + vm_compute. reflexivity.
    + reflexivity.
    + reflexivity.
    + vm_compute. reflexivity.
  - split; reflexivity.
Defined.

Lemma waiting_unanswered : Cdp.unanswered 1 Cases.still_waiting.
Proof.
  intros ev Hin. split.
  - intros ->. vm_compute in Hin.
    repeat (apply elem_of_cons in Hin as [Hin|Hin]; [discriminate|]). inversion Hin.
  - intros raw -> (payload & n & Hparse & Hid & Hkey).
    apply elem_of_cons in Hin as [Hin|Hin].
    + injection Hin as ->. vm_compute in Hparse. injection Hparse as <-.
      vm_compute in Hid. injection Hid as <-. vm_compute in Hkey. discriminate.
    + repeat (apply elem_of_cons in Hin as [Hin|Hin]; [discriminate|]). inversion Hin.
Defined.

Lemma response_settles_witness :
  let s := Cdp.run CdpDemo.to_String CdpDemo.stringify Cases.still_waiting CdpDemo.issued in
  let s2 := Cdp.step CdpDemo.to_String CdpDemo.stringify (Cdp.EFrame CdpDemo.late_frame) s in
  Cdp.promises s !! 1%N = None
  /\ Cdp.promises s2 !! 1%N
     = Some (Cdp.Resolved (Some (JObj [(lit "frameId", JStr (lit "A"))]))).
Proof.
  destruct (CdpAnswers.response_settles_the_call
              CdpDemo.to_String CdpDemo.stringify [] CdpDemo.navigate (JObj []) 1
              CdpDemo.issued Cases.still_waiting CdpDemo.late_frame Cases.answer_1
              (Number 1 0))
    as (_ & Hnone & Hsome & _).
  - reflexivity.
  - exact waiting_unanswered.
  - vm_compute. reflexivity.
  - vm_compute. reflexivity.
  - vm_compute. reflexivity.
  - vm_compute. reflexivity.
  - split; [exact Hnone|]. rewrite Hsome. vm_compute. reflexivity.
Defined.

Lemma close_abandons_witness :
  let s2 :=
    Cdp.close
      (Cdp.run CdpDemo.to_String CdpDemo.stringify Cases.still_waiting CdpDemo.issued) in
  let s3 := Cdp.run CdpDemo.to_String CdpDemo.stringify [Cdp.EAdvance 6000] s2 in
  Cdp.promises s3 !! 1%N = None
  /\ Cdp.on_message CdpDemo.to_String CdpDemo.late_frame s3 = (Ok tt, s3).
Proof.
  destruct (CdpAnswers.close_abandons_pending_calls
              CdpDemo.to_String CdpDemo.stringify [] CdpDemo.navigate (JObj []) 1
              CdpDemo.issued Cases.still_waiting [Cdp.EAdvance 6000])
    as (_ & Hnone & _ & Hlate & _).
  - reflexivity.
  - exact waiting_unanswered.
  - vm_compute. reflexivity.
  - split; [exact Hnone|]. apply Hlate.
    exists Cases.answer_1, (Number 1 0).
    split; [vm_compute; reflexivity|]. split; vm_compute; reflexivity.
Defined.

Lemma command_ids_witness :
  Cdp.pending
    (Cdp.command CdpDemo.stringify CdpDemo.navigate (JObj [])
       (Cdp.run CdpDemo.to_String CdpDemo.stringify Cases.still_waiting CdpDemo.issued)).2
    !! 2%N
  = Some 2%N.
Proof.
  destruct (CdpAnswers.command_ids_never_repeat
              CdpDemo.to_String CdpDemo.stringify
              CdpDemo.navigate (JObj []) (Cdp.connect Cdp.create) 1 CdpDemo.issued
              Cases.still_waiting CdpDemo.navigate (JObj []) 2
              (Cdp.command CdpDemo.stringify CdpDemo.navigate (JObj [])
                 (Cdp.run CdpDemo.to_String CdpDemo.stringify Cases.still_waiting
                    CdpDemo.issued)).2)
    as (_ & _ & Hpending).
  - reflexivity.
  - vm_compute. reflexivity.
  - exact Hpending.
Defined.

Lemma text_without_block_witness :
  stripAgentActions (lit "  Done. ") = lit "Done."
  /\ parseAgentActions (lit "  Done. ") = [].
Proof.
  destruct (StripRender.text_without_block_is_only_trimmed (lit "  Done. "))
    as (Hstrip & Hparse & _).
  - apply StripRender.plain_text_no_block. vm_compute. reflexivity.
  - split; [rewrite Hstrip; vm_compute; reflexivity | exact Hparse].
Defined.

Lemma keeps_text_around_blocks_witness :
  stripAgentActions (render Texts.three_segments (lit " end ")) = lit "hi  mid   end".
Proof.
  destruct (StripRender.stripAgentActions_keeps_the_text_around_blocks
              Texts.three_segments (lit " end "))
    as (Hstrip & _).
  - vm_compute. reflexivity.
  - rewrite Hstrip. vm_compute. reflexivity.
Defined.

Lemma execShell_settles_once_witness :
  ShellProcess.settled
    (ShellProcess.run Cases.thirty_seconds (Number 30000 0)
       (Cases.chatty ++ ShellProcess.Exit (Some 0%Z) :: [ShellProcess.Expire])
       ShellProcess.spawn)
  = Some (Ok (lit "a" ++ Demo.nl ++ lit "warn")).
Proof.
  destruct (ShellFacts.execShell_settles_once Cases.thirty_seconds (Number 30000 0)
              Cases.chatty (ShellProcess.Exit (Some 0%Z)) [ShellProcess.Expire])
    as (_ & Hsettled & _).
  - reflexivity.
  - reflexivity.
  - rewrite Hsettled. vm_compute. reflexivity.
Defined.

Lemma readWorkspaceDoc_after_write_witness :
  let docs1 :=
    (Workspace.writeWorkspaceDoc Cases.upper (lit " soul.md ") Cases.soul_text ∅).2 in
  Workspace.readWorkspaceDoc Cases.upper Cases.missing (lit " soul.md ") docs1
  = (Ok Cases.soul_text, docs1).
Proof.
  intros docs1.
  destruct (WorkspaceFacts.readWorkspaceDoc_after_write Cases.upper Cases.missing
              (lit " soul.md ") Cases.soul_text ∅ docs1)
    as (canonical & template & legacy & Hname & _ & Hlegacy & _ & Hread & _ & Hplain).
  - vm_compute. reflexivity.
  - vm_compute in Hname. injection Hname as <-.
    vm_compute in Hlegacy. injection Hlegacy as <-.
    rewrite Hplain in Hread by (vm_compute; reflexivity).
    apply Hread. vm_compute. discriminate.
Defined.
